(** * ietools: decision criteria, cash-flow equivalence and horizon reconciliation

    A shallow embedding of [ietools/Decision.py], [ietools/EnggEcon.py] and
    [ietools/utils.py].

    Numbers.  The Python code computes on IEEE doubles (and on unbounded
    integers in [cfCommon]).  Doubles are modelled by exact rationals [Q]:
    comparisons, [max], [min], [argmax] and [argmin] are then the ones of the
    code on every input without NaN, and arithmetic is the unrounded one.
    Integers are [Z].  What a double adds to this is not modelled: the
    rounding of [+], [-], [*], [/] and [**], the underflow to 0.0, the
    [OverflowError] of [**] beyond the range, and the wrap-around of an
    [int64] array.  The properties below are therefore those that do not
    rest on the value of a rounded operation: the order facts on what [fit]
    stores, the control flow and the exceptions, the objects and their
    aliasing, and the values at inputs where the doubles compute exactly
    (a rate of 0 or of -100 %, no period, the tables of the test-suite).

    Exceptions.  A Python call either returns a value or raises; [result]
    records which, and the stateful methods thread the object they mutate, so
    that the state left behind by a raised exception can be inspected. *)

From Stdlib Require Import ZArith QArith Qabs Qround Qpower Qfield List String Lia.
From stdpp Require Import base option list gmap strings.

Local Open Scope string_scope.

(* ===================================================================== *)
(** ** Python outcomes *)
(* ===================================================================== *)

Inductive exn : Type :=
| ValueError (msg : string)
| TypeError
| AttributeError (attr : string)
| IndexError
| KeyError (key : string)
| ZeroDivisionError.

Inductive result (A : Type) : Type :=
| Ok (a : A)
| Raise (e : exn).

Arguments Ok {A} a.
Arguments Raise {A} e.

Definition rbind {A B} (r : result A) (k : A -> result B) : result B :=
  match r with
  | Ok a => k a
  | Raise e => Raise e
  end.

#[global] Instance result_bind : MBind result := fun A B k r => rbind r k.
#[global] Instance result_ret : MRet result := fun A a => Ok a.

(** [[f(x) for x in l]] with a body that may raise: the first exception wins. *)
Fixpoint rmap {A B} (f : A -> result B) (l : list A) : result (list B) :=
  match l with
  | [] => Ok []
  | x :: t => y ← f x; ys ← rmap f t; Ok (y :: ys)
  end.

Definition is_ok {A} (r : result A) : bool :=
  match r with Ok _ => true | Raise _ => false end.

(** Code that mutates a state [S]: it leaves a state behind (also when it
    raises) and returns or raises. *)
Definition action (S A : Type) : Type := S -> S * result A.

Definition act_ret {S A} (a : A) : action S A := fun s => (s, Ok a).

Definition act_bind {S A B} (m : action S A) (k : A -> action S B)
  : action S B :=
  fun s => match m s with
           | (s', Ok a) => k a s'
           | (s', Raise e) => (s', Raise e)
           end.

Notation "'let*' x := m 'in' k" := (act_bind m (fun x => k))
  (at level 10, x name, m at level 100, k at level 200).
Notation "m >> k" := (act_bind m (fun _ => k))
  (at level 100, k at level 200, right associativity).

(** A computation that only reads the state. *)
Definition pure_ {S A} (f : S -> result A) : action S A := fun s => (s, f s).

(* ===================================================================== *)
(** ** The numpy reductions used by [Decision.fit] *)
(* ===================================================================== *)

Module Np.

Local Open Scope Q_scope.

Definition Qgtb (x y : Q) : bool := negb (Qle_bool x y).

Definition zero_size (op : string) : exn :=
  ValueError ("zero-size array to reduction operation " ++ op
              ++ " which has no identity").

Definition empty_arg (op : string) : exn :=
  ValueError ("attempt to get " ++ op ++ " of an empty sequence").

(** Running maximum / minimum: a later element replaces the current best
    only when it is strictly better, so the first best element is kept. *)
Fixpoint max_from (best : Q) (l : list Q) : Q :=
  match l with
  | [] => best
  | x :: t => max_from (if Qgtb x best then x else best) t
  end.

Fixpoint min_from (best : Q) (l : list Q) : Q :=
  match l with
  | [] => best
  | x :: t => min_from (if Qgtb best x then x else best) t
  end.

(** [a.max()] and [a.min()] of a one-dimensional array. *)
Definition max (l : list Q) : result Q :=
  match l with
  | [] => Raise (zero_size "maximum")
  | x :: t => Ok (max_from x t)
  end.

Definition min (l : list Q) : result Q :=
  match l with
  | [] => Raise (zero_size "minimum")
  | x :: t => Ok (min_from x t)
  end.

(** [a.argmax()] / [a.argmin()]: index of the first occurrence of the
    extreme value.  [i] is the index of the head of [l], [bi] the index of
    the current best [best]. *)
Fixpoint argmax_from (i bi : nat) (best : Q) (l : list Q) : nat :=
  match l with
  | [] => bi
  | x :: t =>
      if Qgtb x best then argmax_from (S i) i x t
      else argmax_from (S i) bi best t
  end.

Fixpoint argmin_from (i bi : nat) (best : Q) (l : list Q) : nat :=
  match l with
  | [] => bi
  | x :: t =>
      if Qgtb best x then argmin_from (S i) i x t
      else argmin_from (S i) bi best t
  end.

Definition argmax (l : list Q) : result nat :=
  match l with
  | [] => Raise (empty_arg "argmax")
  | x :: t => Ok (argmax_from 1 0 x t)
  end.

Definition argmin (l : list Q) : result nat :=
  match l with
  | [] => Raise (empty_arg "argmin")
  | x :: t => Ok (argmin_from 1 0 x t)
  end.

(** A two-dimensional array is the list of its rows.  An array without rows
    stands for the shape (0, n) with n > 0. *)
Definition matrix : Type := list (list Q).

(** [m.max(axis=1)], [m.min(axis=1)]: one reduction per row. *)
Definition max_axis1 (m : matrix) : result (list Q) := rmap max m.
Definition min_axis1 (m : matrix) : result (list Q) := rmap min m.

(** [m[:, j]] *)
Definition column (j : nat) (m : matrix) : result (list Q) :=
  rmap (fun row => match nth_error row j with
                   | Some x => Ok x
                   | None => Raise IndexError
                   end) m.

(** [m.max(axis=0)]: one reduction per column; no row means a zero-size
    reduction. *)
Definition max_axis0 (m : matrix) : result (list Q) :=
  match m with
  | [] => Raise (zero_size "maximum")
  | row :: _ => rmap (fun j => c ← column j m; max c) (seq 0 (length row))
  end.

(** [v - m] with [v] broadcast along the rows.  The differences are the
    unrounded ones: an [int64] array wraps around and a [float64] array
    rounds, so only the order facts on the stored matrix are stated of it. *)
Fixpoint sub_row (v row : list Q) : list Q :=
  match v, row with
  | a :: v', b :: row' => (a - b) :: sub_row v' row'
  | _, _ => []
  end.

Definition broadcast_sub (v : list Q) (m : matrix) : matrix :=
  map (sub_row v) m.

(** [row @ p] for a column vector [p], unrounded: numpy rounds every
    product and sum of a [float64] array, and wraps those of an [int64]
    one. *)
Fixpoint dot (row p : list Q) : Q :=
  match row, p with
  | a :: row', b :: p' => a * b + dot row' p'
  | _, _ => 0
  end.

Definition mismatch : exn :=
  ValueError "matmul: Input operand 1 has a mismatch in its core dimension 0".

(** [m @ p]: the (rows, 1) product, flattened; its entries are those of
    [dot], so that the row that [argmax] picks is the one of the code where
    the products are exact and their order is not decided by a rounding. *)
Definition matvec (m : matrix) (p : list Q) : result (list Q) :=
  rmap (fun row => if Nat.eqb (length row) (length p)
                   then Ok (dot row p) else Raise mismatch) m.

End Np.

(* ===================================================================== *)
(** ** [Decision.py]: the decision criteria *)
(* ===================================================================== *)

Module Decision.

(** Alternatives and states are named by strings when the table had names
    and by their 0-based index otherwise. *)
Inductive label : Type :=
| LStr (s : string)
| LInt (i : Z).

(** The instance: the fields set by [__init__], followed by the attributes
    that [fit] creates; an attribute that was never assigned is [None] and
    reading it raises [AttributeError]. *)
Record t : Type := mk {
  crit : list string;
  alts : list label;
  states : list label;
  prob : list Q;
  payoff : Np.matrix;
  regret : option Np.matrix;
  results_ : gmap string (label * Q);
  maxmax_dec_ : option label;
  maxmax_pf_ : option Q;
  maxmin_dec_ : option label;
  maxmin_pf_ : option Q;
  regret_ : option Np.matrix;
  regret_dec_ : option label;
  regret_pf_ : option Q;
  mle_dec_ : option label;
  mle_pf_ : option Q;
  ev_dec_ : option label;
  ev_pf_ : option Q
}.

(** Attribute assignment [self.x = v]. *)
Definition set_results_ (v : gmap string (label * Q)) (d : t) : t :=
  let '(mk a b c e f g _ h i j k l m n o p q r) := d in
  mk a b c e f g v h i j k l m n o p q r.
Definition set_maxmax_dec_ (v : label) (d : t) : t :=
  let '(mk a b c e f g s _ i j k l m n o p q r) := d in
  mk a b c e f g s (Some v) i j k l m n o p q r.
Definition set_maxmax_pf_ (v : Q) (d : t) : t :=
  let '(mk a b c e f g s h _ j k l m n o p q r) := d in
  mk a b c e f g s h (Some v) j k l m n o p q r.
Definition set_maxmin_dec_ (v : label) (d : t) : t :=
  let '(mk a b c e f g s h i _ k l m n o p q r) := d in
  mk a b c e f g s h i (Some v) k l m n o p q r.
Definition set_maxmin_pf_ (v : Q) (d : t) : t :=
  let '(mk a b c e f g s h i j _ l m n o p q r) := d in
  mk a b c e f g s h i j (Some v) l m n o p q r.
Definition set_regret_ (v : Np.matrix) (d : t) : t :=
  let '(mk a b c e f g s h i j k _ m n o p q r) := d in
  mk a b c e f g s h i j k (Some v) m n o p q r.
Definition set_regret_dec_ (v : label) (d : t) : t :=
  let '(mk a b c e f g s h i j k l _ n o p q r) := d in
  mk a b c e f g s h i j k l (Some v) n o p q r.
Definition set_regret_pf_ (v : Q) (d : t) : t :=
  let '(mk a b c e f g s h i j k l m _ o p q r) := d in
  mk a b c e f g s h i j k l m (Some v) o p q r.
Definition set_mle_dec_ (v : label) (d : t) : t :=
  let '(mk a b c e f g s h i j k l m n _ p q r) := d in
  mk a b c e f g s h i j k l m n (Some v) p q r.
Definition set_mle_pf_ (v : Q) (d : t) : t :=
  let '(mk a b c e f g s h i j k l m n o _ q r) := d in
  mk a b c e f g s h i j k l m n o (Some v) q r.
Definition set_ev_dec_ (v : label) (d : t) : t :=
  let '(mk a b c e f g s h i j k l m n o p _ r) := d in
  mk a b c e f g s h i j k l m n o p (Some v) r.
Definition set_ev_pf_ (v : Q) (d : t) : t :=
  let '(mk a b c e f g s h i j k l m n o p q _) := d in
  mk a b c e f g s h i j k l m n o p q (Some v).

(** A method body runs on the instance. *)
Definition method (A : Type) : Type := action t A.

(** Evaluating an expression over [self]. *)
Definition eval {A} (f : t -> result A) : method A := pure_ f.

(** Reading an attribute that [fit] creates. *)
Definition attr {A} (name : string) (o : option A) : result A :=
  match o with
  | Some v => Ok v
  | None => Raise (AttributeError name)
  end.

(** [self.x = v] *)
Definition assign (set : t -> t) : method unit := fun d => (set d, Ok tt).

(** [self.alts[i]] *)
Definition alt_at (d : t) (i : nat) : result label :=
  match alts d !! i with
  | Some a => Ok a
  | None => Raise IndexError
  end.

(** [_build_dict]: [self.results_.update({criteria: (decision, payoff)})] *)
Definition _build_dict (criteria : string) (decision : label) (pf : Q)
  : method unit :=
  assign (fun d => set_results_ (<[criteria := (decision, pf)]> (results_ d)) d).

Definition unknown_criterion (criterion : string) : exn :=
  ValueError ("The provided criteria " ++ criterion
    ++ " does not exist. Please check and provide an appropriate criteria").

(** The right-hand sides of the assignments of [fit], in the order of the
    source. *)

(** [self.alts[self.payoff.max(axis = 1).argmax()]] and
    [self.payoff.max(axis = 1).max()] *)
Definition maxmax_choice (d : t) : result label :=
  rows ← Np.max_axis1 (payoff d); i ← Np.argmax rows; alt_at d i.
Definition maxmax_value (d : t) : result Q :=
  rows ← Np.max_axis1 (payoff d); Np.max rows.

(** [self.alts[self.payoff.min(axis = 1).argmax()]] and
    [self.payoff.min(axis = 1).max()] *)
Definition maxmin_choice (d : t) : result label :=
  rows ← Np.min_axis1 (payoff d); i ← Np.argmax rows; alt_at d i.
Definition maxmin_value (d : t) : result Q :=
  rows ← Np.min_axis1 (payoff d); Np.max rows.

(** [self.payoff.max(axis = 0) - self.payoff],
    [self.alts[self.regret_.max(axis = 1).argmin()]] and
    [self.regret_.max(axis = 1).min()] *)
Definition regret_matrix (d : t) : result Np.matrix :=
  cols ← Np.max_axis0 (payoff d); Ok (Np.broadcast_sub cols (payoff d)).
Definition regret_choice (d : t) : result label :=
  reg ← attr "regret_" (regret_ d);
  rows ← Np.max_axis1 reg; i ← Np.argmin rows; alt_at d i.
Definition regret_value (d : t) : result Q :=
  reg ← attr "regret_" (regret_ d);
  rows ← Np.max_axis1 reg; Np.min rows.

(** [self.payoff[:, self.prob.argmax()]], then
    [self.alts[....argmax()]] and [....max()] *)
Definition likely_column (d : t) : result (list Q) :=
  j ← Np.argmax (prob d); Np.column j (payoff d).
Definition maxlik_choice (d : t) : result label :=
  col ← likely_column d; i ← Np.argmax col; alt_at d i.
Definition maxlik_value (d : t) : result Q :=
  col ← likely_column d; Np.max col.

(** [self.payoff @ self.prob], then [self.alts[dotprod.argmax()]] and
    [dotprod.max()] *)
Definition dotprod_of (d : t) : result (list Q) :=
  Np.matvec (payoff d) (prob d).
Definition ev_choice (dotprod : list Q) (d : t) : result label :=
  i ← Np.argmax dotprod; alt_at d i.
Definition ev_value (dotprod : list Q) (d : t) : result Q :=
  Np.max dotprod.

(** One turn of the loop of [fit]. *)
Definition fit_criterion (criterion : string) : method unit :=
  if String.eqb criterion "maxmax" then
    let* dec := eval maxmax_choice in
    assign (set_maxmax_dec_ dec) >>
    let* pf := eval maxmax_value in
    assign (set_maxmax_pf_ pf) >>
    let* dec_ := eval (fun d => attr "maxmax_dec_" (maxmax_dec_ d)) in
    let* pf_ := eval (fun d => attr "maxmax_pf_" (maxmax_pf_ d)) in
    _build_dict criterion dec_ pf_
  else if String.eqb criterion "maxmin" then
    let* dec := eval maxmin_choice in
    assign (set_maxmin_dec_ dec) >>
    let* pf := eval maxmin_value in
    assign (set_maxmin_pf_ pf) >>
    let* dec_ := eval (fun d => attr "maxmin_dec_" (maxmin_dec_ d)) in
    let* pf_ := eval (fun d => attr "maxmin_pf_" (maxmin_pf_ d)) in
    _build_dict criterion dec_ pf_
  else if String.eqb criterion "regret" then
    let* reg := eval regret_matrix in
    assign (set_regret_ reg) >>
    let* dec := eval regret_choice in
    assign (set_regret_dec_ dec) >>
    let* pf := eval regret_value in
    assign (set_regret_pf_ pf) >>
    let* dec_ := eval (fun d => attr "regret_dec_" (regret_dec_ d)) in
    let* pf_ := eval (fun d => attr "regret_pf_" (regret_pf_ d)) in
    _build_dict criterion dec_ pf_
  else if String.eqb criterion "maxlik" then
    let* dec := eval maxlik_choice in
    assign (set_mle_dec_ dec) >>
    let* pf := eval maxlik_value in
    assign (set_mle_pf_ pf) >>
    let* dec_ := eval (fun d => attr "mle_dec_" (mle_dec_ d)) in
    let* pf_ := eval (fun d => attr "mle_pf_" (mle_pf_ d)) in
    _build_dict criterion dec_ pf_
  else if String.eqb criterion "ev" then
    let* dotprod := eval dotprod_of in
    let* dec := eval (ev_choice dotprod) in
    assign (set_ev_dec_ dec) >>
    let* pf := eval (ev_value dotprod) in
    assign (set_ev_pf_ pf) >>
    let* dec_ := eval (fun d => attr "ev_dec_" (ev_dec_ d)) in
    let* pf_ := eval (fun d => attr "mle_pf_" (mle_pf_ d)) in
    _build_dict criterion dec_ pf_
  else
    eval (fun _ => Raise (unknown_criterion criterion)).

(** [for criterion in cs: ...] *)
Fixpoint for_each (cs : list string) : method unit :=
  match cs with
  | [] => act_ret tt
  | c :: cs' => fit_criterion c >> for_each cs'
  end.

(** [fit]: the loop runs over [self.crit]. *)
Definition fit : method unit := fun d => for_each (crit d) d.

(** [__init__] once [_read_payoff] has split the table. *)
Definition init (alts states : list label) (prob : list Q)
    (payoff : Np.matrix) (criteria : list string) : t :=
  mk criteria alts states prob payoff None ∅
     None None None None None None None None None None None.

Definition default_criteria : list string :=
  ["maxmax"; "maxmin"; "regret"; "maxlik"; "ev"].

(** [_read_payoff] on an [ndarray]: the last row is the probabilities, the
    labels are the indices. *)
Definition range (n : nat) : list label :=
  map (fun i => LInt (Z.of_nat i)) (seq 0 n).

Definition init_ndarray (a : Np.matrix) (criteria : list string) : result t :=
  match last a with
  | None => Raise IndexError
  | Some p =>
      let pay := removelast a in
      Ok (init (range (length pay)) (range (length p)) p pay criteria)
  end.

(** *** What [fit] leaves behind *)

(** The fields that [fit] reads and never writes. *)
Definition same_table (d d' : t) : Prop :=
  crit d' = crit d /\ alts d' = alts d /\ states d' = states d
  /\ prob d' = prob d /\ payoff d' = payoff d.

(** The criteria that [fit] knows. *)
Definition supported (c : string) : bool :=
  existsb (String.eqb c) default_criteria.

(** [entry d c dec pf]: on the instance [d], a completed turn for the
    criterion [c] stores [(dec, pf)] under [c]. *)
Inductive entry (d : t) : string -> label -> Q -> Prop :=
| entry_maxmax dec pf :
    maxmax_choice d = Ok dec -> maxmax_value d = Ok pf ->
    entry d "maxmax" dec pf
| entry_maxmin dec pf :
    maxmin_choice d = Ok dec -> maxmin_value d = Ok pf ->
    entry d "maxmin" dec pf
| entry_regret reg dec pf :
    regret_matrix d = Ok reg ->
    regret_choice (set_regret_ reg d) = Ok dec ->
    regret_value (set_regret_ reg d) = Ok pf ->
    entry d "regret" dec pf
| entry_maxlik dec pf :
    maxlik_choice d = Ok dec -> maxlik_value d = Ok pf ->
    entry d "maxlik" dec pf
| entry_ev dotprod dec pf :
    dotprod_of d = Ok dotprod -> ev_choice dotprod d = Ok dec ->
    is_ok (ev_value dotprod d) = true -> mle_pf_ d = Some pf ->
    entry d "ev" dec pf.

(** The shape that [_read_payoff] delivers: one label per row, one
    probability per column, and at least one row. *)
Definition well_formed (d : t) : Prop :=
  payoff d <> []
  /\ length (alts d) = length (payoff d)
  /\ Forall (fun row => length row = length (prob d)) (payoff d).

(** What the entries under "maxmin" and "maxmax" are, when present. *)
Definition extremes_recorded (d0 d : t) : Prop :=
  same_table d0 d
  /\ (forall l v, results_ d !! "maxmin" = Some (l, v) -> maxmin_value d0 = Ok v)
  /\ (forall l v, results_ d !! "maxmax" = Some (l, v) -> maxmax_value d0 = Ok v).

End Decision.

(** The table of the test-suite. *)
Module Fixture.
Import Decision.
Local Open Scope Q_scope.

Definition payoff : Np.matrix :=
  [ [125; 175; 225];
    [200; 300; 400];
    [225; 375; 525];
    [200; 400; 600];
    [125; 375; 625] ].

Definition prob : list Q := [35 # 100; 25 # 100; 4 # 10].

Definition alts : list label :=
  [LStr "$5"; LStr "$6"; LStr "$7"; LStr "$8"; LStr "$9"].

Definition states : list label :=
  [LStr "Domino $6"; LStr "Domino $7"; LStr "Domino $8"].

Definition table (criteria : list string) : Decision.t :=
  init alts states prob payoff criteria.

Definition ndarray : Np.matrix := app payoff [prob].

End Fixture.

(* ===================================================================== *)
(** ** [EnggEcon.py]: equivalence factors, worth and rate of return *)
(* ===================================================================== *)

Module EnggEcon.

Local Open Scope Q_scope.

(** The cash-flow convention, ['end'] or ['mid']. *)
Inductive convention : Type := ConvEnd | ConvMid.

(** The instance keeps [conv] and [fract]; [fract] is 1.0 or 100.0 as
    [fractional] was true or not, and is kept here as that flag. *)
Record equivalence : Type := {
  conv : convention;
  fractional : bool
}.

Definition fract (e : equivalence) : Q := if fractional e then 1 else 100.

Definition equivalence_init (convention_ : convention) (fractional_ : bool)
  : equivalence :=
  {| conv := convention_; fractional := fractional_ |}.

(** [b ** z] for an integer exponent: a zero base cannot be raised to a
    negative power.  The power is the unrounded one; a double rounds it,
    lets it underflow to 0.0, and [**] raises [OverflowError] beyond the
    range.  It is exact for the bases 0 and 1, where the factors are
    evaluated below, and on the dyadic values of the examples. *)
Definition pow_int (b : Q) (z : Z) : result Q :=
  if Qeq_bool b 0 && (z <? 0)%Z then Raise ZeroDivisionError
  else Ok (Qpower b z).

(** [sum(l)] *)
Definition py_sum (l : list Q) : Q := fold_left Qplus l 0.

(** [enumerate(l)] *)
Fixpoint enumerate_from {A} (i : Z) (l : list A) : list (Z * A) :=
  match l with
  | [] => []
  | x :: t => (i, x) :: enumerate_from (i + 1) t
  end.

Definition enumerate {A} (l : list A) : list (Z * A) := enumerate_from 0 l.

(** What [irr] prints. *)
Inductive line : Type :=
| FailedToConverge (itr : Z)
| Iteration (itr : Z) (r : Q)
| Converged (itr : Z).

(** What [irr] hands back: a rate, or a text. *)
Inductive value : Type :=
| VFloat (x : Q)
| VStr (s : string).

(** [s + v] for a string [s]: only a string can be appended. *)
Definition str_add (s : string) (v : value) : result value :=
  match v with
  | VStr s' => Ok (VStr (s ++ s')%string)
  | VFloat _ => Raise TypeError
  end.

Section Comparator.

(** The power [x ** y] of two doubles when [y] is not an integer.  It comes
    from the C library, and serves the mid-period convention only. *)
Variable float_pow : Q -> Q -> result Q.

(** [(1.0 + i/self.fract) ** -n], and [** -(n - 0.5)] at mid-period. *)
Definition PgivenF (eq : equivalence) (i : Q) (n : Z) : result Q :=
  match conv eq with
  | ConvEnd => pow_int (1 + i / fract eq) (- n)
  | ConvMid => float_pow (1 + i / fract eq) (- (inject_Z n - (1 # 2)))
  end.

Record compareAlt : Type := {
  cf : list Q;
  eq : equivalence
}.

Definition compareAlt_init (cash_flow : list Q) (convention_ : convention)
    (fractional_ : bool) : compareAlt :=
  {| cf := cash_flow; eq := equivalence_init convention_ fractional_ |}.

(** [npv]: the running total over [enumerate(self.cf)]. *)
Fixpoint npv_loop (e : equivalence) (interest : Q) (pv : Q)
    (flows : list (Z * Q)) : result Q :=
  match flows with
  | [] => Ok pv
  | (period, flow) :: t =>
      f ← PgivenF e interest period;
      npv_loop e interest (pv + flow * f) t
  end.

Definition npv (self : compareAlt) (interest : Q) : result Q :=
  npv_loop (eq self) interest 0 (enumerate (cf self)).

Definition _ppv (self : compareAlt) (cf_ : list Q) (interest : Q)
  : result (list Q) :=
  rmap (fun '(period, flow) =>
          f ← PgivenF (eq self) interest period; Ok (flow * f))
       (enumerate cf_).

Definition _spv (ppv : list Q) : Q := py_sum ppv.

(** [_dnpv]: in [enumerate(ppv)] the source names the index [x] and the
    term [period]. *)
Definition _dnpv (ppv : list Q) (interest : Q) : result Q :=
  if Qeq_bool (interest + 1) 0 then Raise ZeroDivisionError
  else Ok ((-1) / (interest + 1)
           * py_sum (map (fun '(x, period) => period * inject_Z x) (enumerate ppv))).

Definition Qgtb := Np.Qgtb.

(** The starting rate of [irr]. *)
Definition first_rate (self : compareAlt) (guess : option Q) : result Q :=
  match guess with
  | None =>
      match cf self with
      | [] => Raise IndexError
      | c0 :: rest =>
          if Qeq_bool (py_sum rest) 0 then Raise ZeroDivisionError
          else Ok (Qabs c0 / py_sum rest * fract (eq self))
      end
  | Some g => Ok g
  end.

(** The [while] loop of [irr].  [fuel] bounds the number of turns of the
    model; [None] means that it ran out.  [out] is what was printed so far. *)
Fixpoint irr_loop (self : compareAlt) (max_iter threshold : Q)
    (verbose itr_to_conv : bool) (fuel : nat)
    (itr : Z) (r npv_ : Q) (out : list line)
  : option (list line * result value) :=
  if Qgtb (Qabs npv_) threshold then
    let itr := (itr + 1)%Z in
    if Qgtb (inject_Z itr) max_iter then
      let out := if verbose then app out [FailedToConverge itr] else out in
      Some (out, str_add "Failed to converge.Last irr = " (VFloat r))
    else
      match fuel with
      | O => None
      | S fuel' =>
          match _ppv self (cf self) r with
          | Raise e => Some (out, Raise e)
          | Ok ppv =>
              match _dnpv ppv (r / fract (eq self)) with
              | Raise e => Some (out, Raise e)
              | Ok dnpv =>
                  let npv_ := py_sum ppv in
                  if Qeq_bool dnpv 0 then Some (out, Raise ZeroDivisionError)
                  else
                    let r := r - npv_ / dnpv in
                    let out := if verbose then app out [Iteration itr r]
                               else out in
                    irr_loop self max_iter threshold verbose itr_to_conv
                             fuel' itr r npv_ out
              end
          end
      end
  else
    let out := if verbose || itr_to_conv then app out [Converged itr]
               else out in
    Some (out, Ok (VFloat r)).

(** Turns that the cap lets through: those with [itr <= max_iter]. *)
Definition turns (max_iter : Q) : nat := Z.to_nat (Qfloor max_iter).

Definition irr (self : compareAlt) (guess : option Q) (max_iter threshold : Q)
    (verbose itr_to_conv : bool) : option (list line * result value) :=
  match first_rate self guess with
  | Raise e => Some ([], Raise e)
  | Ok r =>
      match _ppv self (cf self) r with
      | Raise e => Some ([], Raise e)
      | Ok ppv =>
          irr_loop self max_iter threshold verbose itr_to_conv
                   (turns max_iter) 0 r (py_sum ppv) []
      end
  end.

(** *** [BCRatio] *)

(** [if x:] for an optional number: [None] and zero are false. *)
Definition truthy (x : option Q) : bool :=
  match x with
  | Some q => negb (Qeq_bool q 0)
  | None => false
  end.

Definition rate_warning : string :=
  "Rate and ben_rate or cost_rate may not be provided at the same time."
  ++ "                Either provide a single rate or provide both ben_rate and cost_rate."
  ++ "                    Rate is used as ben_rate and cost_rate".

Definition missing_rate : exn :=
  ValueError "ben_rate and cost_rate must be specified. Missing argument".

Record BCRatio : Type := {
  benefit : list Q;
  cost : list Q;
  ben_rate : option Q;
  cost_rate : option Q;
  _benefits : compareAlt;
  _costs : compareAlt
}.

(** The rates that [__init__] stores, with the warnings it has issued. *)
Definition resolve_rates (rate ben_rate_ cost_rate_ : option Q)
  : list string * (option Q * option Q) :=
  if (truthy rate && truthy ben_rate_) || (truthy rate && truthy cost_rate_)
  then ([rate_warning], (rate, rate))
  else if truthy rate then ([], (rate, rate))
  else ([], (ben_rate_, cost_rate_)).

(** [BCRatio.__init__]: the warnings issued, and the instance or the
    exception. *)
Definition BCRatio_init (benefit_ cost_ : list Q)
    (rate ben_rate_ cost_rate_ : option Q)
    (convention_ : convention) (fractional_ : bool)
  : list string * result BCRatio :=
  let '(warned, (br, cr)) := resolve_rates rate ben_rate_ cost_rate_ in
  if (truthy ben_rate_ && negb (truthy cost_rate_))
     || (truthy cost_rate_ && negb (truthy ben_rate_))
  then (warned, Raise missing_rate)
  else (warned,
        Ok {| benefit := benefit_; cost := cost_;
              ben_rate := br; cost_rate := cr;
              _benefits := compareAlt_init benefit_ convention_ fractional_;
              _costs := compareAlt_init cost_ convention_ fractional_ |}).

(** [npv] called with a rate that may be [None]: the first factor then
    fails on [None / fract]. *)
Definition npv_at (self : compareAlt) (interest : option Q) : result Q :=
  match interest with
  | Some i => npv self i
  | None => match cf self with [] => Ok 0 | _ :: _ => Raise TypeError end
  end.

Definition bcr (self : BCRatio) : result Q :=
  b ← npv_at (_benefits self) (ben_rate self);
  c ← npv_at (_costs self) (cost_rate self);
  if Qeq_bool c 0 then Raise ZeroDivisionError else Ok (b / c).

(** *** The other factors of [equivalence], and the worths built on them *)

(** The period count that a factor works with: [n] itself at the end of
    period, and [n - 0.5], a double, at mid-period. *)
Inductive periods : Type :=
| Whole (n : Z)
| Half (n : Z).

Definition periods_of (e : equivalence) (n : Z) : periods :=
  match conv e with
  | ConvEnd => Whole n
  | ConvMid => Half n
  end.

Definition count (p : periods) : Q :=
  match p with
  | Whole n => inject_Z n
  | Half n => inject_Z n - (1 # 2)
  end.

(** [b ** n] for such a count. *)
Definition pow (b : Q) (p : periods) : result Q :=
  match p with
  | Whole n => pow_int b n
  | Half n => float_pow b (inject_Z n - (1 # 2))
  end.

(** [x / y] on doubles. *)
Definition div (x y : Q) : result Q :=
  if Qeq_bool y 0 then Raise ZeroDivisionError else Ok (x / y).

(** [1/self.PgivenF(i,n)] *)
Definition FgivenP (e : equivalence) (i : Q) (n : Z) : result Q :=
  p ← PgivenF e i n; div 1 p.

(** [(i/self.fract)/((1.0+i/self.fract)**n-1)] *)
Definition AgivenF (e : equivalence) (i : Q) (n : Z) : result Q :=
  x ← pow (1 + i / fract e) (periods_of e n);
  div (i / fract e) (x - 1).

(** [1/self.AgivenF(i,n)] *)
Definition FgivenA (e : equivalence) (i : Q) (n : Z) : result Q :=
  a ← AgivenF e i n; div 1 a.

(** [((1.0+i/self.fract)**n)*self.AgivenF(i,n)]: the first power has the
    exponent [n] in both conventions. *)
Definition AgivenP (e : equivalence) (i : Q) (n : Z) : result Q :=
  x ← pow_int (1 + i / fract e) n;
  a ← AgivenF e i n;
  Ok (x * a).

(** [1/self.AgivenP(i,n)] *)
Definition PgivenA (e : equivalence) (i : Q) (n : Z) : result Q :=
  a ← AgivenP e i n; div 1 a.

(** [(((1.0+i)**n-1)/(i**2*(1.0+i)**n)) - (n/(i*(1.0+i)**n))], after
    [i = i/self.fract] *)
Definition PgivenG (e : equivalence) (i : Q) (n : Z) : result Q :=
  let i := i / fract e in
  let p := periods_of e n in
  x1 ← pow (1 + i) p;
  i2 ← pow_int i 2;
  x2 ← pow (1 + i) p;
  t1 ← div (x1 - 1) (i2 * x2);
  x3 ← pow (1 + i) p;
  t2 ← div (count p) (i * x3);
  Ok (t1 - t2).

(** [1.0/i - n/((1.0+i)**n - 1)], after [i = i/self.fract] *)
Definition AgivenG (e : equivalence) (i : Q) (n : Z) : result Q :=
  let i := i / fract e in
  let p := periods_of e n in
  t1 ← div 1 i;
  x ← pow (1 + i) p;
  t2 ← div (count p) (x - 1);
  Ok (t1 - t2).

(** [((1.0+i/self.fract)**n)*self.PgivenG(i,n)] *)
Definition FgivenG (e : equivalence) (i : Q) (n : Z) : result Q :=
  x ← pow_int (1 + i / fract e) n;
  g ← PgivenG e i n;
  Ok (x * g).



End Comparator.

(** Defaults of [irr]. *)
Definition default_max_iter : Q := 10000000.
Definition default_threshold : Q := 1 # 100000.

(** One Newton step of [irr]: from the rate [r0], whose discounted terms sum
    to [pw], to the rate [r1]. *)
Definition newton_step (float_pow : Q -> Q -> result Q) (self : compareAlt)
    (r0 pw r1 : Q) : Prop :=
  exists ppv dnpv,
    _ppv float_pow self (cf self) r0 = Ok ppv
    /\ _dnpv ppv (r0 / fract (eq self)) = Ok dnpv
    /\ Qeq_bool dnpv 0 = false
    /\ pw = py_sum ppv
    /\ r1 = r0 - pw / dnpv.


(** The examples use the end-of-period convention, which never takes a
    power with a fractional exponent; they pass this for [float_pow]. *)
Definition no_float_pow : Q -> Q -> result Q := fun _ _ => Raise TypeError.

End EnggEcon.

(* ===================================================================== *)
(** ** [utils.py]: common-period cash flows *)
(* ===================================================================== *)

Module Utils.

(** *** [effect] *)

(** [effect(r, m, fractional)]: [((1+r/(fract*m))**m - 1)*fract], for a
    whole number [m] of compounding periods, in unrounded arithmetic: on
    doubles [effect(0.2, 1)] is 0.19999999999999996.  Its division by zero
    and its value at a rate of zero are the ones of the code. *)
Definition effect (r : Q) (m : Z) (fractional : bool) : result Q :=
  let fract : Q := (if fractional then 1 else 100)%Q in
  if Qeq_bool (fract * inject_Z m) 0 then Raise ZeroDivisionError
  else
    x ← EnggEcon.pow_int (1 + r / (fract * inject_Z m))%Q m;
    Ok ((x - 1) * fract)%Q.

(** *** [cfCommon] *)

(** Python lists and dicts are objects: a variable or a dict slot holds a
    reference, and two references may name one object.  The heap maps
    references to objects; a dict keeps its items in insertion order. *)
Abbreviation loc := positive (only parsing).

Inductive obj : Type :=
| OList (v : list Q)
| ODict (items : list (string * loc)).

Abbreviation heap := (gmap positive obj) (only parsing).

Definition load (l : loc) : action heap (list Q) :=
  pure_ (fun h => match h !! l with
                  | Some (OList v) => Ok v
                  | _ => Raise TypeError
                  end).

Definition items_of (d : loc) : action heap (list (string * loc)) :=
  pure_ (fun h => match h !! d with
                  | Some (ODict items) => Ok items
                  | _ => Raise TypeError
                  end).

Fixpoint assoc (k : string) (items : list (string * loc)) : option loc :=
  match items with
  | [] => None
  | (k', l) :: t => if String.eqb k k' then Some l else assoc k t
  end.

(** [d[k]]: the reference held under [k]. *)
Definition subscript (d : loc) (k : string) : action heap loc :=
  let* items := items_of d in
  pure_ (fun _ => match assoc k items with
                  | Some l => Ok l
                  | None => Raise (KeyError k)
                  end).

(** [d[k] = l] for a key that may be new: an existing key keeps its place. *)
Fixpoint set_assoc (k : string) (l : loc) (items : list (string * loc))
  : list (string * loc) :=
  match items with
  | [] => [(k, l)]
  | (k', l') :: t =>
      if String.eqb k k' then (k', l) :: t else (k', l') :: set_assoc k l t
  end.

Definition setitem (d : loc) (k : string) (l : loc) : action heap unit :=
  let* items := items_of d in
  fun h => (<[d := ODict (set_assoc k l items)]> h, Ok tt).

(** [v[0]], [v[-1]], [v[1:]] *)
Definition first (v : list Q) : result Q :=
  match v with
  | [] => Raise IndexError
  | x :: _ => Ok x
  end.

Definition final (v : list Q) : result Q :=
  match last v with
  | Some x => Ok x
  | None => Raise IndexError
  end.

Definition rest (v : list Q) : list Q := tail v.

(** [obj[-1] = x]: in place, on the object. *)
Definition store_final (l : loc) (x : Q) : action heap unit :=
  let* v := load l in
  match v with
  | [] => pure_ (fun _ => Raise IndexError)
  | _ :: _ => fun h => (<[l := OList (app (removelast v) [x])]> h, Ok tt)
  end.

(** A list expression builds a new object. *)
Definition alloc (v : list Q) : action heap loc :=
  fun h => let l := fresh (dom h) in (<[l := OList v]> h, Ok l).

(** [v * k]: no copy for [k <= 0]. *)
Definition times (v : list Q) (k : Z) : list Q :=
  concat (replicate (Z.to_nat k) v).

(** [_horizon] *)
Fixpoint _horizon (items : list (string * loc)) : action heap (list Z) :=
  match items with
  | [] => act_ret []
  | (_, l) :: t =>
      let* v := load l in
      let* hs := _horizon t in
      act_ret ((Z.of_nat (length v) - 1)%Z :: hs)
  end.

(** [_lcm]: [//] by a zero [gcd] raises. *)
Fixpoint _lcm_from (lcm : Z) (arr : list Z) : result Z :=
  match arr with
  | [] => Ok lcm
  | num :: t =>
      if (Z.gcd lcm num =? 0)%Z then Raise ZeroDivisionError
      else _lcm_from (lcm * num / Z.gcd lcm num)%Z t
  end.

Definition _lcm (arr : list Z) : result Z := _lcm_from 1 arr.

(** [int(lcm / n[i] - 1)].  The quotient is a double in the source; here it
    is the exact integer, which the double equals whenever it is below 2^53
    (and [n[i]] always divides [lcm]). *)
Definition copies (lcm : Z) (n : list Z) (i : nat) : result Z :=
  match n !! i with
  | None => Raise IndexError
  | Some ni =>
      if (ni =? 0)%Z then Raise ZeroDivisionError
      else Ok (lcm / ni - 1)%Z
  end.

(** The three statements of the loop, for the key [k] at position [i]. *)
Definition fold_terminal (cash_flows : loc) (k : string) : action heap unit :=
  let* l0 := subscript cash_flows k in
  let* v0 := load l0 in
  let* a := pure_ (fun _ => first v0) in
  let* l1 := subscript cash_flows k in
  let* v1 := load l1 in
  let* b := pure_ (fun _ => final v1) in
  let* l := subscript cash_flows k in
  store_final l (a + b)%Q.

Definition broadcast (cash_flows : loc) (lcm : Z) (n : list Z) (i : nat)
    (k : string) : action heap unit :=
  let* l0 := subscript cash_flows k in
  let* v0 := load l0 in
  let* l1 := subscript cash_flows k in
  let* v1 := load l1 in
  let* c := pure_ (fun _ => copies lcm n i) in
  let* l := alloc (app v0 (times (rest v1) c)) in
  setitem cash_flows k l.

Definition restore_terminal (cash_flows : loc) (k : string)
  : action heap unit :=
  let* l0 := subscript cash_flows k in
  let* v0 := load l0 in
  let* a := pure_ (fun _ => final v0) in
  let* l1 := subscript cash_flows k in
  let* v1 := load l1 in
  let* b := pure_ (fun _ => first v1) in
  let* l := subscript cash_flows k in
  store_final l (a - b)%Q.

Definition body (cash_flows : loc) (lcm : Z) (n : list Z) (i : nat)
    (k : string) : action heap unit :=
  fold_terminal cash_flows k >>
  broadcast cash_flows lcm n i k >>
  restore_terminal cash_flows k.

(** [for i, k in enumerate(cash_flows): ...] *)
Fixpoint loop (cash_flows : loc) (lcm : Z) (n : list Z) (i : nat)
    (keys : list string) : action heap unit :=
  match keys with
  | [] => act_ret tt
  | k :: t => body cash_flows lcm n i k >> loop cash_flows lcm n (S i) t
  end.

(** [cfCommon(cash_flows)]: the argument and the value returned are
    references. *)
Definition cfCommon (cash_flows : loc) : action heap loc :=
  let* items := items_of cash_flows in
  let* n := _horizon items in
  let* lcm := pure_ (fun _ => _lcm n) in
  loop cash_flows lcm n 0 (map fst items) >>
  act_ret cash_flows.

(** *** The mapping as a value *)

(** The mapping that a reference to a dict stands for: its keys, in order,
    with the contents of their lists. *)
Definition series_at (h : heap) (l : loc) : option (list Q) :=
  match h !! l with
  | Some (OList v) => Some v
  | _ => None
  end.

Definition items_at (h : heap) (d : loc) : option (list (string * loc)) :=
  match h !! d with
  | Some (ODict items) => Some items
  | _ => None
  end.

Definition view (h : heap) (d : loc) : option (list (string * list Q)) :=
  items ← items_at h d;
  mapM (fun '(k, l) => v ← series_at h l; Some (k, v)) items.

(** The horizon of a series is its length less one; the common horizon is
    the least common multiple of the horizons. *)
Definition horizons (m : list (string * list Q)) : list Z :=
  map (fun kv => (Z.of_nat (length kv.2) - 1)%Z) m.

Definition LCM (hs : list Z) : Z := fold_left Z.lcm hs 1%Z.

(** A list after [v[-1] = v[0] + v[-1]]. *)
Definition fold_last (v : list Q) : list Q :=
  match v, last v with
  | a :: _, Some b => app (removelast v) [(a + b)%Q]
  | _, _ => v
  end.

(** A list after [w[-1] = w[-1] - w[0]]. *)
Definition restore_last (w : list Q) : list Q :=
  match w, last w with
  | a :: _, Some b => app (removelast w) [(b - a)%Q]
  | _, _ => w
  end.

(** The series that a turn of the loop builds from the series [v] of its
    key, read as a value: the last entry folded, the tail repeated
    [int(lcm/n - 1)] times for the horizon [n] of [v], the last entry
    restored. *)
Definition widen (lcm : Z) (v : list Q) : list Q :=
  let v1 := fold_last v in
  restore_last
    (app v1 (times (rest v1) (lcm / (Z.of_nat (length v) - 1) - 1))).

(** What the loop of [cfCommon], started at position [i] on the heap [h]
    with the dict [cash_flows] holding [items], leaves in the heap [h']:
    the dict object holds the same keys; from position [i] on, each key is
    bound to a list that did not exist in [h] and spans the common horizon
    [lcm]; every list of [h] is still there with its length; a list that
    the remaining keys [todo] do not name is untouched, and one that they
    name (once) has its last element folded. *)
Definition loop_post (cash_flows : loc) (lcm : Z) (i : nat)
    (items todo : list (string * loc)) (h h' : heap) : Prop :=
  exists items',
    h' !! cash_flows = Some (ODict items')
    /\ map fst items' = map fst items
    /\ take i items' = take i items
    /\ (forall j k l', (i <= j)%nat -> items' !! j = Some (k, l') ->
        (l' ∉ dom h)
        /\ exists w, h' !! l' = Some (OList w)
                     /\ Z.of_nat (length w) = (lcm + 1)%Z)
    /\ dom h ⊆ dom h'
    /\ (forall p v, h !! p = Some (OList v) ->
        exists v', h' !! p = Some (OList v') /\ length v' = length v)
    /\ (forall p, p <> cash_flows -> (p ∉ map snd todo) -> p ∈ dom h ->
        h' !! p = h !! p)
    /\ (NoDup (map snd todo) ->
        forall l v, l ∈ map snd todo -> h !! l = Some (OList v) ->
                    h' !! l = Some (OList (fold_last v))).

(** The mapping of the docstring of [cfCommon]: the dict at reference 1,
    its two lists at the references 2 and 3. *)
Definition example_heap : heap :=
  {[ 1%positive := ODict [("cf1", 2%positive); ("cf2", 3%positive)];
     2%positive := OList [-1000; 300; 400; 500]%Q;
     3%positive := OList [-2000; 300; 400; 500; 600]%Q ]}.

End Utils.

(* ===================================================================== *)
(** * Properties *)
(* ===================================================================== *)

(* ===================================================================== *)
(** ** Facts on the reductions *)
(* ===================================================================== *)

Lemma rmap_Forall2 {A B} (f : A -> result B) l ys :
  rmap f l = Ok ys -> Forall2 (fun x y => f x = Ok y) l ys.
Proof.
  revert ys. induction l as [|x l IH]; intros ys; cbn.
  - intros [= <-]. constructor.
  - destruct (f x) as [y|e] eqn:Ex; [|discriminate]. cbn.
    destruct (rmap f l) as [ys'|e]; [|discriminate]. cbn.
    intros [= <-]. constructor; auto.
Qed.

Lemma rmap_length {A B} (f : A -> result B) l ys :
  rmap f l = Ok ys -> length ys = length l.
Proof.
  intros H. apply rmap_Forall2 in H. symmetry. by eapply Forall2_length.
Qed.

Lemma rmap_total {A B} (f : A -> result B) l :
  Forall (fun x => is_ok (f x) = true) l -> exists ys, rmap f l = Ok ys.
Proof.
  induction 1 as [|x l Hx _ [ys IH]]; cbn; [eauto|].
  destruct (f x); [|discriminate]. rewrite IH. cbn. eauto.
Qed.

Module NpFacts.
Import Np.
Local Open Scope Q_scope.

Lemma Qgtb_true x y : Qgtb x y = true <-> y < x.
Proof.
  unfold Qgtb. rewrite negb_true_iff, <- not_true_iff_false, Qle_bool_iff.
  split; [apply Qnot_le_lt | apply Qlt_not_le].
Qed.

Lemma Qgtb_false x y : Qgtb x y = false <-> x <= y.
Proof. unfold Qgtb. by rewrite negb_false_iff, Qle_bool_iff. Qed.

Lemma max_from_ge_init best l : best <= max_from best l.
Proof.
  revert best. induction l as [|x l IH]; intros best; cbn; [apply Qle_refl|].
  destruct (Qgtb x best) eqn:E; [|apply IH].
  apply Qgtb_true in E. eapply Qle_trans; [by apply Qlt_le_weak | apply IH].
Qed.

Lemma max_from_ge_elem best l x : In x l -> x <= max_from best l.
Proof.
  revert best. induction l as [|y l IH]; intros best; [intros []|].
  intros [->|Hx]; cbn; [|by apply IH].
  destruct (Qgtb x best) eqn:E; [apply max_from_ge_init|].
  apply Qgtb_false in E. eapply Qle_trans; [done | apply max_from_ge_init].
Qed.

Lemma max_from_in best l : In (max_from best l) (best :: l).
Proof.
  revert best. induction l as [|y l IH]; intros best; cbn; [by left|].
  destruct (IH (if Qgtb y best then y else best)) as [H|H]; [|by auto].
  rewrite <- H. destruct (Qgtb y best); auto.
Qed.

Lemma min_from_le_init best l : min_from best l <= best.
Proof.
  revert best. induction l as [|x l IH]; intros best; cbn; [apply Qle_refl|].
  destruct (Qgtb best x) eqn:E; [|apply IH].
  apply Qgtb_true in E. eapply Qle_trans; [apply IH | by apply Qlt_le_weak].
Qed.

Lemma min_from_le_elem best l x : In x l -> min_from best l <= x.
Proof.
  revert best. induction l as [|y l IH]; intros best; [intros []|].
  intros [->|Hx]; cbn; [|by apply IH].
  destruct (Qgtb best x) eqn:E; [apply min_from_le_init|].
  apply Qgtb_false in E. eapply Qle_trans; [apply min_from_le_init | done].
Qed.

Lemma min_from_in best l : In (min_from best l) (best :: l).
Proof.
  revert best. induction l as [|y l IH]; intros best; cbn; [by left|].
  destruct (IH (if Qgtb best y then y else best)) as [H|H]; [|by auto].
  rewrite <- H. destruct (Qgtb best y); auto.
Qed.

(** [max] is an element of the array and bounds every element. *)
Lemma max_spec l m :
  max l = Ok m -> In m l /\ forall x, In x l -> x <= m.
Proof.
  destruct l as [|x0 l]; [discriminate|]. intros [= <-]. split.
  - apply max_from_in.
  - intros x [<-|Hx]; [apply max_from_ge_init | by apply max_from_ge_elem].
Qed.

Lemma min_spec l m :
  min l = Ok m -> In m l /\ forall x, In x l -> m <= x.
Proof.
  destruct l as [|x0 l]; [discriminate|]. intros [= <-]. split.
  - apply min_from_in.
  - intros x [<-|Hx]; [apply min_from_le_init | by apply min_from_le_elem].
Qed.

(** In one row the least entry is below the greatest. *)
Lemma min_le_max row a b : min row = Ok a -> max row = Ok b -> a <= b.
Proof.
  intros Ha Hb. apply min_spec in Ha as [Ha _].
  apply max_spec in Hb as [_ Hb]. by apply Hb.
Qed.

(** Row by row, [m.min(axis=1)] is below [m.max(axis=1)]. *)
Lemma min_axis1_le_max_axis1 m mins maxs :
  min_axis1 m = Ok mins -> max_axis1 m = Ok maxs -> Forall2 Qle mins maxs.
Proof.
  unfold min_axis1, max_axis1. revert mins maxs.
  induction m as [|row m IH]; intros mins maxs; cbn.
  - intros [= <-] [= <-]. constructor.
  - destruct (min row) as [a|] eqn:Ea; [|discriminate]. cbn.
    destruct (rmap min m) as [mins'|]; [|discriminate]. cbn. intros [= <-].
    destruct (max row) as [b|] eqn:Eb; [|discriminate]. cbn.
    destruct (rmap max m) as [maxs'|]; [|discriminate]. cbn. intros [= <-].
    constructor; [by eapply min_le_max | by apply IH].
Qed.

(** The greatest of a pointwise smaller array is smaller. *)
Lemma max_mono xs ys a b :
  Forall2 Qle xs ys -> max xs = Ok a -> max ys = Ok b -> a <= b.
Proof.
  intros H Ha Hb. apply max_spec in Ha as [Ha _].
  apply max_spec in Hb as [_ Hb].
  apply list_elem_of_In in Ha.
  apply list_elem_of_lookup in Ha as [i Hi].
  destruct (Forall2_lookup_l _ _ _ _ _ H Hi) as (y & Hy & Hle).
  apply (Qle_trans _ y); [exact Hle|]. apply Hb.
  apply list_elem_of_In, list_elem_of_lookup. eauto.
Qed.

(** [argmax] is an index of the array. *)
Lemma argmax_from_lt i bi best l :
  (bi < i)%nat -> (argmax_from i bi best l < i + length l)%nat.
Proof.
  revert i bi best. induction l as [|x l IH]; intros i bi best Hbi; cbn.
  - lia.
  - destruct (Qgtb x best).
    + specialize (IH (S i) i x). lia.
    + specialize (IH (S i) bi best). lia.
Qed.

Lemma argmax_lt l i : argmax l = Ok i -> (i < length l)%nat.
Proof.
  destruct l as [|x l]; [discriminate|]. intros [= <-].
  pose proof (argmax_from_lt 1 0 x l). cbn. lia.
Qed.

Lemma argmax_total l : l <> [] -> exists i, argmax l = Ok i.
Proof. destruct l; [done|]. cbn. eauto. Qed.

End NpFacts.

Module DecisionFacts.
Import Decision.

Lemma supported_cases c :
  supported c = true ->
  c = "maxmax" \/ c = "maxmin" \/ c = "regret" \/ c = "maxlik" \/ c = "ev".
Proof.
  unfold supported, default_criteria. cbn [existsb].
  rewrite !orb_true_iff, !String.eqb_eq. intuition discriminate.
Qed.

Lemma same_table_refl d : same_table d d.
Proof. repeat split. Qed.

Lemma same_table_trans d1 d2 d3 :
  same_table d1 d2 -> same_table d2 d3 -> same_table d1 d3.
Proof. unfold same_table. intuition congruence. Qed.

(** One turn on an unknown name: nothing is touched. *)
Lemma fit_unknown c d :
  supported c = false ->
  fit_criterion c d = (d, Raise (unknown_criterion c)).
Proof.
  unfold supported, default_criteria. cbn [existsb]. intros H.
  repeat (apply orb_false_elim in H; destruct H as [? H]).
  unfold fit_criterion.
  repeat match goal with E : String.eqb c _ = false |- _ => rewrite E; clear E end.
  reflexivity.
Qed.

Ltac unfold_turn :=
  unfold fit_criterion; cbn [String.eqb Ascii.eqb Bool.eqb];
  unfold act_bind, eval, pure_, assign, _build_dict.

(** The turn of each criterion, statement by statement. *)
Lemma fit_maxmax d :
  fit_criterion "maxmax" d =
  match maxmax_choice d with
  | Raise e => (d, Raise e)
  | Ok dec =>
      match maxmax_value d with
      | Raise e => (set_maxmax_dec_ dec d, Raise e)
      | Ok pf =>
          (set_results_ (<["maxmax" := (dec, pf)]> (results_ d))
             (set_maxmax_pf_ pf (set_maxmax_dec_ dec d)), Ok tt)
      end
  end.
Proof.
  unfold_turn. destruct d. destruct (maxmax_choice _) as [dec|e]; [|reflexivity].
  unfold maxmax_value; cbn [set_maxmax_dec_ payoff].
  destruct (_ ≫= _) as [pf|e]; reflexivity.
Qed.

Lemma fit_maxmin d :
  fit_criterion "maxmin" d =
  match maxmin_choice d with
  | Raise e => (d, Raise e)
  | Ok dec =>
      match maxmin_value d with
      | Raise e => (set_maxmin_dec_ dec d, Raise e)
      | Ok pf =>
          (set_results_ (<["maxmin" := (dec, pf)]> (results_ d))
             (set_maxmin_pf_ pf (set_maxmin_dec_ dec d)), Ok tt)
      end
  end.
Proof.
  unfold_turn. destruct d. destruct (maxmin_choice _) as [dec|e]; [|reflexivity].
  unfold maxmin_value; cbn [set_maxmin_dec_ payoff].
  destruct (_ ≫= _) as [pf|e]; reflexivity.
Qed.

Lemma fit_regret d :
  fit_criterion "regret" d =
  match regret_matrix d with
  | Raise e => (d, Raise e)
  | Ok reg =>
      let d1 := set_regret_ reg d in
      match regret_choice d1 with
      | Raise e => (d1, Raise e)
      | Ok dec =>
          match regret_value d1 with
          | Raise e => (set_regret_dec_ dec d1, Raise e)
          | Ok pf =>
              (set_results_ (<["regret" := (dec, pf)]> (results_ d))
                 (set_regret_pf_ pf (set_regret_dec_ dec d1)), Ok tt)
          end
      end
  end.
Proof.
  unfold_turn. destruct d. destruct (regret_matrix _) as [reg|e]; [|reflexivity].
  cbn zeta. destruct (regret_choice _) as [dec|e]; [|reflexivity].
  unfold regret_value; cbn [set_regret_ set_regret_dec_ regret_ attr].
  destruct (_ ≫= _) as [pf|e]; reflexivity.
Qed.

Lemma fit_maxlik d :
  fit_criterion "maxlik" d =
  match maxlik_choice d with
  | Raise e => (d, Raise e)
  | Ok dec =>
      match maxlik_value d with
      | Raise e => (set_mle_dec_ dec d, Raise e)
      | Ok pf =>
          (set_results_ (<["maxlik" := (dec, pf)]> (results_ d))
             (set_mle_pf_ pf (set_mle_dec_ dec d)), Ok tt)
      end
  end.
Proof.
  unfold_turn. destruct d. destruct (maxlik_choice _) as [dec|e]; [|reflexivity].
  unfold maxlik_value, likely_column; cbn [set_mle_dec_ payoff prob].
  destruct (_ ≫= _) as [pf|e]; reflexivity.
Qed.

Lemma fit_ev d :
  fit_criterion "ev" d =
  match dotprod_of d with
  | Raise e => (d, Raise e)
  | Ok dotprod =>
      match ev_choice dotprod d with
      | Raise e => (d, Raise e)
      | Ok dec =>
          match ev_value dotprod d with
          | Raise e => (set_ev_dec_ dec d, Raise e)
          | Ok pf =>
              let d2 := set_ev_pf_ pf (set_ev_dec_ dec d) in
              match mle_pf_ d with
              | None => (d2, Raise (AttributeError "mle_pf_"))
              | Some pf_ =>
                  (set_results_ (<["ev" := (dec, pf_)]> (results_ d)) d2, Ok tt)
              end
          end
      end
  end.
Proof.
  unfold_turn. destruct d. destruct (dotprod_of _) as [dp|e]; [|reflexivity].
  destruct (ev_choice _ _) as [dec|e]; [|reflexivity].
  unfold ev_value. destruct (Np.max dp) as [pf|e]; [|reflexivity].
  cbn. destruct mle_pf_0; reflexivity.
Qed.

(** Every turn, whatever its outcome. *)
Ltac turn_frame d :=
  intros [= <- <-]; split; [|split];
  [ by destruct d
  | intros; destruct d; cbn in *; congruence
  | try by destruct d ].

Lemma turn_spec c d d' r :
  fit_criterion c d = (d', r) ->
  same_table d d'
  /\ (c <> "maxlik" -> mle_pf_ d' = mle_pf_ d)
  /\ match r with
     | Raise _ => results_ d' = results_ d
     | Ok _ => exists dec pf,
         entry d c dec pf /\ results_ d' = <[c := (dec, pf)]> (results_ d)
     end.
Proof.
  destruct (supported c) eqn:Hs.
  - apply supported_cases in Hs.
    destruct Hs as [-> | [-> | [-> | [-> | ->]]]].
    + rewrite fit_maxmax.
      destruct (maxmax_choice d) as [dec|e] eqn:E1;
        [destruct (maxmax_value d) as [pf|e] eqn:E2|]; turn_frame d.
      exists dec, pf. split; [by constructor | by destruct d].
    + rewrite fit_maxmin.
      destruct (maxmin_choice d) as [dec|e] eqn:E1;
        [destruct (maxmin_value d) as [pf|e] eqn:E2|]; turn_frame d.
      exists dec, pf. split; [by constructor | by destruct d].
    + rewrite fit_regret.
      destruct (regret_matrix d) as [reg|e] eqn:E0; cbn zeta;
        [destruct (regret_choice _) as [dec|e] eqn:E1;
           [destruct (regret_value _) as [pf|e] eqn:E2|]|]; turn_frame d.
      exists dec, pf. split; [by econstructor | by destruct d].
    + rewrite fit_maxlik.
      destruct (maxlik_choice d) as [dec|e] eqn:E1;
        [destruct (maxlik_value d) as [pf|e] eqn:E2|]; turn_frame d.
      exists dec, pf. split; [by constructor | by destruct d].
    + rewrite fit_ev.
      destruct (dotprod_of d) as [dp|e] eqn:E0;
        [destruct (ev_choice dp d) as [dec|e] eqn:E1;
           [destruct (ev_value dp d) as [pf|e] eqn:E2;
              [cbn zeta; destruct (mle_pf_ d) as [pf_|] eqn:E3|]|]|];
        turn_frame d.
      exists dec, pf_. split; [|by destruct d].
      econstructor; eauto. by rewrite E2.
  - rewrite fit_unknown by done. intros [= <- <-].
    repeat split.
Qed.

Lemma for_each_app cs1 cs2 d :
  for_each (cs1 ++ cs2) d =
  match for_each cs1 d with
  | (d1, Ok _) => for_each cs2 d1
  | (d1, Raise e) => (d1, Raise e)
  end.
Proof.
  revert d. induction cs1 as [|c cs1 IH]; intros d; [reflexivity|].
  cbn [app for_each]. unfold act_bind.
  destruct (fit_criterion c d) as [d1 [[]|e]]; [apply IH | reflexivity].
Qed.

(** The table is the same after any number of turns. *)
Lemma for_each_same_table cs d d' r :
  for_each cs d = (d', r) -> same_table d d'.
Proof.
  revert d. induction cs as [|c cs IH]; intros d.
  - intros [= <- <-]. apply same_table_refl.
  - cbn [for_each]. unfold act_bind.
    destruct (fit_criterion c d) as [d1 [[]|e]] eqn:E.
    + intros H. eapply same_table_trans; [|by apply IH].
      by apply turn_spec in E as [? _].
    + intros [= <- <-]. by apply turn_spec in E as [? _].
Qed.

(** Results are only ever added: a key that is present stays present. *)
Lemma turn_keeps_keys c d d' r k :
  fit_criterion c d = (d', r) ->
  is_Some (results_ d !! k) -> is_Some (results_ d' !! k).
Proof.
  intros E. apply turn_spec in E as (_ & _ & E). destruct r.
  - destruct E as (dec & pf & _ & ->). intros Hk.
    destruct (decide (c = k)) as [->|].
    + rewrite lookup_insert_eq. eauto.
    + by rewrite lookup_insert_ne.
  - by rewrite E.
Qed.

Lemma for_each_keeps_keys cs d d' r k :
  for_each cs d = (d', r) ->
  is_Some (results_ d !! k) -> is_Some (results_ d' !! k).
Proof.
  revert d. induction cs as [|c cs IH]; intros d.
  - by intros [= <- <-].
  - cbn [for_each]. unfold act_bind.
    destruct (fit_criterion c d) as [d1 [[]|e]] eqn:E.
    + intros H Hk. eapply IH; [done|]. by eapply turn_keeps_keys.
    + intros [= <- <-]. by eapply turn_keeps_keys.
Qed.

(** After completed turns every requested name has its entry. *)
Lemma for_each_stores cs d d' :
  for_each cs d = (d', Ok tt) ->
  forall c, In c cs -> is_Some (results_ d' !! c).
Proof.
  revert d. induction cs as [|c0 cs IH]; intros d H c Hc; [destruct Hc|].
  cbn [for_each] in H. unfold act_bind in H.
  destruct (fit_criterion c0 d) as [d1 [[]|e]] eqn:E; [|discriminate].
  destruct Hc as [<-|Hc]; [|by eapply IH].
  eapply for_each_keeps_keys; [done|].
  apply turn_spec in E as (_ & _ & dec & pf & _ & ->).
  rewrite lookup_insert_eq. eauto.
Qed.

End DecisionFacts.

Module DecisionClaims.
Import Decision DecisionFacts.

(** The values depend on the table only. *)
Lemma maxmax_value_table d d' :
  same_table d d' -> maxmax_value d' = maxmax_value d.
Proof. intros (_ & _ & _ & _ & E). unfold maxmax_value. by rewrite E. Qed.

Lemma maxmin_value_table d d' :
  same_table d d' -> maxmin_value d' = maxmin_value d.
Proof. intros (_ & _ & _ & _ & E). unfold maxmin_value. by rewrite E. Qed.

(** On one table the maxmin payoff is below the maxmax payoff. *)
Lemma maxmin_value_le_maxmax_value d a b :
  maxmin_value d = Ok a -> maxmax_value d = Ok b -> (a <= b)%Q.
Proof.
  unfold maxmin_value, maxmax_value.
  destruct (Np.min_axis1 (payoff d)) as [mins|] eqn:Emin; [|discriminate].
  destruct (Np.max_axis1 (payoff d)) as [maxs|] eqn:Emax; [|discriminate].
  cbn. intros Ha Hb.
  eapply NpFacts.max_mono; [|done..].
  by eapply NpFacts.min_axis1_le_max_axis1.
Qed.

Lemma turn_extremes d0 c d d' r :
  fit_criterion c d = (d', r) ->
  extremes_recorded d0 d -> extremes_recorded d0 d'.
Proof.
  intros E (Ht & Hmin & Hmax).
  apply turn_spec in E as (Ht' & _ & E).
  split; [by eapply same_table_trans|].
  destruct r as [[]|e]; [|by rewrite E].
  destruct E as (dec & pf & He & ->).
  split; intros l v.
  - destruct (decide (c = "maxmin")) as [->|Hne].
    + rewrite lookup_insert_eq. intros [= <- <-].
      inversion He; subst. by rewrite <- (maxmin_value_table d0 d).
    + rewrite lookup_insert_ne by done. apply Hmin.
  - destruct (decide (c = "maxmax")) as [->|Hne].
    + rewrite lookup_insert_eq. intros [= <- <-].
      inversion He; subst. by rewrite <- (maxmax_value_table d0 d).
    + rewrite lookup_insert_ne by done. apply Hmax.
Qed.

Lemma for_each_extremes d0 cs d d' r :
  for_each cs d = (d', r) ->
  extremes_recorded d0 d -> extremes_recorded d0 d'.
Proof.
  revert d. induction cs as [|c cs IH]; intros d.
  - by intros [= <- <-].
  - cbn [for_each]. unfold act_bind.
    destruct (fit_criterion c d) as [d1 [[]|e]] eqn:E.
    + intros H Hd. eapply IH; [done|]. by eapply turn_extremes.
    + intros [= <- <-] Hd. by eapply turn_extremes.
Qed.

(** On a table with at least one row and one column, and a label per row,
    both payoffs are computed and stored. *)
Lemma maxmin_maxmax_computed
    (alts_ states_ : list label) (prob_ : list Q) (payoff_ : Np.matrix) :
  payoff_ <> [] ->
  Forall (fun row => row <> []) payoff_ ->
  length alts_ = length payoff_ ->
  exists d' la a lb b,
    fit (init alts_ states_ prob_ payoff_ ["maxmin"; "maxmax"]) = (d', Ok tt)
    /\ results_ d' !! "maxmin" = Some (la, a)
    /\ results_ d' !! "maxmax" = Some (lb, b).
Proof.
  intros Hne Hrows Hlen.
  set (d0 := init alts_ states_ prob_ payoff_ ["maxmin"; "maxmax"]).
  assert (forall (red : list Q -> result Q),
            (forall row, row <> [] -> is_ok (red row) = true) ->
            exists vs i l v,
              rmap red payoff_ = Ok vs /\ Np.argmax vs = Ok i
              /\ alts_ !! i = Some l /\ Np.max vs = Ok v) as Hred.
  { intros red Hok.
    destruct (rmap_total red payoff_) as [vs Hvs].
    { eapply Forall_impl; [exact Hrows|]. cbn. auto. }
    pose proof (rmap_length _ _ _ Hvs) as Hl.
    assert (vs <> []) as Hvs_ne.
    { intros ->. destruct payoff_; [done | discriminate]. }
    destruct (NpFacts.argmax_total vs Hvs_ne) as [i Hi].
    pose proof (NpFacts.argmax_lt _ _ Hi) as Hlt.
    destruct (alts_ !! i) as [l|] eqn:El.
    - exists vs, i, l. destruct vs as [|x vs]; [done|].
      exists (Np.max_from x vs). done.
    - apply lookup_ge_None in El. lia. }
  destruct (Hred Np.min) as (mins & i & la & a & Emin & Ei & Ela & Ea).
  { by intros [|]. }
  destruct (Hred Np.max) as (maxs & j & lb & b & Emax & Ej & Elb & Eb).
  { by intros [|]. }
  assert (maxmin_choice d0 = Ok la) as C1.
  { unfold maxmin_choice, Np.min_axis1; cbn [d0 init payoff].
    rewrite Emin; cbn. rewrite Ei; cbn. unfold alt_at; cbn. by rewrite Ela. }
  assert (maxmin_value d0 = Ok a) as V1.
  { unfold maxmin_value, Np.min_axis1; cbn [d0 init payoff]. by rewrite Emin. }
  exists (set_results_
            (<["maxmax" := (lb, b)]> (<["maxmin" := (la, a)]> ∅))
            (set_maxmax_pf_ b (set_maxmax_dec_ lb
               (set_maxmin_pf_ a (set_maxmin_dec_ la d0))))), la, a, lb, b.
  split; [|split; reflexivity].
  unfold fit. cbn [crit d0 init for_each]. fold d0. unfold act_bind.
  rewrite fit_maxmin, C1, V1. rewrite fit_maxmax.
  unfold maxmax_choice, maxmax_value, Np.max_axis1. cbn [d0 init payoff set_results_
    set_maxmin_pf_ set_maxmin_dec_].
  rewrite Emax; cbn. rewrite Ej; cbn. unfold alt_at; cbn. rewrite Elb, Eb.
  reflexivity.
Qed.

(** C7: for every payoff matrix, whenever [fit] has stored a payoff under
    "maxmin" and one under "maxmax", the maxmin payoff (the greatest of the
    row minima) is at most the maxmax payoff (the greatest of the row
    maxima). *)
Theorem maxmin_payoff_le_maxmax_payoff
    (alts_ states_ : list label) (prob_ : list Q) (payoff_ : Np.matrix)
    (criteria : list string) (d' : t) (r : result unit)
    (la lb : label) (a b : Q) :
  fit (init alts_ states_ prob_ payoff_ criteria) = (d', r) ->
  results_ d' !! "maxmin" = Some (la, a) ->
  results_ d' !! "maxmax" = Some (lb, b) ->
  (a <= b)%Q.
Proof.
  intros Hfit Ha Hb.
  set (d0 := init alts_ states_ prob_ payoff_ criteria) in *.
  assert (extremes_recorded d0 d') as (_ & Hmin & Hmax).
  { eapply for_each_extremes; [exact Hfit|].
    split; [apply same_table_refl|].
    split; intros l v; unfold d0, init; cbn [results_]; by rewrite lookup_empty. }
  eapply maxmin_value_le_maxmax_value; eauto.
Qed.

Lemma maxmin_payoff_le_maxmax_payoff_witness :
  let d' := fst (fit (Fixture.table default_criteria)) in
  results_ d' !! "maxmin" = Some (LStr "$7", 225%Q)
  /\ results_ d' !! "maxmax" = Some (LStr "$9", 625%Q)
  /\ (225 <= 625)%Q.
Proof.
  cbv zeta. split; [vm_compute; reflexivity|].
  split; [vm_compute; reflexivity|].
  apply (maxmin_payoff_le_maxmax_payoff
           Fixture.alts Fixture.states Fixture.prob Fixture.payoff
           default_criteria
           (fst (fit (Fixture.table default_criteria))) (Ok tt)
           (LStr "$7") (LStr "$9")); vm_compute; reflexivity.
Defined.

(** C3: on the table of the test-suite, with the alternatives "$5" to "$9"
    and the probabilities 0.35, 0.25, 0.4, [fit] with the five criteria
    completes and leaves exactly maxmax -> ("$9", 625), maxmin -> ("$7", 225),
    regret -> ("$8", 25), maxlik -> ("$9", 625) and ev -> ("$8", 625); read
    as a bare array, the same table gives these payoffs with the row indices
    4, 2, 3, 4, 3. *)
Theorem fixture_results :
  (let '(d', r) := fit (Fixture.table default_criteria) in
   r = Ok tt
   /\ results_ d' =
      {[ "maxmax" := (LStr "$9", 625%Q); "maxmin" := (LStr "$7", 225%Q);
         "regret" := (LStr "$8", 25%Q); "maxlik" := (LStr "$9", 625%Q);
         "ev" := (LStr "$8", 625%Q) ]})
  /\ (exists d, init_ndarray Fixture.ndarray default_criteria = Ok d
      /\ let '(d', r) := fit d in
         r = Ok tt
         /\ results_ d' =
            {[ "maxmax" := (LInt 4, 625%Q); "maxmin" := (LInt 2, 225%Q);
               "regret" := (LInt 3, 25%Q); "maxlik" := (LInt 4, 625%Q);
               "ev" := (LInt 3, 625%Q) ]}).
Proof.
  split.
  - vm_compute. split; reflexivity.
  - eexists. split; [vm_compute; reflexivity|]. vm_compute. split; reflexivity.
Qed.

(** A completed turn for "ev" stores the payoff that "maxlik" left in
    [mle_pf_], whatever the expected values are. *)
Lemma ev_turn_stores_mle_pf d d' :
  fit_criterion "ev" d = (d', Ok tt) ->
  exists dec pf, mle_pf_ d = Some pf /\ results_ d' !! "ev" = Some (dec, pf).
Proof.
  intros E. apply turn_spec in E as (_ & _ & dec & pf & He & ->).
  exists dec, pf. split; [by inversion He | apply lookup_insert_eq].
Qed.

(** C1: on the table of the test-suite the greatest expected value is 410,
    for "$8"; [fit] keeps it in [ev_pf_] and stores ("$8", 625) under "ev",
    625 being the payoff of the maximum-likelihood criterion. *)
Theorem fixture_ev_entry_is_not_expected_value :
  let d' := fst (fit (Fixture.table default_criteria)) in
  results_ d' !! "ev" = Some (LStr "$8", 625%Q)
  /\ mle_pf_ d' = Some 625%Q
  /\ (exists v, ev_pf_ d' = Some v /\ (v == 410)%Q)
  /\ ~ (625 == 410)%Q.
Proof.
  cbv zeta. split; [vm_compute; reflexivity|].
  split; [vm_compute; reflexivity|]. split.
  - eexists. split; [vm_compute; reflexivity|]. reflexivity.
  - discriminate.
Qed.




End DecisionClaims.

Module DecisionEvClaims.
Import Decision DecisionFacts.

(** On a well-formed table the dot products and the choice of "ev" are
    computed. *)
Lemma ev_ready d :
  well_formed d ->
  exists dotprod dec pf,
    dotprod_of d = Ok dotprod /\ ev_choice dotprod d = Ok dec
    /\ ev_value dotprod d = Ok pf.
Proof.
  intros (Hne & Hlen & Hrows).
  destruct (rmap_total
              (fun row => if Nat.eqb (length row) (length (prob d))
                          then Ok (Np.dot row (prob d)) else Raise Np.mismatch)
              (payoff d)) as [dp Hdp].
  { eapply Forall_impl; [exact Hrows|]. cbn. intros row ->.
    by rewrite Nat.eqb_refl. }
  pose proof (rmap_length _ _ _ Hdp) as Hl.
  assert (dp <> []) as Hdp_ne.
  { intros ->. destruct (payoff d); [done | discriminate]. }
  destruct (NpFacts.argmax_total dp Hdp_ne) as [i Hi].
  pose proof (NpFacts.argmax_lt _ _ Hi) as Hlt.
  destruct (alts d !! i) as [a|] eqn:Ea.
  - exists dp, a. destruct dp as [|x dp]; [done|].
    exists (Np.max_from x dp). unfold dotprod_of, Np.matvec, ev_choice, ev_value.
    rewrite Hdp, Hi. cbn. unfold alt_at. by rewrite Ea.
  - apply lookup_ge_None in Ea. lia.
Qed.

(** Without "maxlik" no turn assigns [mle_pf_], and "ev" stores nothing. *)
Lemma turn_without_maxlik c d d' r :
  fit_criterion c d = (d', r) ->
  c <> "maxlik" -> mle_pf_ d = None ->
  mle_pf_ d' = None
  /\ (results_ d !! "ev" = None -> results_ d' !! "ev" = None)
  /\ (c = "ev" -> exists e, r = Raise e).
Proof.
  intros E Hc Hm. apply turn_spec in E as (_ & Hm' & E).
  split; [by rewrite Hm'|].
  destruct r as [[]|e].
  - destruct E as (dec & pf & He & ->).
    destruct (decide (c = "ev")) as [->|Hne].
    + inversion He; congruence.
    + split; [by rewrite lookup_insert_ne | done].
  - rewrite E. eauto.
Qed.

Lemma for_each_without_maxlik cs d d' r :
  for_each cs d = (d', r) ->
  ~ In "maxlik" cs -> mle_pf_ d = None ->
  mle_pf_ d' = None
  /\ (results_ d !! "ev" = None -> results_ d' !! "ev" = None).
Proof.
  revert d. induction cs as [|c cs IH]; intros d.
  - by intros [= <- <-].
  - cbn [for_each]. unfold act_bind. intros H Hn Hm.
    assert (c <> "maxlik") as Hc by (intros ->; apply Hn; by left).
    destruct (fit_criterion c d) as [d1 [[]|e]] eqn:E;
      apply turn_without_maxlik in E as (Hm1 & Hr1 & _); try done.
    + destruct (IH d1 H) as [? ?]; [intros ?; apply Hn; by right | done |].
      split; auto.
    + by injection H as <- <-.
Qed.

(** C9, as the code has it: when the requested list holds "ev" with no
    "maxlik" before it and [mle_pf_] was never assigned, [fit] raises and
    stores no result under "ev"; once the criteria before "ev" were computed
    on a well-formed table, what it raises is the attribute error on
    [mle_pf_]. *)
Theorem ev_without_maxlik_fails
    (d : t) (pre post : list string) :
  mle_pf_ d = None ->
  ~ In "maxlik" pre ->
  crit d = (pre ++ "ev" :: post)%list ->
  exists d' e,
    fit d = (d', Raise e)
    /\ (results_ d !! "ev" = None -> results_ d' !! "ev" = None)
    /\ (forall d1, for_each pre d = (d1, Ok tt) -> well_formed d ->
        e = AttributeError "mle_pf_").
Proof.
  intros Hm Hn Hcrit. unfold fit. rewrite Hcrit, for_each_app.
  destruct (for_each pre d) as [d1 [[]|e]] eqn:Epre.
  - pose proof (for_each_without_maxlik _ _ _ _ Epre Hn Hm) as [Hm1 Hr1].
    pose proof (for_each_same_table _ _ _ _ Epre) as Ht.
    cbn [for_each]. unfold act_bind.
    destruct (fit_criterion "ev" d1) as [d2 r] eqn:E.
    pose proof (turn_without_maxlik _ _ _ _ E ltac:(done) Hm1)
      as (_ & Hr2 & [e ->]); [done|].
    exists d2, e. split; [done|]. split; [auto|].
    intros ? [= <-] Hwf.
    assert (well_formed d1) as Hwf1.
    { destruct Ht as (_ & Ha & _ & Hp & Hy). unfold well_formed.
      by rewrite Ha, Hp, Hy. }
    destruct (ev_ready d1 Hwf1) as (dp & dec & pf & E0 & E1 & E2).
    rewrite fit_ev, E0, E1, E2 in E. cbn zeta in E. rewrite Hm1 in E.
    by injection E as _ <-.
  - exists d1, e. split; [done|]. split; [|done].
    by apply (for_each_without_maxlik _ _ _ _ Epre Hn Hm).
Qed.

Lemma ev_without_maxlik_fails_witness :
  exists d',
    fit (Fixture.table ["maxmax"; "ev"; "maxlik"])
    = (d', Raise (AttributeError "mle_pf_"))
    /\ results_ d' !! "ev" = None.
Proof.
  destruct (ev_without_maxlik_fails
              (Fixture.table ["maxmax"; "ev"; "maxlik"])
              ["maxmax"] ["maxlik"]) as (d' & e & Hfit & Hev & He).
  - reflexivity.
  - intros [H|[]]. discriminate H.
  - reflexivity.
  - exists d'. rewrite Hfit. split; [|by apply Hev].
    rewrite (He (fst (for_each ["maxmax"] (Fixture.table ["maxmax"; "ev"; "maxlik"]))));
      [reflexivity | vm_compute; reflexivity |].
    repeat split; [discriminate | repeat constructor].
Defined.

(** C9, literally, fails: a name that [fit] does not know, placed before
    "ev", makes [fit] raise the unknown-criterion error and not the
    attribute error. *)
Lemma ev_after_unknown_name_raises_value_error :
  let d := Fixture.table ["median"; "ev"] in
  mle_pf_ d = None
  /\ ~ In "maxlik" ["median"]
  /\ fit d = (d, Raise (unknown_criterion "median"))
  /\ unknown_criterion "median" <> AttributeError "mle_pf_".
Proof.
  cbv zeta. split; [reflexivity|]. split; [intros [H|[]]; discriminate H|].
  split; [vm_compute; reflexivity | discriminate].
Qed.

End DecisionEvClaims.

Module EnggEconFacts.
Import EnggEcon.
Local Open Scope Q_scope.

Section Facts.
Variable float_pow : Q -> Q -> result Q.

(** [npv] adds up the very terms that [_ppv] lists, in the same order. *)
Lemma npv_loop_ppv e interest pv flows :
  npv_loop float_pow e interest pv flows =
  (ppv ← rmap (fun '(period, flow) =>
                 f ← PgivenF float_pow e interest period; Ok (flow * f)) flows;
   Ok (fold_left Qplus ppv pv)).
Proof.
  revert pv. induction flows as [|[period flow] flows IH]; intros pv.
  - reflexivity.
  - cbn [npv_loop rmap]. destruct (PgivenF float_pow e interest period) as [f|];
      [|reflexivity].
    cbn. rewrite IH. destruct (rmap _ flows); reflexivity.
Qed.

Lemma npv_ppv self interest :
  npv float_pow self interest =
  (ppv ← _ppv float_pow self (cf self) interest; Ok (py_sum ppv)).
Proof. unfold npv, _ppv, py_sum. apply npv_loop_ppv. Qed.

(** The loop hands back a rate or raises: never a text. *)
Lemma irr_loop_result self max_iter threshold verbose itr_to_conv
    fuel itr r pw out out' v :
  irr_loop float_pow self max_iter threshold verbose itr_to_conv
           fuel itr r pw out = Some (out', Ok v) ->
  exists r1,
    v = VFloat r1
    /\ ((r1 = r /\ Qgtb (Qabs pw) threshold = false)
        \/ exists r0 pw0,
             newton_step float_pow self r0 pw0 r1
             /\ Qgtb (Qabs pw0) threshold = false).
Proof.
  revert itr r pw out.
  induction fuel as [|fuel IH]; intros itr r pw out; cbn [irr_loop];
    destruct (Qgtb (Qabs pw) threshold) eqn:Ethr;
    try (intros [= <- <-]; eauto);
    destruct (Qgtb (inject_Z (itr + 1)) max_iter); try discriminate.
  destruct (_ppv _ _ _ r) as [ppv|] eqn:Eppv; [|discriminate].
  destruct (_dnpv ppv _) as [dnpv|] eqn:Ed; [|discriminate].
  destruct (Qeq_bool dnpv 0) eqn:Ez; [discriminate|].
  intros H. apply IH in H as (r1 & -> & [[-> Hthr] | H]).
  - exists (r - py_sum ppv / dnpv). split; [done|]. right.
    exists r, (py_sum ppv). split; [|done]. exists ppv, dnpv. auto.
  - eauto.
Qed.

(** Beyond the cap the loop raises, because a text and a number do not
    add. *)
Lemma irr_loop_cap self max_iter threshold verbose itr_to_conv
    fuel itr r pw out :
  Qgtb (Qabs pw) threshold = true ->
  Qgtb (inject_Z (itr + 1)) max_iter = true ->
  irr_loop float_pow self max_iter threshold verbose itr_to_conv
           fuel itr r pw out
  = Some (if verbose then app out [FailedToConverge (itr + 1)] else out,
          Raise TypeError).
Proof. intros H1 H2. destruct fuel; cbn [irr_loop]; by rewrite H1, H2. Qed.

(** The loop always ends: the cap stops it. *)
Lemma irr_loop_total self max_iter threshold verbose itr_to_conv
    fuel itr r pw out :
  (Qfloor max_iter - itr <= Z.of_nat fuel)%Z ->
  exists res,
    irr_loop float_pow self max_iter threshold verbose itr_to_conv
             fuel itr r pw out = Some res.
Proof.
  revert itr r pw out.
  induction fuel as [|fuel IH]; intros itr r pw out Hfuel; cbn [irr_loop];
    destruct (Qgtb (Qabs pw) threshold); eauto;
    destruct (Qgtb (inject_Z (itr + 1)) max_iter) eqn:Ecap; eauto.
  - apply NpFacts.Qgtb_false in Ecap.
    apply Qfloor_resp_le in Ecap. rewrite Qfloor_Z in Ecap. lia.
  - destruct (_ppv _ _ _ r) as [ppv|]; eauto.
    destruct (_dnpv ppv _) as [dnpv|]; eauto.
    destruct (Qeq_bool dnpv 0); eauto.
    apply IH. lia.
Qed.

Theorem irr_total self guess max_iter threshold verbose itr_to_conv :
  exists res,
    irr float_pow self guess max_iter threshold verbose itr_to_conv = Some res.
Proof.
  unfold irr. destruct (first_rate self guess) as [r|]; eauto.
  destruct (_ppv _ _ _ r) as [ppv|]; eauto.
  apply irr_loop_total. unfold turns.
  destruct (Qfloor max_iter); lia.
Qed.

(** [irr] hands back a rate or raises. *)
Lemma irr_never_returns_text self guess max_iter threshold verbose
    itr_to_conv out v :
  irr float_pow self guess max_iter threshold verbose itr_to_conv
  = Some (out, Ok v) ->
  exists r, v = VFloat r.
Proof.
  unfold irr. destruct (first_rate self guess) as [r|]; [|discriminate].
  destruct (_ppv _ _ _ r) as [ppv|]; [|discriminate].
  intros H. apply irr_loop_result in H as (r1 & -> & _). eauto.
Qed.

End Facts.
End EnggEconFacts.

Module EnggEconClaims.
Import EnggEcon EnggEconFacts.
Local Open Scope Q_scope.




(** C2: with the cap set to one turn, the series of the test-suite passes
    the cap on its second turn, and [irr] then raises [TypeError] on adding
    the rate to the text; nothing is returned. *)
Theorem irr_beyond_cap_raises_type_error :
  exists r1,
    irr no_float_pow
        (compareAlt_init [-1000; 200; 300; 400; 500] ConvEnd true)
        None 1 default_threshold true false
    = Some ([Iteration 1 r1; FailedToConverge 2], Raise TypeError).
Proof. eexists. vm_compute. reflexivity. Qed.

(** *** [BCRatio] *)

(** A shared rate with both stream rates: a warning, and the shared rate is
    kept for both streams. *)
Lemma BCRatio_init_shared_and_both benefit_ cost_ rate br cr conv_ fr :
  truthy rate = true -> truthy br = true -> truthy cr = true ->
  BCRatio_init benefit_ cost_ rate br cr conv_ fr =
  ([rate_warning],
   Ok {| benefit := benefit_; cost := cost_;
         ben_rate := rate; cost_rate := rate;
         _benefits := compareAlt_init benefit_ conv_ fr;
         _costs := compareAlt_init cost_ conv_ fr |}).
Proof.
  intros Hr Hb Hc. unfold BCRatio_init, resolve_rates.
  by rewrite Hr, Hb, Hc.
Qed.

(** A shared rate with exactly one stream rate: the warning is issued, and
    then the missing-rate error is raised all the same. *)
Lemma BCRatio_init_shared_and_one benefit_ cost_ rate br cr conv_ fr :
  truthy rate = true -> truthy br <> truthy cr ->
  BCRatio_init benefit_ cost_ rate br cr conv_ fr =
  ([rate_warning], Raise missing_rate).
Proof.
  intros Hr Hne. unfold BCRatio_init, resolve_rates. rewrite Hr.
  destruct (truthy br), (truthy cr); done.
Qed.

(** C4: a shared rate of 0.1 with a benefit rate of 0.2 and no cost rate:
    [__init__] issues the warning and then raises the missing-rate error,
    so that no instance is built. *)
Theorem bcratio_shared_and_one_stream_rate_raises :
  BCRatio_init [0; 200; 500; 700; 800] [2000; 0; 0; 0; 500]
               (Some (1 # 10)) (Some (2 # 10)) None ConvEnd true
  = ([rate_warning], Raise missing_rate).
Proof. reflexivity. Qed.

End EnggEconClaims.

(* ===================================================================== *)
(** ** Facts on [cfCommon] *)
(* ===================================================================== *)

Lemma bind_ok {S A B} (m : action S A) (k : A -> action S B) s s' a :
  m s = (s', Ok a) -> act_bind m k s = k a s'.
Proof. unfold act_bind. by intros ->. Qed.

Module UtilsFacts.
Import Utils.
Local Open Scope list_scope.

(** *** The least common multiple *)

Lemma lcm_step (a b : Z) :
  (0 < a)%Z -> (0 < b)%Z ->
  (a * b / Z.gcd a b)%Z = Z.lcm a b /\ (0 < Z.lcm a b)%Z.
Proof.
  intros Ha Hb.
  assert (Z.gcd a b <> 0)%Z as Hg by (intros Hg; apply Z.gcd_eq_0_l in Hg; lia).
  assert (0 < Z.lcm a b)%Z as Hpos.
  { pose proof (Z.lcm_nonneg a b).
    destruct (Z.eq_dec (Z.lcm a b) 0%Z) as [E|]; [|lia].
    apply Z.lcm_eq_0 in E. lia. }
  split; [|done].
  rewrite Z.divide_div_mul_exact by (done || apply Z.gcd_divide_r).
  pose proof (Z.gcd_nonneg a b).
  assert (0 <= b / Z.gcd a b)%Z by (apply Z.div_pos; lia).
  unfold Z.lcm. rewrite Z.abs_eq; [done | nia].
Qed.

Lemma _lcm_from_spec (acc : Z) (arr : list Z) :
  (0 < acc)%Z -> Forall (fun x => (0 < x)%Z) arr ->
  _lcm_from acc arr = Ok (fold_left Z.lcm arr acc)
  /\ (0 < fold_left Z.lcm arr acc)%Z
  /\ (acc | fold_left Z.lcm arr acc)%Z
  /\ Forall (fun x => (x | fold_left Z.lcm arr acc)%Z) arr.
Proof.
  intros Hacc Harr. revert acc Hacc.
  induction Harr as [|x arr Hx _ IH]; intros acc Hacc; cbn [_lcm_from fold_left].
  - repeat split; [done | apply Z.divide_refl | constructor].
  - destruct (lcm_step acc x Hacc Hx) as [E Hpos].
    assert ((Z.gcd acc x =? 0)%Z = false) as ->.
    { apply Z.eqb_neq. intros Hg. apply Z.gcd_eq_0_l in Hg. lia. }
    rewrite E. destruct (IH _ Hpos) as (-> & Hp & Hd & Hall).
    repeat split; [done| |].
    + etrans; [apply Z.divide_lcm_l | exact Hd].
    + constructor; [|done]. etrans; [apply Z.divide_lcm_r | exact Hd].
Qed.

Lemma _lcm_spec (arr : list Z) :
  Forall (fun x => (0 < x)%Z) arr ->
  _lcm arr = Ok (LCM arr)
  /\ (0 < LCM arr)%Z
  /\ Forall (fun x => (x | LCM arr)%Z) arr.
Proof.
  intros H. destruct (_lcm_from_spec 1 arr) as (? & ? & _ & ?); [lia | done |].
  by repeat split.
Qed.

(** *** Lists *)

Lemma length_times (v : list Q) (k : Z) :
  length (times v k) = (Z.to_nat k * length v)%nat.
Proof.
  unfold times. induction (Z.to_nat k) as [|n IH]; [done|].
  cbn. rewrite length_app, IH. lia.
Qed.

Lemma last_is_Some {A} (v : list A) : v <> [] -> is_Some (last v).
Proof.
  induction v as [|x [|y v] IH]; [done | eauto |]. intros _.
  apply IH. done.
Qed.

Lemma length_removelast_snoc {A} (v : list A) (x : A) :
  v <> [] -> length (removelast v ++ [x]) = length v.
Proof.
  intros Hv. rewrite length_app. cbn.
  destruct (exists_last Hv) as (v' & y & ->).
  rewrite removelast_last, length_app. cbn. lia.
Qed.

Lemma length_fold_last (v : list Q) : length (fold_last v) = length v.
Proof.
  unfold fold_last. destruct v as [|a v]; [done|].
  destruct (last (a :: v)); [|done]. by apply length_removelast_snoc.
Qed.

(** The length of a broadcast series: the series, then its tail [c]
    times. *)
Lemma length_broadcast (v v' : list Q) (L ni : Z) :
  (0 < L)%Z -> (ni | L)%Z -> (Z.of_nat (length v) - 1)%Z = ni -> (0 < ni)%Z ->
  length v' = length v ->
  Z.of_nat (length (v ++ times (rest v') (L / ni - 1))) = (L + 1)%Z.
Proof.
  intros HL [q Hq] Hlen Hni Hv'.
  rewrite length_app, length_times. unfold rest.
  assert (L / ni = q)%Z as -> by (subst L; apply Z.div_mul; lia).
  assert (0 < q)%Z by nia.
  destruct v as [|a v], v' as [|a' v']; cbn [length tail] in *; nia.
Qed.

(** *** Dicts *)

Lemma assoc_lookup (items : list (string * loc)) i k l :
  NoDup (map fst items) -> items !! i = Some (k, l) -> assoc k items = Some l.
Proof.
  revert i. induction items as [|[k' l'] items IH]; intros i Hnd Hi; [done|].
  cbn. inversion Hnd as [|? ? Hnotin Hnd']; subst.
  destruct i as [|i]; cbn in Hi.
  - injection Hi as -> ->. by rewrite String.eqb_refl.
  - destruct (String.eqb_spec k k') as [->|_]; [|by eapply IH].
    exfalso. apply Hnotin.
    apply (list_elem_of_fmap_2 fst items (k', l)).
    apply list_elem_of_lookup. eauto.
Qed.

Lemma set_assoc_insert (items : list (string * loc)) i k l l' :
  NoDup (map fst items) -> items !! i = Some (k, l) ->
  set_assoc k l' items = <[i := (k, l')]> items.
Proof.
  revert i. induction items as [|[k0 l0] items IH]; intros i Hnd Hi; [done|].
  cbn. inversion Hnd as [|? ? Hnotin Hnd']; subst.
  destruct i as [|i]; cbn in Hi.
  - injection Hi as -> ->. by rewrite String.eqb_refl.
  - destruct (String.eqb_spec k k0) as [->|_].
    + exfalso. apply Hnotin.
      apply (list_elem_of_fmap_2 fst items (k0, l)).
      apply list_elem_of_lookup. eauto.
    + cbn. f_equal. by eapply IH.
Qed.

(** *** The statements, one by one *)

Lemma items_of_ok d h items :
  h !! d = Some (ODict items) -> items_of d h = (h, Ok items).
Proof. unfold items_of, pure_. by intros ->. Qed.

Lemma subscript_ok d k h items l :
  h !! d = Some (ODict items) -> assoc k items = Some l ->
  subscript d k h = (h, Ok l).
Proof.
  intros Hd Hk. unfold subscript.
  rewrite (bind_ok _ _ _ _ _ (items_of_ok _ _ _ Hd)).
  unfold pure_. by rewrite Hk.
Qed.

Lemma load_ok l h v : h !! l = Some (OList v) -> load l h = (h, Ok v).
Proof. unfold load, pure_. by intros ->. Qed.

Lemma store_final_ok l x h v :
  h !! l = Some (OList v) -> v <> [] ->
  store_final l x h = (<[l := OList (removelast v ++ [x])]> h, Ok tt).
Proof.
  intros Hl Hv. unfold store_final.
  rewrite (bind_ok _ _ _ _ _ (load_ok _ _ _ Hl)). by destruct v.
Qed.

Lemma setitem_ok d k l h items :
  h !! d = Some (ODict items) ->
  setitem d k l h = (<[d := ODict (set_assoc k l items)]> h, Ok tt).
Proof.
  intros Hd. unfold setitem.
  by rewrite (bind_ok _ _ _ _ _ (items_of_ok _ _ _ Hd)).
Qed.

Lemma first_final_ok (v : list Q) :
  v <> [] -> exists a b, first v = Ok a /\ final v = Ok b
                         /\ fold_last v = removelast v ++ [(a + b)%Q].
Proof.
  intros Hv. destruct (last_is_Some v Hv) as [b Hb].
  destruct v as [|a v]; [done|]. exists a, b.
  unfold final, fold_last. rewrite Hb. done.
Qed.

Lemma fold_terminal_ok d k h items l v :
  h !! d = Some (ODict items) -> assoc k items = Some l ->
  h !! l = Some (OList v) -> v <> [] ->
  fold_terminal d k h = (<[l := OList (fold_last v)]> h, Ok tt).
Proof.
  intros Hd Hk Hl Hv. destruct (first_final_ok v Hv) as (a & b & Ha & Hb & ->).
  unfold fold_terminal.
  rewrite (bind_ok _ _ _ _ _ (subscript_ok _ _ _ _ _ Hd Hk)).
  rewrite (bind_ok _ _ _ _ _ (load_ok _ _ _ Hl)).
  rewrite (bind_ok (pure_ _) _ h h a) by (unfold pure_; by rewrite Ha).
  rewrite (bind_ok _ _ _ _ _ (subscript_ok _ _ _ _ _ Hd Hk)).
  rewrite (bind_ok _ _ _ _ _ (load_ok _ _ _ Hl)).
  rewrite (bind_ok (pure_ _) _ h h b) by (unfold pure_; by rewrite Hb).
  rewrite (bind_ok _ _ _ _ _ (subscript_ok _ _ _ _ _ Hd Hk)).
  by apply store_final_ok.
Qed.

Lemma broadcast_ok d L n i k h items l v ni :
  h !! d = Some (ODict items) -> assoc k items = Some l ->
  h !! l = Some (OList v) -> n !! i = Some ni -> ni <> 0%Z ->
  broadcast d L n i k h =
  (<[d := ODict (set_assoc k (fresh (dom h)) items)]>
     (<[fresh (dom h) := OList (v ++ times (rest v) (L / ni - 1))]> h),
   Ok tt).
Proof.
  intros Hd Hk Hl Hn Hni. unfold broadcast.
  rewrite (bind_ok _ _ _ _ _ (subscript_ok _ _ _ _ _ Hd Hk)).
  rewrite (bind_ok _ _ _ _ _ (load_ok _ _ _ Hl)).
  rewrite (bind_ok _ _ _ _ _ (subscript_ok _ _ _ _ _ Hd Hk)).
  rewrite (bind_ok _ _ _ _ _ (load_ok _ _ _ Hl)).
  rewrite (bind_ok (pure_ _) _ h h (L / ni - 1)%Z).
  2:{ unfold pure_, copies. rewrite Hn.
      by destruct (Z.eqb_spec ni 0). }
  rewrite (bind_ok (alloc _) _ h _ (fresh (dom h))) by reflexivity.
  apply setitem_ok. rewrite lookup_insert_ne; [done|].
  intros E. pose proof (is_fresh (dom h)) as Hf. rewrite E in Hf.
  apply Hf, elem_of_dom. eauto.
Qed.

Lemma assoc_set_assoc k l items : assoc k (set_assoc k l items) = Some l.
Proof.
  induction items as [|[k' l'] items IH]; cbn.
  - by rewrite String.eqb_refl.
  - destruct (String.eqb_spec k k') as [->|Hne]; cbn.
    + by rewrite String.eqb_refl.
    + by destruct (String.eqb_spec k k').
Qed.

Lemma restore_terminal_ok d k h items l w :
  h !! d = Some (ODict items) -> assoc k items = Some l ->
  h !! l = Some (OList w) -> w <> [] ->
  exists x,
    restore_terminal d k h = (<[l := OList (removelast w ++ [x])]> h, Ok tt).
Proof.
  intros Hd Hk Hl Hw. destruct (first_final_ok w Hw) as (a & b & Ha & Hb & _).
  exists (b - a)%Q. unfold restore_terminal.
  rewrite (bind_ok _ _ _ _ _ (subscript_ok _ _ _ _ _ Hd Hk)).
  rewrite (bind_ok _ _ _ _ _ (load_ok _ _ _ Hl)).
  rewrite (bind_ok (pure_ _) _ h h b) by (unfold pure_; by rewrite Hb).
  rewrite (bind_ok _ _ _ _ _ (subscript_ok _ _ _ _ _ Hd Hk)).
  rewrite (bind_ok _ _ _ _ _ (load_ok _ _ _ Hl)).
  rewrite (bind_ok (pure_ _) _ h h a) by (unfold pure_; by rewrite Ha).
  rewrite (bind_ok _ _ _ _ _ (subscript_ok _ _ _ _ _ Hd Hk)).
  by apply store_final_ok.
Qed.

(** One turn of the loop: the list under [k] has its last element folded in
    place, and [k] is bound to a new list [w], at a reference that was not
    in use. *)
Lemma body_spec d L n i k h items l v ni :
  h !! d = Some (ODict items) -> assoc k items = Some l ->
  h !! l = Some (OList v) -> v <> [] ->
  n !! i = Some ni -> ni <> 0%Z ->
  exists l' w,
    body d L n i k h =
    (<[l' := OList w]>
       (<[d := ODict (set_assoc k l' items)]>
          (<[l := OList (fold_last v)]> h)), Ok tt)
    /\ (l' ∉ dom h)
    /\ length w = length (v ++ times (rest (fold_last v)) (L / ni - 1)).
Proof.
  intros Hd Hk Hl Hv Hn Hni.
  assert (d <> l) as Hdl by congruence.
  set (v1 := fold_last v). set (h1 := <[l := OList v1]> h).
  assert (h1 !! d = Some (ODict items)) as Hd1
    by (unfold h1; by rewrite lookup_insert_ne).
  assert (h1 !! l = Some (OList v1)) as Hl1
    by (unfold h1; by rewrite lookup_insert_eq).
  set (l' := fresh (dom h1)).
  assert (l' ∉ dom h1) as Hfresh by apply is_fresh.
  assert (l' ∉ dom h) as Hfresh0.
  { intros Hin. apply Hfresh. unfold h1. rewrite dom_insert_L.
    apply elem_of_union. by right. }
  assert (l' <> d) as Hld.
  { intros ->. apply Hfresh0, elem_of_dom. eauto. }
  set (w0 := v1 ++ times (rest v1) (L / ni - 1)).
  set (h2 := <[d := ODict (set_assoc k l' items)]> (<[l' := OList w0]> h1)).
  assert (w0 <> []) as Hw0.
  { unfold w0, v1. intros E. apply (f_equal length) in E.
    rewrite length_app, length_fold_last in E. destruct v; [done | cbn in E; lia]. }
  destruct (restore_terminal_ok d k h2 (set_assoc k l' items) l' w0)
    as [x Hres].
  { unfold h2. by rewrite lookup_insert_eq. }
  { apply assoc_set_assoc. }
  { unfold h2. rewrite lookup_insert_ne by done. by rewrite lookup_insert_eq. }
  { done. }
  exists l', (removelast w0 ++ [x]). split; [|split; [done|]].
  - unfold body.
    rewrite (bind_ok _ _ _ _ _ (fold_terminal_ok _ _ _ _ _ _ Hd Hk Hl Hv)).
    fold v1 h1.
    rewrite (bind_ok _ _ _ _ _ (broadcast_ok _ L n i _ _ _ _ _ _ Hd1 Hk Hl1 Hn Hni)).
    fold l' w0 h2. rewrite Hres. f_equal. unfold h2.
    rewrite (insert_insert_ne _ d l') by done.
    by rewrite insert_insert_eq, (insert_insert_ne _ l' d).
  - rewrite length_removelast_snoc by done. unfold w0.
    rewrite !length_app. f_equal. unfold v1. apply length_fold_last.
Qed.

Lemma map_fst_insert (items : list (string * loc)) i k l l' :
  items !! i = Some (k, l) ->
  map fst (<[i := (k, l')]> items) = map fst items.
Proof.
  revert i. induction items as [|x items IH]; intros [|i] Hi; try done.
  - cbn in Hi. by injection Hi as ->.
  - cbn. f_equal. by apply IH.
Qed.

(** The loop, from any position. *)
Lemma loop_spec d L n todo :
  forall i h items,
    h !! d = Some (ODict items) ->
    NoDup (map fst items) ->
    drop i items = todo ->
    (0 < L)%Z ->
    (forall j k l, todo !! j = Some (k, l) ->
       exists v ni, h !! l = Some (OList v) /\ n !! (i + j)%nat = Some ni
                    /\ (Z.of_nat (length v) - 1)%Z = ni
                    /\ (0 < ni)%Z /\ (ni | L)%Z) ->
    exists h',
      loop d L n i (map fst todo) h = (h', Ok tt)
      /\ loop_post d L i items todo h h'.
Proof.
  induction todo as [|[k l] todo IH]; intros i h items Hd Hnd Hdrop HL Hpre.
  - assert (length items <= i)%nat as Hlen.
    { apply (f_equal length) in Hdrop. rewrite length_drop in Hdrop.
      cbn in Hdrop. lia. }
    exists h. split; [done|]. exists items. split_and!; try done.
    + intros j k l' Hj Hl'. apply lookup_lt_Some in Hl'. lia.
    + eauto.
    + intros _ l v Hl. by apply elem_of_nil in Hl.
  - assert (items !! i = Some (k, l)) as Hi.
    { rewrite <- (Nat.add_0_r i), <- lookup_drop, Hdrop. done. }
    pose proof (assoc_lookup _ _ _ _ Hnd Hi) as Hk.
    destruct (Hpre 0%nat k l eq_refl) as (v & ni & Hl & Hn & Hlen & Hni & Hdiv).
    rewrite Nat.add_0_r in Hn.
    assert (v <> []) as Hv by (intros ->; cbn in Hlen; lia).
    destruct (body_spec d L n i k h items l v ni Hd Hk Hl Hv Hn
                ltac:(lia)) as (l' & w & Hbody & Hfresh & Hw).
    rewrite (set_assoc_insert _ _ _ _ _ Hnd Hi) in Hbody.
    set (items1 := <[i := (k, l')]> items) in *.
    set (h1 := <[l' := OList w]>
                 (<[d := ODict items1]> (<[l := OList (fold_last v)]> h))) in *.
    assert (d <> l) as Hdl by congruence.
    assert (l' <> d) as Hld by (intros ->; apply Hfresh, elem_of_dom; eauto).
    assert (l' <> l) as Hll by (intros ->; apply Hfresh, elem_of_dom; eauto).
    assert (Z.of_nat (length w) = (L + 1)%Z) as HwL.
    { rewrite Hw. apply length_broadcast; try done. apply length_fold_last. }
    (* lookups in the heap after the turn *)
    assert (h1 !! d = Some (ODict items1)) as Hd1.
    { unfold h1. rewrite lookup_insert_ne by done. by rewrite lookup_insert_eq. }
    assert (h1 !! l' = Some (OList w)) as Hl'1
      by (unfold h1; by rewrite lookup_insert_eq).
    assert (h1 !! l = Some (OList (fold_last v))) as Hl1.
    { unfold h1. rewrite !lookup_insert_ne by done. by rewrite lookup_insert_eq. }
    assert (forall p, p <> d -> p <> l -> p ∈ dom h -> h1 !! p = h !! p) as Hframe1.
    { intros p Hpd Hpl Hp. unfold h1.
      rewrite !lookup_insert_ne; try done. intros ->. done. }
    assert (forall p v0, h !! p = Some (OList v0) ->
              exists v', h1 !! p = Some (OList v') /\ length v' = length v0)
      as Hkeep1.
    { intros p v0 Hp. destruct (decide (p = l)) as [->|Hpl].
      - exists (fold_last v). split; [done|].
        rewrite length_fold_last. congruence.
      - exists v0. split; [|done]. rewrite Hframe1; try done.
        + congruence.
        + apply elem_of_dom. eauto. }
    assert (dom h ⊆ dom h1) as Hdom1.
    { unfold h1. rewrite !dom_insert_L.
      intros p Hp. rewrite !elem_of_union. auto. }
    destruct (IH (S i) h1 items1) as (h' & Hloop & items' & Hd' & Hkeys & Htake
                                       & Hnew & Hdom & Hkeep & Hframe & Hcont).
    { done. }
    { unfold items1. by rewrite (map_fst_insert _ _ _ _ _ Hi). }
    { unfold items1. rewrite drop_insert_lt by lia.
      replace (S i) with (i + 1)%nat by lia.
      by rewrite <- drop_drop, Hdrop. }
    { done. }
    { intros j k2 l2 Hj. destruct (Hpre (S j) k2 l2 Hj)
        as (v2 & n2 & Hl2 & Hn2 & Hlen2 & Hpos2 & Hdiv2).
      destruct (Hkeep1 _ _ Hl2) as (v2' & Hl2' & Hlen2').
      exists v2', n2. repeat split; try done.
      - by replace (S i + j)%nat with (i + S j)%nat by lia.
      - lia. }
    exists h'. split.
    { cbn [map fst loop]. by rewrite (bind_ok _ _ _ _ _ Hbody). }
    assert (items' !! i = Some (k, l')) as Hi'.
    { rewrite <- (lookup_take_lt items' (S i) i) by lia. rewrite Htake.
      rewrite lookup_take_lt by lia. unfold items1.
      apply list_lookup_insert_eq. by eapply lookup_lt_Some. }
    exists items'. split_and!.
    + done.
    + rewrite Hkeys. unfold items1. by rewrite (map_fst_insert _ _ _ _ _ Hi).
    + apply (f_equal (take i)) in Htake. rewrite !take_take in Htake.
      rewrite !Nat.min_l in Htake by lia. rewrite Htake.
      unfold items1. by rewrite take_insert_ge.
    + intros j k0 l0 Hj Hl0. destruct (decide (j = i)) as [->|Hne].
      * rewrite Hi' in Hl0. injection Hl0 as _ <-. split; [done|].
        destruct (Hkeep _ _ Hl'1) as (w' & Hw' & Hlw').
        exists w'. split; [done|]. by rewrite Hlw'.
      * destruct (Hnew j k0 l0 ltac:(lia) Hl0) as [Hnotin ?].
        split; [|done]. intros Hin. apply Hnotin. by apply Hdom1.
    + etrans; done.
    + intros p v0 Hp. destruct (Hkeep1 _ _ Hp) as (v1 & Hp1 & Hlen1).
      destruct (Hkeep _ _ Hp1) as (v2 & Hp2 & Hlen2).
      exists v2. split; [done | congruence].
    + intros p Hpd Hpt Hp. cbn [map snd] in Hpt.
      apply not_elem_of_cons in Hpt as [Hpl Hpt].
      rewrite Hframe; try done; [by apply Hframe1 | by apply Hdom1].
    + intros Hnd2 l0 v0 Hl0 Hv0. cbn [map snd] in Hnd2, Hl0.
      apply NoDup_cons in Hnd2 as [Hnotin Hnd2].
      apply elem_of_cons in Hl0 as [->|Hl0].
      * rewrite Hframe; try done.
        -- rewrite Hl1. congruence.
        -- apply elem_of_dom. eauto.
      * assert (l0 <> l) as Hne by (intros ->; done).
        apply Hcont; try done.
        rewrite Hframe1; try done.
        -- congruence.
        -- apply elem_of_dom. eauto.
Qed.

(** *** The mapping as a value *)

Lemma series_at_Some h l v : series_at h l = Some v <-> h !! l = Some (OList v).
Proof.
  unfold series_at. destruct (h !! l) as [[?|?]|]; split; congruence.
Qed.

Lemma items_at_Some h d items :
  items_at h d = Some items <-> h !! d = Some (ODict items).
Proof.
  unfold items_at. destruct (h !! d) as [[?|?]|]; split; congruence.
Qed.

(** The items of the dict and the mapping that they stand for agree key by
    key, each reference holding the series of its key. *)
Lemma view_Some h d m :
  view h d = Some m <->
  exists items,
    h !! d = Some (ODict items)
    /\ Forall2 (fun kl kv => kv.1 = kl.1 /\ h !! kl.2 = Some (OList kv.2))
               items m.
Proof.
  unfold view. split.
  - destruct (items_at h d) as [items|] eqn:Ei; [|done]. cbn. intros Hm.
    exists items. split; [by apply items_at_Some|].
    apply mapM_Some_1 in Hm. eapply Forall2_impl; [exact Hm|].
    intros [k l] kv. cbn. destruct (series_at h l) as [v|] eqn:Ev; [|done].
    cbn. intros [= <-]. split; [done | by apply series_at_Some].
  - intros (items & Hd & F). apply items_at_Some in Hd. rewrite Hd. cbn.
    apply mapM_Some_2. eapply Forall2_impl; [exact F|].
    intros [k l] [k' v]. cbn. intros [-> Hl]. apply series_at_Some in Hl.
    by rewrite Hl.
Qed.

Lemma pairs_keys (h : gmap positive obj) (items : list (string * positive))
    (m : list (string * list Q)) :
  Forall2 (fun kl kv => kv.1 = kl.1 /\ h !! kl.2 = Some (OList kv.2)) items m ->
  map fst items = map fst m.
Proof. induction 1 as [|? ? ? ? [E _]]; cbn; [done|]. by f_equal. Qed.

Lemma _horizon_spec (h : gmap positive obj) (items : list (string * positive))
    (m : list (string * list Q)) :
  Forall2 (fun kl kv => kv.1 = kl.1 /\ h !! kl.2 = Some (OList kv.2)) items m ->
  _horizon items h = (h, Ok (horizons m)).
Proof.
  induction 1 as [|[k l] [k' v] items m [_ Hl] _ IH]; [done|].
  cbn [_horizon]. cbn in Hl.
  rewrite (bind_ok _ _ _ _ _ (load_ok _ _ _ Hl)).
  by rewrite (bind_ok _ _ _ _ _ IH).
Qed.

(** [cfCommon] on a mapping whose series all have two entries or more:
    what the loop leaves, from the first key on. *)
Lemma cfCommon_spec h d items m :
  h !! d = Some (ODict items) ->
  Forall2 (fun kl kv => kv.1 = kl.1 /\ h !! kl.2 = Some (OList kv.2)) items m ->
  NoDup (map fst m) ->
  Forall (fun kv => (2 <= length kv.2)%nat) m ->
  exists h',
    cfCommon d h = (h', Ok d)
    /\ loop_post d (LCM (horizons m)) 0 items items h h'.
Proof.
  intros Hd F Hnd Hlen.
  assert (Forall (fun x => (0 < x)%Z) (horizons m)) as Hpos.
  { unfold horizons. apply Forall_fmap. eapply Forall_impl; [exact Hlen|].
    cbn. lia. }
  destruct (_lcm_spec _ Hpos) as (Hlcm & HL & Hdiv).
  destruct (loop_spec d (LCM (horizons m)) (horizons m) items 0 h items)
    as (h' & Hloop & Hpost); try done.
  { by rewrite (pairs_keys _ _ _ F). }
  { intros j k l Hj.
    destruct (Forall2_lookup_l _ _ _ _ _ F Hj) as ([k' v] & Hm & _ & Hl).
    cbn in Hl. exists v, (Z.of_nat (length v) - 1)%Z.
    assert (horizons m !! j = Some (Z.of_nat (length v) - 1)%Z) as Hn.
    { unfold horizons. by rewrite list_lookup_fmap, Hm. }
    split_and!; try done.
    - rewrite Forall_lookup in Hlen. specialize (Hlen _ _ Hm). cbn in Hlen. lia.
    - rewrite Forall_lookup in Hdiv. by eapply Hdiv. }
  exists h'. split; [|done]. unfold cfCommon.
  rewrite (bind_ok _ _ _ _ _ (items_of_ok _ _ _ Hd)).
  rewrite (bind_ok _ _ _ _ _ (_horizon_spec _ _ _ F)).
  rewrite (bind_ok (pure_ _) _ h h (LCM (horizons m)))
    by (unfold pure_; by rewrite Hlcm).
  by rewrite (bind_ok _ _ _ _ _ Hloop).
Qed.

(** *** The series that the loop builds *)

Lemma restore_last_nonempty (w : list Q) :
  w <> [] ->
  exists a b, first w = Ok a /\ final w = Ok b
              /\ restore_last w = removelast w ++ [(b - a)%Q].
Proof.
  intros Hw. destruct (last_is_Some w Hw) as [b Hb].
  destruct w as [|a w]; [done|]. exists a, b.
  unfold final, restore_last. by rewrite Hb.
Qed.

Lemma restore_terminal_exact d k h items l w :
  h !! d = Some (ODict items) -> assoc k items = Some l ->
  h !! l = Some (OList w) -> w <> [] ->
  restore_terminal d k h = (<[l := OList (restore_last w)]> h, Ok tt).
Proof.
  intros Hd Hk Hl Hw.
  destruct (restore_last_nonempty w Hw) as (a & b & Ha & Hb & ->).
  unfold restore_terminal.
  rewrite (bind_ok _ _ _ _ _ (subscript_ok _ _ _ _ _ Hd Hk)).
  rewrite (bind_ok _ _ _ _ _ (load_ok _ _ _ Hl)).
  rewrite (bind_ok (pure_ _) _ h h b) by (unfold pure_; by rewrite Hb).
  rewrite (bind_ok _ _ _ _ _ (subscript_ok _ _ _ _ _ Hd Hk)).
  rewrite (bind_ok _ _ _ _ _ (load_ok _ _ _ Hl)).
  rewrite (bind_ok (pure_ _) _ h h a) by (unfold pure_; by rewrite Ha).
  rewrite (bind_ok _ _ _ _ _ (subscript_ok _ _ _ _ _ Hd Hk)).
  by apply store_final_ok.
Qed.

(** One turn of the loop, with the series that it builds. *)
Lemma body_exact d L n i k h items l v :
  h !! d = Some (ODict items) -> assoc k items = Some l ->
  h !! l = Some (OList v) -> v <> [] ->
  n !! i = Some (Z.of_nat (length v) - 1)%Z -> (2 <= length v)%nat ->
  exists l',
    body d L n i k h =
    (<[l' := OList (widen L v)]>
       (<[d := ODict (set_assoc k l' items)]>
          (<[l := OList (fold_last v)]> h)), Ok tt)
    /\ (l' ∉ dom h).
Proof.
  intros Hd Hk Hl Hv Hn Hlen.
  assert (d <> l) as Hdl by congruence.
  set (ni := (Z.of_nat (length v) - 1)%Z) in *.
  set (v1 := fold_last v). set (h1 := <[l := OList v1]> h).
  assert (h1 !! d = Some (ODict items)) as Hd1
    by (unfold h1; by rewrite lookup_insert_ne).
  assert (h1 !! l = Some (OList v1)) as Hl1
    by (unfold h1; by rewrite lookup_insert_eq).
  set (l' := fresh (dom h1)).
  assert (l' ∉ dom h1) as Hfresh by apply is_fresh.
  assert (l' ∉ dom h) as Hfresh0.
  { intros Hin. apply Hfresh. unfold h1. rewrite dom_insert_L.
    apply elem_of_union. by right. }
  assert (l' <> d) as Hld.
  { intros ->. apply Hfresh0, elem_of_dom. eauto. }
  set (w0 := v1 ++ times (rest v1) (L / ni - 1)).
  set (h2 := <[d := ODict (set_assoc k l' items)]> (<[l' := OList w0]> h1)).
  assert (w0 <> []) as Hw0.
  { unfold w0, v1. intros E. apply (f_equal length) in E.
    rewrite length_app, length_fold_last in E. cbn in E. lia. }
  exists l'. split; [|done].
  unfold body.
  rewrite (bind_ok _ _ _ _ _ (fold_terminal_ok _ _ _ _ _ _ Hd Hk Hl Hv)).
  fold v1 h1.
  rewrite (bind_ok _ _ _ _ _
             (broadcast_ok _ L n i _ _ _ _ _ _ Hd1 Hk Hl1 Hn ltac:(lia))).
  fold l' w0 h2.
  rewrite (restore_terminal_exact d k h2 (set_assoc k l' items) l' w0).
  - f_equal. unfold h2.
    rewrite (insert_insert_ne _ l' d); [|done].
    rewrite insert_insert_eq.
    by rewrite (insert_insert_ne _ d l').
  - unfold h2. by rewrite lookup_insert_eq.
  - apply assoc_set_assoc.
  - unfold h2. rewrite lookup_insert_ne by done. by rewrite lookup_insert_eq.
  - done.
Qed.

(** The loop, from any position, on lists that the keys do not share: what
    each remaining key is bound to in the end. *)
Lemma loop_contents d L n todo :
  forall i h items,
    h !! d = Some (ODict items) ->
    NoDup (map fst items) ->
    NoDup (map snd todo) ->
    drop i items = todo ->
    (forall j k l, todo !! j = Some (k, l) ->
       exists v, h !! l = Some (OList v)
                 /\ n !! (i + j)%nat = Some (Z.of_nat (length v) - 1)%Z
                 /\ (2 <= length v)%nat) ->
    exists h' items',
      loop d L n i (map fst todo) h = (h', Ok tt)
      /\ h' !! d = Some (ODict items')
      /\ length items' = length items
      /\ take i items' = take i items
      /\ (forall p, p <> d -> (p ∉ map snd todo) -> p ∈ dom h ->
          h' !! p = h !! p)
      /\ (forall j k l v, todo !! j = Some (k, l) ->
          h !! l = Some (OList v) ->
          exists l', items' !! (i + j)%nat = Some (k, l')
                     /\ h' !! l' = Some (OList (widen L v))).
Proof.
  induction todo as [|[k l] todo IH]; intros i h items Hd Hnd Hnd2 Hdrop Hpre.
  - exists h, items. split_and!; try done.
  - assert (items !! i = Some (k, l)) as Hi.
    { rewrite <- (Nat.add_0_r i), <- lookup_drop, Hdrop. done. }
    pose proof (assoc_lookup _ _ _ _ Hnd Hi) as Hk.
    destruct (Hpre 0%nat k l eq_refl) as (v & Hl & Hn & Hlen).
    rewrite Nat.add_0_r in Hn.
    assert (v <> []) as Hv by (intros ->; cbn in Hlen; lia).
    destruct (body_exact d L n i k h items l v Hd Hk Hl Hv Hn Hlen)
      as (l' & Hbody & Hfresh).
    rewrite (set_assoc_insert _ _ _ _ _ Hnd Hi) in Hbody.
    set (items1 := <[i := (k, l')]> items) in *.
    set (h1 := <[l' := OList (widen L v)]>
                 (<[d := ODict items1]> (<[l := OList (fold_last v)]> h))) in *.
    assert (d <> l) as Hdl by congruence.
    assert (l' <> d) as Hld by (intros ->; apply Hfresh, elem_of_dom; eauto).
    assert (l' <> l) as Hll by (intros ->; apply Hfresh, elem_of_dom; eauto).
    cbn [map snd] in Hnd2. apply NoDup_cons in Hnd2 as [Hnotin Hnd2].
    assert (h1 !! d = Some (ODict items1)) as Hd1.
    { unfold h1. rewrite lookup_insert_ne by done. by rewrite lookup_insert_eq. }
    assert (h1 !! l' = Some (OList (widen L v))) as Hl'1
      by (unfold h1; by rewrite lookup_insert_eq).
    assert (forall p, p <> d -> p <> l -> p ∈ dom h -> h1 !! p = h !! p)
      as Hframe1.
    { intros p Hpd Hpl Hp. unfold h1.
      rewrite !lookup_insert_ne; try done. intros ->. done. }
    assert (dom h ⊆ dom h1) as Hdom1.
    { unfold h1. rewrite !dom_insert_L.
      intros p Hp. rewrite !elem_of_union. auto. }
    assert (forall j k2 l2, todo !! j = Some (k2, l2) ->
              l2 <> l /\ l2 <> d /\ l2 ∈ dom h) as Hlater.
    { intros j k2 l2 Hj.
      destruct (Hpre (S j) k2 l2 Hj) as (v2 & Hl2 & _).
      split_and!.
      - intros ->. apply Hnotin.
        apply (list_elem_of_fmap_2 snd todo (k2, l)).
        by eapply list_elem_of_lookup_2.
      - congruence.
      - apply elem_of_dom. eauto. }
    destruct (IH (S i) h1 items1)
      as (h' & items' & Hloop & Hd' & Hlen' & Htake & Hframe & Hcont).
    { done. }
    { unfold items1. by rewrite (map_fst_insert _ _ _ _ _ Hi). }
    { done. }
    { unfold items1. rewrite drop_insert_lt by lia.
      replace (S i) with (i + 1)%nat by lia.
      by rewrite <- drop_drop, Hdrop. }
    { intros j k2 l2 Hj.
      destruct (Hpre (S j) k2 l2 Hj) as (v2 & Hl2 & Hn2 & Hlen2).
      destruct (Hlater j k2 l2 Hj) as (? & ? & ?).
      exists v2. split_and!; try done.
      - by rewrite Hframe1.
      - by replace (S i + j)%nat with (i + S j)%nat by lia. }
    assert (i < length items)%nat as Hlt by by eapply lookup_lt_Some.
    assert (length items1 = length items) as Hlen1
      by (unfold items1; by rewrite length_insert).
    exists h', items'. split_and!.
    + cbn [map fst loop]. by rewrite (bind_ok _ _ _ _ _ Hbody).
    + done.
    + congruence.
    + apply (f_equal (take i)) in Htake. rewrite !take_take in Htake.
      rewrite !Nat.min_l in Htake by lia. rewrite Htake.
      unfold items1. by rewrite take_insert_ge.
    + intros p Hpd Hpt Hp. cbn [map snd] in Hpt.
      apply not_elem_of_cons in Hpt as [Hpl Hpt].
      rewrite Hframe; try done; [by apply Hframe1 | by apply Hdom1].
    + intros [|j] k0 l0 v0 Hj Hv0.
      * injection Hj as <- <-. assert (v0 = v) as -> by congruence.
        exists l'. split.
        -- rewrite Nat.add_0_r.
           rewrite <- (lookup_take_lt items' (S i) i) by lia. rewrite Htake.
           rewrite lookup_take_lt by lia. unfold items1.
           by apply list_lookup_insert_eq.
        -- rewrite Hframe; try done.
           ++ intros Hin. apply list_elem_of_fmap in Hin as ([k2 l2] & E & Hin).
              cbn in E. subst l2.
              apply list_elem_of_lookup in Hin as [j Hj].
              destruct (Hlater j k2 l' Hj) as (_ & _ & ?). done.
           ++ apply elem_of_dom. eauto.
      * cbn in Hj. destruct (Hlater j k0 l0 Hj) as (? & ? & ?).
        destruct (Hcont j k0 l0 v0 Hj) as (l0' & Hi0 & Hw0).
        { by rewrite Hframe1. }
        exists l0'. split; [|done].
        by replace (i + S j)%nat with (S i + j)%nat by lia.
Qed.

(** [cfCommon] on keys that name distinct lists: the mapping that it
    leaves. *)
Lemma cfCommon_contents h d items m :
  h !! d = Some (ODict items) ->
  Forall2 (fun kl kv => kv.1 = kl.1 /\ h !! kl.2 = Some (OList kv.2)) items m ->
  NoDup (map fst m) ->
  NoDup (map snd items) ->
  Forall (fun kv => (2 <= length kv.2)%nat) m ->
  exists h',
    cfCommon d h = (h', Ok d)
    /\ view h' d
       = Some (map (fun kv => (kv.1, widen (LCM (horizons m)) kv.2)) m).
Proof.
  intros Hd F Hnd Hnd2 Hlen.
  assert (Forall (fun x => (0 < x)%Z) (horizons m)) as Hpos.
  { unfold horizons. apply Forall_fmap. eapply Forall_impl; [exact Hlen|].
    cbn. lia. }
  destruct (_lcm_spec _ Hpos) as (Hlcm & HL & Hdiv).
  set (L := LCM (horizons m)) in *.
  destruct (loop_contents d L (horizons m) items 0 h items)
    as (h' & items' & Hloop & Hd' & Hlen' & _ & _ & Hcont); try done.
  { by rewrite (pairs_keys _ _ _ F). }
  { intros j k l Hj.
    destruct (Forall2_lookup_l _ _ _ _ _ F Hj) as ([k' v] & Hm & _ & Hl).
    cbn in Hl. exists v. split_and!; try done.
    - unfold horizons. change (0 + j)%nat with j.
      by rewrite list_lookup_fmap, Hm.
    - rewrite Forall_lookup in Hlen. by specialize (Hlen _ _ Hm). }
  exists h'. split.
  { unfold cfCommon.
    rewrite (bind_ok _ _ _ _ _ (items_of_ok _ _ _ Hd)).
    rewrite (bind_ok _ _ _ _ _ (_horizon_spec _ _ _ F)).
    rewrite (bind_ok (pure_ _) _ h h L) by (unfold pure_; by rewrite Hlcm).
    by rewrite (bind_ok _ _ _ _ _ Hloop). }
  apply view_Some. exists items'. split; [done|].
  pose proof (Forall2_length _ _ _ F) as HlenF.
  apply Forall2_same_length_lookup_2.
  { rewrite length_map. congruence. }
  intros j [k l'] [k' w] Hj Hw.
  rewrite list_lookup_fmap in Hw.
  destruct (m !! j) as [[k0 v]|] eqn:Hm; [|done]. cbn in Hw.
  injection Hw as <- <-.
  destruct (Forall2_lookup_r _ _ _ _ _ F Hm) as ([k1 l] & Hi & Hk & Hl).
  cbn in Hk, Hl. subst k1.
  destruct (Hcont j k0 l v Hi Hl) as (l2 & Hj2 & Hw2).
  cbn in Hj2. rewrite Hj in Hj2. injection Hj2 as <- <-. done.
Qed.

End UtilsFacts.

Module UtilsClaims.
Import Utils UtilsFacts.
Local Open Scope list_scope.

(** C8: for a mapping of named series that all have two entries or more,
    [cfCommon] returns the mapping with the same keys, every series having
    the length LCM(h_1, ..., h_k) + 1 for the horizons h_j = length - 1; two
    series of lengths 4 and 5 both come out with 13 entries. *)
Theorem cfCommon_common_horizon
    (h : gmap positive obj) (d : positive) (m : list (string * list Q)) :
  view h d = Some m ->
  NoDup (map fst m) ->
  Forall (fun kv => (2 <= length kv.2)%nat) m ->
  exists h' m',
    cfCommon d h = (h', Ok d)
    /\ view h' d = Some m'
    /\ map fst m' = map fst m
    /\ Forall (fun kv => Z.of_nat (length kv.2) = (LCM (horizons m) + 1)%Z) m'
    /\ (map (fun kv => length kv.2) m = [4; 5]%nat ->
        Forall (fun kv => length kv.2 = 13%nat) m').
Proof.
  intros Hview Hnd Hlen.
  apply view_Some in Hview as (items & Hd & F).
  destruct (cfCommon_spec h d items m Hd F Hnd Hlen)
    as (h' & Hrun & items' & Hd' & Hkeys & _ & Hnew & _).
  assert (is_Some (view h' d)) as [m' Hview'].
  { unfold view. apply items_at_Some in Hd'. rewrite Hd'. cbn.
    apply mapM_is_Some_2, Forall_lookup. intros j [k l'] Hj. cbn.
    destruct (Hnew j k l' ltac:(lia) Hj) as (_ & w & Hw & _).
    apply series_at_Some in Hw. rewrite Hw. cbn. eauto. }
  pose proof Hview' as Hv. apply view_Some in Hv as (items2 & Hd2 & F').
  assert (items2 = items') as -> by congruence.
  assert (Forall (fun kv => Z.of_nat (length kv.2) = (LCM (horizons m) + 1)%Z) m')
    as Hall.
  { apply Forall_lookup. intros j [k w] Hj.
    destruct (Forall2_lookup_r _ _ _ _ _ F' Hj) as ([k' l'] & Hj' & _ & Hl').
    destruct (Hnew j k' l' ltac:(lia) Hj') as (_ & w' & Hw' & HL).
    cbn in *. congruence. }
  exists h', m'. split_and!; try done.
  - rewrite <- (pairs_keys _ _ _ F'), Hkeys. exact (pairs_keys _ _ _ F).
  - intros H45. eapply Forall_impl; [exact Hall|]. cbn. intros kv.
    assert (horizons m = [3; 4]%Z) as ->.
    { unfold horizons. rewrite <- (map_map (fun kv => length kv.2)
                                     (fun n => (Z.of_nat n - 1)%Z)), H45.
      reflexivity. }
    change (LCM [3; 4]%Z) with 12%Z. lia.
Qed.

Lemma cfCommon_common_horizon_witness :
  exists h' m',
    cfCommon 1%positive example_heap = (h', Ok 1%positive)
    /\ view h' 1%positive = Some m'
    /\ map fst m' = ["cf1"; "cf2"]
    /\ Forall (fun kv => length kv.2 = 13%nat) m'.
Proof.
  destruct (cfCommon_common_horizon example_heap 1%positive
              [("cf1", [-1000; 300; 400; 500]%Q);
               ("cf2", [-2000; 300; 400; 500; 600]%Q)])
    as (h' & m' & Hrun & Hview & Hkeys & _ & H13).
  - vm_compute. reflexivity.
  - by apply (bool_decide_unpack _).
  - repeat constructor.
  - exists h', m'. split_and!; try done. by apply H13.
Defined.

(** C10, as the code has it: [cfCommon] returns the reference it was given,
    and the dict behind it keeps its keys; each key is bound to a list that
    did not exist before the call and that spans the common horizon (LCM + 1
    entries); no list of the caller changes its length; and when the keys
    name distinct lists, each of the caller's lists is the list it was with
    its last entry replaced by the sum of its first and last, and the new
    list of a key is its series with the last entry folded, the tail
    repeated and the last entry restored ([widen]). *)
Theorem cfCommon_rebinds_keys_to_new_lists
    (h : gmap positive obj) (d : positive) (m : list (string * list Q))
    (items : list (string * positive)) :
  view h d = Some m ->
  items_at h d = Some items ->
  NoDup (map fst m) ->
  Forall (fun kv => (2 <= length kv.2)%nat) m ->
  exists h' items',
    cfCommon d h = (h', Ok d)
    /\ items_at h' d = Some items'
    /\ map fst items' = map fst items
    /\ (forall k l', (k, l') ∈ items' ->
        (l' ∉ dom h)
        /\ exists w, series_at h' l' = Some w
                     /\ Z.of_nat (length w) = (LCM (horizons m) + 1)%Z)
    /\ (forall l v, series_at h l = Some v ->
        exists v', series_at h' l = Some v' /\ length v' = length v)
    /\ (NoDup (map snd items) ->
        (forall k l v, (k, l) ∈ items -> series_at h l = Some v ->
                       series_at h' l = Some (fold_last v))
        /\ view h' d
           = Some (map (fun kv => (kv.1, widen (LCM (horizons m)) kv.2)) m)).
Proof.
  intros Hview Hitems Hnd Hlen.
  apply view_Some in Hview as (items0 & Hd & F).
  apply items_at_Some in Hitems.
  assert (items0 = items) as -> by congruence.
  destruct (cfCommon_spec h d items m Hd F Hnd Hlen)
    as (h' & Hrun & items' & Hd' & Hkeys & _ & Hnew & _ & Hkeep & _ & Hcont).
  exists h', items'. split_and!; try done.
  - by apply items_at_Some.
  - intros k l' Hin. apply list_elem_of_lookup in Hin as [j Hj].
    destruct (Hnew j k l' ltac:(lia) Hj) as (? & w & Hw & HL).
    split; [done|]. exists w. split; [by apply series_at_Some | done].
  - intros l v Hl. apply series_at_Some in Hl.
    destruct (Hkeep _ _ Hl) as (v' & Hv' & ?). exists v'.
    split; [by apply series_at_Some | done].
  - intros Hnd2. split.
    + intros k l v Hin Hl. apply series_at_Some in Hl.
      apply series_at_Some, Hcont; try done.
      by apply (list_elem_of_fmap_2 snd items (k, l)).
    + destruct (cfCommon_contents h d items m Hd F Hnd Hnd2 Hlen)
        as (h2 & Hrun2 & Hview2).
      rewrite Hrun in Hrun2. by injection Hrun2 as <-.
Qed.

Lemma cfCommon_rebinds_keys_to_new_lists_witness :
  exists h' items',
    cfCommon 1%positive example_heap = (h', Ok 1%positive)
    /\ items_at h' 1%positive = Some items'
    /\ map fst items' = ["cf1"; "cf2"]
    /\ series_at h' 2%positive = Some [-1000; 300; 400; -1000 + 500]%Q
    /\ view h' 1%positive
       = Some [("cf1", widen 12 [-1000; 300; 400; 500]%Q);
               ("cf2", widen 12 [-2000; 300; 400; 500; 600]%Q)].
Proof.
  destruct (cfCommon_rebinds_keys_to_new_lists example_heap 1%positive
              [("cf1", [-1000; 300; 400; 500]%Q);
               ("cf2", [-2000; 300; 400; 500; 600]%Q)]
              [("cf1", 2%positive); ("cf2", 3%positive)])
    as (h' & items' & Hrun & Hitems & Hkeys & _ & _ & Hcont).
  - vm_compute. reflexivity.
  - reflexivity.
  - by apply (bool_decide_unpack _).
  - repeat constructor.
  - destruct (Hcont ltac:(by apply (bool_decide_unpack _))) as [Hfold Hview].
    exists h', items'. split_and!; try done.
    apply (Hfold "cf1" 2%positive [-1000; 300; 400; 500]%Q);
      [by apply (bool_decide_unpack _) | reflexivity].
Defined.

(** C10, literally, fails.  On the mapping of the docstring the list that
    "cf1" named (at reference 2) still has four entries after the call: it
    was not extended; and "cf1" now names a list of thirteen entries at the
    reference 4, which did not exist before the call: the series was built
    anew. *)
Lemma cfCommon_does_not_extend_in_place :
  let '(h', r) := cfCommon 1%positive example_heap in
  r = Ok 1%positive
  /\ series_at example_heap 2%positive = Some [-1000; 300; 400; 500]%Q
  /\ series_at h' 2%positive = Some [-1000; 300; 400; -500]%Q
  /\ items_at h' 1%positive = Some [("cf1", 4%positive); ("cf2", 5%positive)]
  /\ example_heap !! 4%positive = None
  /\ series_at h' 4%positive
     = Some [-1000; 300; 400; -500; 300; 400; -500; 300; 400; -500;
             300; 400; 500]%Q.
Proof. vm_compute. split_and!; reflexivity. Qed.

End UtilsClaims.

(* ===================================================================== *)
(** * Further properties *)
(* ===================================================================== *)

(** ** The reductions, once more *)

Module NpMore.
Import Np NpFacts.
Local Open Scope Q_scope.
Local Open Scope list_scope.

Lemma rmap_lookup {A B} (f : A -> result B) l ys i x :
  rmap f l = Ok ys -> l !! i = Some x ->
  exists y, ys !! i = Some y /\ f x = Ok y.
Proof.
  intros H Hi. apply rmap_Forall2 in H.
  destruct (Forall2_lookup_l _ _ _ _ _ H Hi) as (y & ? & ?). eauto.
Qed.

Lemma rmap_lookup_r {A B} (f : A -> result B) l ys i y :
  rmap f l = Ok ys -> ys !! i = Some y ->
  exists x, l !! i = Some x /\ f x = Ok y.
Proof.
  intros H Hi. apply rmap_Forall2 in H.
  destruct (Forall2_lookup_r _ _ _ _ _ H Hi) as (x & ? & ?). eauto.
Qed.

Lemma bind_Ok {A B} (r : result A) (k : A -> result B) y :
  r ≫= k = Ok y -> exists x, r = Ok x /\ k x = Ok y.
Proof. destruct r as [x|e]; [eauto | discriminate]. Qed.

Lemma nth_error_lookup {A} (l : list A) j : nth_error l j = l !! j.
Proof. revert j. induction l as [|x l IH]; intros [|j]; cbn; auto. Qed.

(** [argmax] points at the value that [max] returns. *)
Lemma argmax_from_max_from t :
  forall (l0 : list Q) i bi best,
    l0 !! bi = Some best -> length l0 = i ->
    (l0 ++ t) !! argmax_from i bi best t = Some (max_from best t).
Proof.
  induction t as [|x t IH]; intros l0 i bi best Hbi Hlen; cbn.
  - rewrite app_nil_r. done.
  - change (l0 ++ x :: t) with (l0 ++ [x] ++ t). rewrite app_assoc.
    destruct (Qgtb x best).
    + apply IH; [|rewrite length_app; cbn; lia].
      rewrite lookup_app_r by lia. by replace (i - length l0)%nat with 0%nat by lia.
    + apply IH; [|rewrite length_app; cbn; lia].
      rewrite lookup_app_l; [done|]. by eapply lookup_lt_Some.
Qed.

Lemma argmax_max l i m : argmax l = Ok i -> max l = Ok m -> l !! i = Some m.
Proof.
  destruct l as [|x t]; [discriminate|]. intros [= <-] [= <-].
  apply (argmax_from_max_from t [x] 1 0 x); done.
Qed.

Lemma argmin_from_min_from t :
  forall (l0 : list Q) i bi best,
    l0 !! bi = Some best -> length l0 = i ->
    (l0 ++ t) !! argmin_from i bi best t = Some (min_from best t).
Proof.
  induction t as [|x t IH]; intros l0 i bi best Hbi Hlen; cbn.
  - rewrite app_nil_r. done.
  - change (l0 ++ x :: t) with (l0 ++ [x] ++ t). rewrite app_assoc.
    destruct (Qgtb best x).
    + apply IH; [|rewrite length_app; cbn; lia].
      rewrite lookup_app_r by lia. by replace (i - length l0)%nat with 0%nat by lia.
    + apply IH; [|rewrite length_app; cbn; lia].
      rewrite lookup_app_l; [done|]. by eapply lookup_lt_Some.
Qed.

Lemma argmin_min l i m : argmin l = Ok i -> min l = Ok m -> l !! i = Some m.
Proof.
  destruct l as [|x t]; [discriminate|]. intros [= <-] [= <-].
  apply (argmin_from_min_from t [x] 1 0 x); done.
Qed.

Lemma argmin_total l : l <> [] -> exists i, argmin l = Ok i.
Proof. destruct l; [done|]. cbn. eauto. Qed.

Lemma max_total l : l <> [] -> exists m, max l = Ok m.
Proof. destruct l; [done|]. cbn. eauto. Qed.

Lemma min_total l : l <> [] -> exists m, min l = Ok m.
Proof. destruct l; [done|]. cbn. eauto. Qed.

Lemma argmin_lt l i : argmin l = Ok i -> (i < length l)%nat.
Proof.
  intros Hi. destruct (min_total l) as [m Hm]; [by destruct l|].
  eapply lookup_lt_Some, argmin_min; eauto.
Qed.

Lemma sub_row_length v row :
  length v = length row -> length (sub_row v row) = length row.
Proof.
  revert row. induction v as [|a v IH]; intros [|b row]; cbn; try done.
  intros [=]. f_equal. auto.
Qed.

End NpMore.

(** ** [Decision.fit]: what each criterion stores *)

Module DecisionMore.
Import Decision DecisionFacts.
Local Open Scope list_scope.

(** Whatever holds of every entry that a turn stores on the table holds of
    every entry found after [fit]. *)
Lemma for_each_entries (P : string -> label -> Q -> Prop) d0 :
  (forall dX c dec pf, same_table d0 dX -> entry dX c dec pf -> P c dec pf) ->
  forall cs d d' r,
    same_table d0 d -> for_each cs d = (d', r) ->
    (forall c dec pf, results_ d !! c = Some (dec, pf) -> P c dec pf) ->
    forall c dec pf, results_ d' !! c = Some (dec, pf) -> P c dec pf.
Proof.
  intros HP. induction cs as [|c0 cs IH]; intros d d' r Ht.
  - by intros [= <- <-].
  - cbn [for_each]. unfold act_bind.
    destruct (fit_criterion c0 d) as [d1 r1] eqn:E.
    pose proof (turn_spec _ _ _ _ E) as (Ht1 & _ & Hres).
    assert (forall c dec pf,
              (forall c dec pf, results_ d !! c = Some (dec, pf) -> P c dec pf) ->
              results_ d1 !! c = Some (dec, pf) -> P c dec pf) as Hstep.
    { intros c dec pf Hd. destruct r1 as [[]|e]; [|rewrite Hres; apply Hd].
      destruct Hres as (dec0 & pf0 & He & ->).
      destruct (decide (c0 = c)) as [->|Hne].
      - rewrite lookup_insert_eq. intros [= <- <-]. eapply HP; eauto.
      - rewrite lookup_insert_ne by done. apply Hd. }
    destruct r1 as [[]|e].
    + intros H Hd. eapply IH; [|exact H|]; [by eapply same_table_trans|].
      intros c dec pf. by apply Hstep.
    + intros [= <- <-] Hd c dec pf. by apply Hstep.
Qed.

Lemma fit_entries (P : string -> label -> Q -> Prop)
    alts_ states_ prob_ payoff_ criteria d' r :
  (forall dX c dec pf,
     same_table (init alts_ states_ prob_ payoff_ criteria) dX ->
     entry dX c dec pf -> P c dec pf) ->
  fit (init alts_ states_ prob_ payoff_ criteria) = (d', r) ->
  forall c dec pf, results_ d' !! c = Some (dec, pf) -> P c dec pf.
Proof.
  intros HP Hfit. eapply for_each_entries; [exact HP | | exact Hfit |].
  - apply same_table_refl.
  - intros c dec pf. cbn [init results_]. by rewrite lookup_empty.
Qed.

(** The fields of a table that is the one of [init]. *)
Lemma same_table_init alts_ states_ prob_ payoff_ criteria dX :
  same_table (init alts_ states_ prob_ payoff_ criteria) dX ->
  alts dX = alts_ /\ prob dX = prob_ /\ payoff dX = payoff_.
Proof. intros (_ & ? & _ & ? & ?). done. Qed.

(** A row reduction followed by [argmax]/[max]: the chosen row carries the
    value, and the value bounds the reduction of every row. *)
Lemma choice_by_rows (red : list Q -> result Q) (m : Np.matrix)
    (alts_ : list label) vs i dec pf :
  rmap red m = Ok vs -> Np.argmax vs = Ok i -> alts_ !! i = Some dec ->
  Np.max vs = Ok pf ->
  (exists row, m !! i = Some row /\ red row = Ok pf)
  /\ (forall k row, m !! k = Some row ->
      exists w, red row = Ok w /\ (w <= pf)%Q).
Proof.
  intros Hvs Hi Hdec Hpf. split.
  - pose proof (NpMore.argmax_max _ _ _ Hi Hpf) as Hv.
    destruct (NpMore.rmap_lookup_r _ _ _ _ _ Hvs Hv) as (row & ? & ?). eauto.
  - intros k row Hk.
    destruct (NpMore.rmap_lookup _ _ _ _ _ Hvs Hk) as (w & Hw & Hr).
    exists w. split; [done|]. apply NpFacts.max_spec in Hpf as [_ Hmax].
    apply Hmax, list_elem_of_In, list_elem_of_lookup. eauto.
Qed.

(** X1: the payoff that [fit] stores under "maxmax" is the greatest entry of
    the payoff matrix, and it is the greatest entry of the row of the
    alternative stored with it. *)
Theorem maxmax_entry_is_greatest_payoff
    (alts_ states_ : list label) (prob_ : list Q) (payoff_ : Np.matrix)
    (criteria : list string) (d' : t) (r : result unit)
    (dec : label) (pf : Q) :
  fit (init alts_ states_ prob_ payoff_ criteria) = (d', r) ->
  results_ d' !! "maxmax" = Some (dec, pf) ->
  (forall i row j x,
     payoff_ !! i = Some row -> row !! j = Some x -> (x <= pf)%Q)
  /\ exists i row,
       alts_ !! i = Some dec /\ payoff_ !! i = Some row
       /\ Np.max row = Ok pf.
Proof.
  intros Hfit Hres.
  refine (fit_entries
            (fun c dec pf => c = "maxmax" -> _) _ _ _ _ _ _ _ _ Hfit
            _ _ _ Hres eq_refl).
  intros dX c dec0 pf0 Ht He ->.
  inversion He as [? ? Hc Hv| | | |]; subst.
  apply same_table_init in Ht as (Ha & _ & Hp).
  unfold maxmax_choice, maxmax_value, Np.max_axis1 in *.
  rewrite Hp in *.
  apply NpMore.bind_Ok in Hv as (rows & Hrows & Hpf).
  rewrite Hrows in Hc. cbn in Hc.
  apply NpMore.bind_Ok in Hc as (i & Hi & Hdec).
  unfold alt_at in Hdec. rewrite Ha in Hdec.
  destruct (alts_ !! i) as [a|] eqn:Ea; [|discriminate]. injection Hdec as ->.
  destruct (choice_by_rows _ _ _ _ _ _ _ Hrows Hi Ea Hpf) as [(row & Hrow & Hmax) Hall].
  split; [|eauto].
  intros k row' j x Hk Hx. destruct (Hall k row' Hk) as (w & Hw & Hle).
  apply (Qle_trans _ w); [|done].
  apply NpFacts.max_spec in Hw as [_ Hw]. apply Hw.
  apply list_elem_of_In, list_elem_of_lookup. eauto.
Qed.

Lemma maxmax_entry_is_greatest_payoff_witness :
  let d' := fst (fit (Fixture.table default_criteria)) in
  results_ d' !! "maxmax" = Some (LStr "$9", 625%Q)
  /\ (forall i row j x,
        Fixture.payoff !! i = Some row -> row !! j = Some x -> (x <= 625)%Q).
Proof.
  cbv zeta. split; [vm_compute; reflexivity|].
  apply (maxmax_entry_is_greatest_payoff
           Fixture.alts Fixture.states Fixture.prob Fixture.payoff
           default_criteria (fst (fit (Fixture.table default_criteria)))
           (Ok tt) (LStr "$9") 625%Q); vm_compute; reflexivity.
Defined.

(** X2: the payoff that [fit] stores under "maxmin" is the least entry of
    the row of the alternative stored with it, and no row has a greater
    least entry. *)
Theorem maxmin_entry_is_best_worst_case
    (alts_ states_ : list label) (prob_ : list Q) (payoff_ : Np.matrix)
    (criteria : list string) (d' : t) (r : result unit)
    (dec : label) (pf : Q) :
  fit (init alts_ states_ prob_ payoff_ criteria) = (d', r) ->
  results_ d' !! "maxmin" = Some (dec, pf) ->
  (forall i row, payoff_ !! i = Some row ->
     exists w, Np.min row = Ok w /\ (w <= pf)%Q)
  /\ exists i row,
       alts_ !! i = Some dec /\ payoff_ !! i = Some row
       /\ Np.min row = Ok pf.
Proof.
  intros Hfit Hres.
  refine (fit_entries
            (fun c dec pf => c = "maxmin" -> _) _ _ _ _ _ _ _ _ Hfit
            _ _ _ Hres eq_refl).
  intros dX c dec0 pf0 Ht He ->.
  inversion He as [|? ? Hc Hv | | |]; subst.
  apply same_table_init in Ht as (Ha & _ & Hp).
  unfold maxmin_choice, maxmin_value, Np.min_axis1 in *.
  rewrite Hp in *.
  apply NpMore.bind_Ok in Hv as (rows & Hrows & Hpf).
  rewrite Hrows in Hc. cbn in Hc.
  apply NpMore.bind_Ok in Hc as (i & Hi & Hdec).
  unfold alt_at in Hdec. rewrite Ha in Hdec.
  destruct (alts_ !! i) as [a|] eqn:Ea; [|discriminate]. injection Hdec as ->.
  destruct (choice_by_rows _ _ _ _ _ _ _ Hrows Hi Ea Hpf) as [(row & Hrow & Hmin) Hall].
  split; [done | eauto].
Qed.

Lemma maxmin_entry_is_best_worst_case_witness :
  let d' := fst (fit (Fixture.table default_criteria)) in
  results_ d' !! "maxmin" = Some (LStr "$7", 225%Q)
  /\ exists i row,
       Fixture.alts !! i = Some (LStr "$7") /\ Fixture.payoff !! i = Some row
       /\ Np.min row = Ok 225%Q.
Proof.
  cbv zeta. split; [vm_compute; reflexivity|].
  apply (maxmin_entry_is_best_worst_case
           Fixture.alts Fixture.states Fixture.prob Fixture.payoff
           default_criteria (fst (fit (Fixture.table default_criteria)))
           (Ok tt) (LStr "$7") 225%Q); vm_compute; reflexivity.
Defined.

(** X4: the payoff that [fit] stores under "maxlik" is the greatest entry
    of the column of a state that no state exceeds in probability, and the
    alternative stored with it has that entry. *)
Theorem maxlik_entry_is_best_in_likeliest_state
    (alts_ states_ : list label) (prob_ : list Q) (payoff_ : Np.matrix)
    (criteria : list string) (d' : t) (r : result unit)
    (dec : label) (pf : Q) :
  fit (init alts_ states_ prob_ payoff_ criteria) = (d', r) ->
  results_ d' !! "maxlik" = Some (dec, pf) ->
  exists j pj col i,
    prob_ !! j = Some pj
    /\ (forall k p, prob_ !! k = Some p -> (p <= pj)%Q)
    /\ Np.column j payoff_ = Ok col
    /\ (forall k x, col !! k = Some x -> (x <= pf)%Q)
    /\ alts_ !! i = Some dec
    /\ col !! i = Some pf.
Proof.
  intros Hfit Hres.
  refine (fit_entries
            (fun c dec pf => c = "maxlik" -> _) _ _ _ _ _ _ _ _ Hfit
            _ _ _ Hres eq_refl).
  intros dX c dec0 pf0 Ht He ->.
  inversion He as [| | |? ? Hc Hv|]; subst.
  apply same_table_init in Ht as (Ha & Hpr & Hp).
  unfold maxlik_choice, maxlik_value, likely_column in *.
  rewrite Hp, Hpr in *.
  apply NpMore.bind_Ok in Hv as (col & Hcol & Hpf).
  rewrite Hcol in Hc. cbn in Hc.
  apply NpMore.bind_Ok in Hcol as (j & Hj & Hcol).
  apply NpMore.bind_Ok in Hc as (i & Hi & Hdec).
  unfold alt_at in Hdec. rewrite Ha in Hdec.
  destruct (alts_ !! i) as [a|] eqn:Ea; [|discriminate]. injection Hdec as ->.
  destruct (NpMore.max_total prob_) as [pj Hpj]; [by destruct prob_|].
  exists j, pj, col, i. split_and!; try done.
  - by eapply NpMore.argmax_max.
  - intros k p Hk. apply NpFacts.max_spec in Hpj as [_ Hmax].
    apply Hmax, list_elem_of_In, list_elem_of_lookup. eauto.
  - intros k x Hk. apply NpFacts.max_spec in Hpf as [_ Hmax].
    apply Hmax, list_elem_of_In, list_elem_of_lookup. eauto.
  - by eapply NpMore.argmax_max.
Qed.

Lemma maxlik_entry_is_best_in_likeliest_state_witness :
  let d' := fst (fit (Fixture.table default_criteria)) in
  results_ d' !! "maxlik" = Some (LStr "$9", 625%Q)
  /\ exists j pj col i,
       Fixture.prob !! j = Some pj
       /\ (forall k p, Fixture.prob !! k = Some p -> (p <= pj)%Q)
       /\ Np.column j Fixture.payoff = Ok col
       /\ (forall k x, col !! k = Some x -> (x <= 625)%Q)
       /\ Fixture.alts !! i = Some (LStr "$9")
       /\ col !! i = Some 625%Q.
Proof.
  cbv zeta. split; [vm_compute; reflexivity|].
  apply (maxlik_entry_is_best_in_likeliest_state
           Fixture.alts Fixture.states Fixture.prob Fixture.payoff
           default_criteria (fst (fit (Fixture.table default_criteria)))
           (Ok tt) (LStr "$9") 625%Q); vm_compute; reflexivity.
Defined.

End DecisionMore.

(** ** [Decision.fit]: the entries and the attributes it leaves *)

Module DecisionStored.
Import Decision DecisionFacts.
Local Open Scope list_scope.

(** What every turn preserves holds after the loop, completed or not. *)
Lemma for_each_inv (Inv : t -> Prop) :
  (forall c d d1 r1, Inv d -> fit_criterion c d = (d1, r1) -> Inv d1) ->
  forall cs d d' r, Inv d -> for_each cs d = (d', r) -> Inv d'.
Proof.
  intros Hstep. induction cs as [|c cs IH]; intros d d' r Hd.
  - by intros [= <- <-].
  - cbn [for_each]. unfold act_bind.
    destruct (fit_criterion c d) as [d1 [[]|e]] eqn:E.
    + apply IH. by eapply Hstep.
    + intros [= <- <-]. by eapply Hstep.
Qed.

Lemma regret_matrix_same_table d0 d :
  same_table d0 d -> regret_matrix d = regret_matrix d0.
Proof. intros (_ & _ & _ & _ & Hp). unfold regret_matrix. by rewrite Hp. Qed.

Lemma maxlik_value_same_table d0 d :
  same_table d0 d -> maxlik_value d = maxlik_value d0.
Proof.
  intros (_ & _ & _ & Hpr & Hp). unfold maxlik_value, likely_column.
  by rewrite Hp, Hpr.
Qed.

(** The turns and the attribute [regret_]: only the turn of "regret"
    assigns it, as soon as the matrix is computed. *)
Lemma turn_regret_ c d d' r :
  fit_criterion c d = (d', r) ->
  (c <> "regret" -> regret_ d' = regret_ d)
  /\ (c = "regret" ->
      match regret_matrix d with
      | Ok reg => regret_ d' = Some reg
      | Raise _ => regret_ d' = regret_ d
      end).
Proof.
  destruct (supported c) eqn:Hs.
  - apply supported_cases in Hs.
    destruct Hs as [-> | [-> | [-> | [-> | ->]]]].
    + rewrite fit_maxmax.
      destruct (maxmax_choice d); [destruct (maxmax_value d)|];
        intros [= <- <-]; (split; [intros _; by destruct d | done]).
    + rewrite fit_maxmin.
      destruct (maxmin_choice d); [destruct (maxmin_value d)|];
        intros [= <- <-]; (split; [intros _; by destruct d | done]).
    + rewrite fit_regret.
      destruct (regret_matrix d); cbn zeta;
        [destruct (regret_choice _); [destruct (regret_value _)|]|];
        intros [= <- <-]; (split; [done | intros _; by destruct d]).
    + rewrite fit_maxlik.
      destruct (maxlik_choice d); [destruct (maxlik_value d)|];
        intros [= <- <-]; (split; [intros _; by destruct d | done]).
    + rewrite fit_ev.
      destruct (dotprod_of d) as [dp|];
        [destruct (ev_choice dp d);
           [destruct (ev_value dp d); [cbn zeta; destruct (mle_pf_ d)|]|]|];
        intros [= <- <-]; (split; [intros _; by destruct d | done]).
  - rewrite fit_unknown by done. intros [= <- <-]. split; [done|].
    intros ->. done.
Qed.

(** The turn of "maxlik" and the attribute [mle_pf_]: assigned when the
    turn completes, and left alone when it fails. *)
Lemma turn_mle_pf_ d d' r :
  fit_criterion "maxlik" d = (d', r) ->
  match r with
  | Ok _ => exists pf, maxlik_value d = Ok pf /\ mle_pf_ d' = Some pf
  | Raise _ => mle_pf_ d' = mle_pf_ d
  end.
Proof.
  rewrite fit_maxlik.
  destruct (maxlik_choice d); [destruct (maxlik_value d) as [pf|] eqn:E|];
    intros [= <- <-]; try by destruct d.
  exists pf. split; [done | by destruct d].
Qed.

(** The rows of a regret matrix, the alternative chosen on it and the
    payoff stored with it. *)
Lemma regret_rows reg d dec pf :
  regret_choice (set_regret_ reg d) = Ok dec ->
  regret_value (set_regret_ reg d) = Ok pf ->
  (forall i row, reg !! i = Some row ->
     exists w, Np.max row = Ok w /\ (pf <= w)%Q)
  /\ exists i row,
       alts d !! i = Some dec /\ reg !! i = Some row /\ Np.max row = Ok pf.
Proof.
  intros Hc Hv.
  assert (regret_ (set_regret_ reg d) = Some reg) as Hr by (by destruct d).
  assert (alts (set_regret_ reg d) = alts d) as Ha by (by destruct d).
  unfold regret_choice, regret_value in *. rewrite Hr in *. cbn [attr] in *.
  cbn in Hc, Hv. unfold Np.max_axis1 in *.
  apply NpMore.bind_Ok in Hv as (rows & Hrows & Hpf).
  rewrite Hrows in Hc. cbn in Hc.
  apply NpMore.bind_Ok in Hc as (i & Hi & Hdec).
  unfold alt_at in Hdec. rewrite Ha in Hdec.
  destruct (alts d !! i) as [a|] eqn:Ea; [|discriminate]. injection Hdec as ->.
  pose proof (NpMore.argmin_min _ _ _ Hi Hpf) as Hv.
  destruct (NpMore.rmap_lookup_r _ _ _ _ _ Hrows Hv) as (row & Hrow & Hmax).
  split; [|eauto].
  intros k row' Hk.
  destruct (NpMore.rmap_lookup _ _ _ _ _ Hrows Hk) as (w & Hw & Hr').
  exists w. split; [done|]. apply NpFacts.min_spec in Hpf as [_ Hmin].
  apply Hmin, list_elem_of_In, list_elem_of_lookup. eauto.
Qed.

(** X3: the entry that [fit] leaves under "regret" agrees with the matrix
    that it leaves in [regret_]: the payoff is the greatest entry of the row
    of the alternative stored with it, and no row of [regret_] has a smaller
    greatest entry. *)
Theorem regret_entry_is_least_worst_regret
    (alts_ states_ : list label) (prob_ : list Q) (payoff_ : Np.matrix)
    (criteria : list string) (d' : t) (r : result unit)
    (dec : label) (pf : Q) :
  fit (init alts_ states_ prob_ payoff_ criteria) = (d', r) ->
  results_ d' !! "regret" = Some (dec, pf) ->
  exists reg,
    regret_ d' = Some reg
    /\ (forall i row, reg !! i = Some row ->
        exists w, Np.max row = Ok w /\ (pf <= w)%Q)
    /\ (exists i row,
          alts_ !! i = Some dec /\ reg !! i = Some row
          /\ Np.max row = Ok pf).
Proof.
  intros Hfit Hres.
  set (d0 := init alts_ states_ prob_ payoff_ criteria) in *.
  pose (Inv := fun d : t =>
    same_table d0 d
    /\ forall dec pf, results_ d !! "regret" = Some (dec, pf) ->
       exists reg,
         regret_matrix d0 = Ok reg /\ regret_ d = Some reg
         /\ (forall i row, reg !! i = Some row ->
             exists w, Np.max row = Ok w /\ (pf <= w)%Q)
         /\ (exists i row,
               alts_ !! i = Some dec /\ reg !! i = Some row
               /\ Np.max row = Ok pf)).
  assert (Inv d') as [_ Hd'].
  { refine (for_each_inv Inv _ _ _ _ _ _ Hfit).
    - intros c d d1 r1 [Ht HI] E.
      pose proof (turn_spec _ _ _ _ E) as (Ht1 & _ & Hr).
      pose proof (turn_regret_ _ _ _ _ E) as [Hne Heq].
      pose proof (regret_matrix_same_table _ _ Ht) as Hm.
      assert (forall dec pf, results_ d !! "regret" = Some (dec, pf) ->
                exists reg,
                  regret_matrix d0 = Ok reg /\ regret_ d1 = Some reg
                  /\ (forall i row, reg !! i = Some row ->
                      exists w, Np.max row = Ok w /\ (pf <= w)%Q)
                  /\ (exists i row,
                        alts_ !! i = Some dec /\ reg !! i = Some row
                        /\ Np.max row = Ok pf)) as Hold.
      { intros dec0 pf0 H0.
        destruct (HI _ _ H0) as (reg & Hreg & Hf & Hrows).
        exists reg. split; [done|]. split; [|done].
        destruct (decide (c = "regret")) as [->|Hc].
        - specialize (Heq eq_refl). rewrite Hm, Hreg in Heq. done.
        - by rewrite Hne. }
      split; [by eapply same_table_trans|].
      destruct r1 as [[]|e]; [|by rewrite Hr].
      destruct Hr as (dec0 & pf0 & He & ->).
      intros dec1 pf1. destruct (decide (c = "regret")) as [->|Hc].
      + rewrite lookup_insert_eq. intros [= <- <-].
        inversion He as [| |reg ? ? Hreg Hch Hv| |]; subst.
        specialize (Heq eq_refl). rewrite Hreg in Heq.
        exists reg. split; [by rewrite <- Hm|]. split; [done|].
        destruct (regret_rows _ _ _ _ Hch Hv) as [H1 H2].
        split; [done|].
        destruct Ht as (_ & Ha & _). rewrite Ha in H2. done.
      + rewrite lookup_insert_ne by done. apply Hold.
    - split; [apply same_table_refl|]. intros dec0 pf0. cbn [init results_ d0].
      unfold d0. cbn [init results_]. by rewrite lookup_empty. }
  destruct (Hd' _ _ Hres) as (reg & _ & Hf & H1 & H2). eauto.
Qed.

Lemma regret_entry_is_least_worst_regret_witness :
  let d' := fst (fit (Fixture.table default_criteria)) in
  results_ d' !! "regret" = Some (LStr "$8", 25%Q)
  /\ exists reg,
       regret_ d' = Some reg
       /\ (forall i row, reg !! i = Some row ->
           exists w, Np.max row = Ok w /\ (25 <= w)%Q)
       /\ (exists i row,
             Fixture.alts !! i = Some (LStr "$8") /\ reg !! i = Some row
             /\ Np.max row = Ok 25%Q).
Proof.
  cbv zeta. split; [vm_compute; reflexivity|].
  apply (regret_entry_is_least_worst_regret
           Fixture.alts Fixture.states Fixture.prob Fixture.payoff
           default_criteria (fst (fit (Fixture.table default_criteria)))
           (Ok tt) (LStr "$8") 25%Q); vm_compute; reflexivity.
Defined.

(** X5: the payoff that [fit] leaves under "ev" is the payoff of the
    maximum-likelihood criterion: when "ev" has an entry, "maxlik" has one
    with the same payoff, which is also the value of [mle_pf_]; and the
    alternative stored under "ev" is one of the alternatives of the table. *)
Theorem ev_entry_carries_maxlik_payoff
    (alts_ states_ : list label) (prob_ : list Q) (payoff_ : Np.matrix)
    (criteria : list string) (d' : t) (r : result unit)
    (dec : label) (pf : Q) :
  fit (init alts_ states_ prob_ payoff_ criteria) = (d', r) ->
  results_ d' !! "ev" = Some (dec, pf) ->
  (exists dec', results_ d' !! "maxlik" = Some (dec', pf))
  /\ mle_pf_ d' = Some pf
  /\ exists i, alts_ !! i = Some dec.
Proof.
  intros Hfit Hres.
  set (d0 := init alts_ states_ prob_ payoff_ criteria) in *.
  pose (Inv := fun d : t =>
    same_table d0 d
    /\ (forall v, mle_pf_ d = Some v ->
        maxlik_value d0 = Ok v
        /\ exists dec', results_ d !! "maxlik" = Some (dec', v))
    /\ (forall dec pf, results_ d !! "ev" = Some (dec, pf) ->
        mle_pf_ d = Some pf /\ exists i, alts_ !! i = Some dec)).
  assert (Inv d') as (_ & Hm' & He').
  { refine (for_each_inv Inv _ _ _ _ _ _ Hfit).
    - intros c d d1 r1 (Ht & Hmle & Hev) E.
      pose proof (turn_spec _ _ _ _ E) as (Ht1 & Hkeep & Hr).
      pose proof (maxlik_value_same_table _ _ Ht) as Hval.
      split; [by eapply same_table_trans|].
      destruct (decide (c = "maxlik")) as [->|Hc].
      + pose proof (turn_mle_pf_ _ _ _ E) as Hset.
        destruct r1 as [[]|e].
        * destruct Hset as (pf1 & Hv1 & Hs1).
          destruct Hr as (dec0 & pf0 & Hent & ->).
          inversion Hent as [| | |? ? _ Hv0|]; subst.
          assert (pf0 = pf1) as -> by congruence.
          split.
          -- intros v. rewrite Hs1. intros [= <-].
             split; [by rewrite <- Hval|].
             exists dec0. by rewrite lookup_insert_eq.
          -- intros dec1 pf2. rewrite lookup_insert_ne by done. intros H.
             destruct (Hev _ _ H) as [Hp Hi]. split; [|done].
             destruct (Hmle _ Hp) as [Hv _]. rewrite Hs1. congruence.
        * rewrite Hset, Hr. done.
      + rewrite (Hkeep Hc). destruct r1 as [[]|e]; [|by rewrite Hr].
        destruct Hr as (dec0 & pf0 & Hent & ->). split.
        * intros v Hv. destruct (Hmle _ Hv) as [? [dec1 H1]].
          split; [done|]. exists dec1. by rewrite lookup_insert_ne.
        * intros dec1 pf1. destruct (decide (c = "ev")) as [->|Hc'].
          -- rewrite lookup_insert_eq. intros [= <- <-].
             inversion Hent as [| | | |dp ? ? _ Hch _ Hp]; subst.
             split; [done|].
             unfold ev_choice in Hch.
             apply NpMore.bind_Ok in Hch as (i & _ & Hi).
             unfold alt_at in Hi. destruct Ht as (_ & Ha & _).
             rewrite Ha in Hi. cbn [init alts d0] in Hi. unfold d0 in Hi.
             cbn [init alts] in Hi.
             destruct (alts_ !! i) as [a|] eqn:Ea; [|discriminate].
             injection Hi as ->. eauto.
          -- rewrite lookup_insert_ne by done. apply Hev.
    - split; [apply same_table_refl|]. unfold d0. cbn [init mle_pf_ results_].
      split; [done|]. intros ? ?. by rewrite lookup_empty. }
  destruct (He' _ _ Hres) as [Hp Hi].
  destruct (Hm' _ Hp) as [_ Hl]. done.
Qed.

Lemma ev_entry_carries_maxlik_payoff_witness :
  let d' := fst (fit (Fixture.table default_criteria)) in
  results_ d' !! "ev" = Some (LStr "$8", 625%Q)
  /\ results_ d' !! "maxlik" = Some (LStr "$9", 625%Q)
  /\ mle_pf_ d' = Some 625%Q.
Proof.
  cbv zeta.
  destruct (ev_entry_carries_maxlik_payoff
              Fixture.alts Fixture.states Fixture.prob Fixture.payoff
              default_criteria (fst (fit (Fixture.table default_criteria)))
              (Ok tt) (LStr "$8") 625%Q) as (_ & Hm & _);
    [vm_compute; reflexivity | vm_compute; reflexivity |].
  split; [vm_compute; reflexivity|]. split; [vm_compute; reflexivity|].
  exact Hm.
Defined.

End DecisionStored.

(** ** [Decision.fit]: when it completes, and what it leaves alone *)

Module DecisionRuns.
Import Decision DecisionFacts.
Local Open Scope list_scope.

(** [fit] never assigns the attribute [regret] that [__init__] creates: the
    regret matrix goes to [regret_]. *)
Lemma turn_regret_field c d d' r :
  fit_criterion c d = (d', r) -> regret d' = regret d.
Proof.
  destruct (supported c) eqn:Hs.
  - apply supported_cases in Hs.
    destruct Hs as [-> | [-> | [-> | [-> | ->]]]].
    + rewrite fit_maxmax.
      destruct (maxmax_choice d); [destruct (maxmax_value d)|];
        intros [= <- <-]; by destruct d.
    + rewrite fit_maxmin.
      destruct (maxmin_choice d); [destruct (maxmin_value d)|];
        intros [= <- <-]; by destruct d.
    + rewrite fit_regret.
      destruct (regret_matrix d); cbn zeta;
        [destruct (regret_choice _); [destruct (regret_value _)|]|];
        intros [= <- <-]; by destruct d.
    + rewrite fit_maxlik.
      destruct (maxlik_choice d); [destruct (maxlik_value d)|];
        intros [= <- <-]; by destruct d.
    + rewrite fit_ev.
      destruct (dotprod_of d) as [dp|];
        [destruct (ev_choice dp d);
           [destruct (ev_value dp d); [cbn zeta; destruct (mle_pf_ d)|]|]|];
        intros [= <- <-]; by destruct d.
  - rewrite fit_unknown by done. by intros [= <- <-].
Qed.

Lemma for_each_regret_field cs d d' r :
  for_each cs d = (d', r) -> regret d' = regret d.
Proof.
  revert d. induction cs as [|c cs IH]; intros d.
  - by intros [= <- <-].
  - cbn [for_each]. unfold act_bind.
    destruct (fit_criterion c d) as [d1 [[]|e]] eqn:E;
      apply turn_regret_field in E.
    + intros H. apply IH in H. congruence.
    + intros [= <- <-]. done.
Qed.

(** X6: [fit] reads the table and never writes it: whatever the criteria
    and the outcome, the criteria list, the labels, the probabilities and
    the payoff matrix are the ones it found, and the attribute [regret]
    that [__init__] set to [None] is still [None]. *)
Theorem fit_leaves_table_untouched
    (alts_ states_ : list label) (prob_ : list Q) (payoff_ : Np.matrix)
    (criteria : list string) (d' : t) (r : result unit) :
  fit (init alts_ states_ prob_ payoff_ criteria) = (d', r) ->
  crit d' = criteria /\ alts d' = alts_ /\ states d' = states_
  /\ prob d' = prob_ /\ payoff d' = payoff_ /\ regret d' = None.
Proof.
  intros Hfit. pose proof (for_each_same_table _ _ _ _ Hfit) as (?&?&?&?&?).
  pose proof (for_each_regret_field _ _ _ _ Hfit). done.
Qed.

Lemma fit_leaves_table_untouched_witness :
  let d' := fst (fit (Fixture.table ["regret"; "median"])) in
  payoff d' = Fixture.payoff /\ regret d' = None
  /\ is_Some (regret_ d').
Proof.
  cbv zeta.
  destruct (fit_leaves_table_untouched
              Fixture.alts Fixture.states Fixture.prob Fixture.payoff
              ["regret"; "median"]
              (fst (fit (Fixture.table ["regret"; "median"])))
              (Raise (unknown_criterion "median")))
    as (_ & _ & _ & _ & Hp & Hr); [vm_compute; reflexivity|].
  split; [exact Hp|]. split; [exact Hr|]. vm_compute. eauto.
Defined.

(** The names found in [results_] were requested and are known. *)
Lemma for_each_keys cs d d' r c :
  for_each cs d = (d', r) -> is_Some (results_ d' !! c) ->
  is_Some (results_ d !! c) \/ (In c cs /\ supported c = true).
Proof.
  revert d. induction cs as [|c0 cs IH]; intros d.
  - intros [= <- <-]. auto.
  - cbn [for_each]. unfold act_bind.
    destruct (fit_criterion c0 d) as [d1 r1] eqn:E.
    pose proof (turn_spec _ _ _ _ E) as (_ & _ & Hres).
    assert (is_Some (results_ d1 !! c) ->
            is_Some (results_ d !! c) \/ (c = c0 /\ supported c = true))
      as Hstep.
    { destruct r1 as [[]|e]; [|rewrite Hres; auto].
      destruct Hres as (dec & pf & He & ->).
      destruct (decide (c0 = c)) as [->|Hne].
      - intros _. right. split; [done|]. by inversion He.
      - rewrite lookup_insert_ne by done. auto. }
    destruct r1 as [[]|e].
    + intros H Hc. destruct (IH _ H Hc) as [H1|[? ?]].
      * destruct (Hstep H1) as [?|[-> ?]]; [auto|]. right. split; [by left|done].
      * right. split; [by right|done].
    + intros [= <- <-] Hc.
      destruct (Hstep Hc) as [?|[-> ?]]; [auto|]. right. split; [by left|done].
Qed.

(** X7: [results_] holds entries for requested criteria only; after a
    [fit] that completed it holds one for every requested criterion. *)
Theorem results_hold_the_requested_criteria
    (alts_ states_ : list label) (prob_ : list Q) (payoff_ : Np.matrix)
    (criteria : list string) (d' : t) (r : result unit) :
  fit (init alts_ states_ prob_ payoff_ criteria) = (d', r) ->
  (forall c, is_Some (results_ d' !! c) ->
             In c criteria /\ supported c = true)
  /\ (r = Ok tt -> forall c, In c criteria -> is_Some (results_ d' !! c)).
Proof.
  intros Hfit. split.
  - intros c Hc. destruct (for_each_keys _ _ _ _ _ Hfit Hc) as [H|H]; [|done].
    cbn [init results_] in H. rewrite lookup_empty in H. by destruct H.
  - intros ->. by eapply for_each_stores.
Qed.

Lemma results_hold_the_requested_criteria_witness :
  let d' := fst (fit (Fixture.table ["maxmin"; "ev"; "maxmax"])) in
  (forall c, is_Some (results_ d' !! c) ->
             In c ["maxmin"; "ev"; "maxmax"] /\ supported c = true)
  /\ results_ d' !! "maxmax" = None.
Proof.
  cbv zeta. split; [|vm_compute; reflexivity].
  apply (results_hold_the_requested_criteria
           Fixture.alts Fixture.states Fixture.prob Fixture.payoff
           ["maxmin"; "ev"; "maxmax"]
           (fst (fit (Fixture.table ["maxmin"; "ev"; "maxmax"])))
           (Raise (AttributeError "mle_pf_"))).
  vm_compute. reflexivity.
Defined.

End DecisionRuns.

Module DecisionTotal.
Import Decision DecisionFacts.
Local Open Scope list_scope.

(** A row reduction that succeeds on non-empty rows, then a choice of row. *)
Lemma rows_choice_total (red : list Q -> result Q)
    (arg : list Q -> result nat) (m : Np.matrix) (alts_ : list label) :
  (forall row, row <> [] -> is_ok (red row) = true) ->
  (forall vs, vs <> [] -> exists i, arg vs = Ok i /\ (i < length vs)%nat) ->
  m <> [] -> Forall (fun row => row <> []) m -> length alts_ = length m ->
  exists vs i l,
    rmap red m = Ok vs /\ vs <> [] /\ arg vs = Ok i /\ alts_ !! i = Some l.
Proof.
  intros Hred Harg Hne Hrows Hlen.
  destruct (rmap_total red m) as [vs Hvs].
  { eapply Forall_impl; [exact Hrows|]. cbn. auto. }
  pose proof (rmap_length _ _ _ Hvs) as Hl.
  assert (vs <> []) as Hvs_ne.
  { intros ->. destruct m; [done | discriminate]. }
  destruct (Harg vs Hvs_ne) as (i & Hi & Hlt).
  destruct (alts_ !! i) as [l|] eqn:El.
  - exists vs, i, l. done.
  - apply lookup_ge_None in El. lia.
Qed.

Lemma argmax_ok vs :
  vs <> [] -> exists i, Np.argmax vs = Ok i /\ (i < length vs)%nat.
Proof.
  intros H. destruct (NpFacts.argmax_total vs H) as [i Hi].
  exists i. split; [done | by apply NpFacts.argmax_lt].
Qed.

Lemma argmin_ok vs :
  vs <> [] -> exists i, Np.argmin vs = Ok i /\ (i < length vs)%nat.
Proof.
  intros H. destruct (NpMore.argmin_total vs H) as [i Hi].
  exists i. split; [done | by apply NpMore.argmin_lt].
Qed.

Lemma max_ok row : row <> [] -> is_ok (Np.max row) = true.
Proof. by destruct row. Qed.

Lemma min_ok row : row <> [] -> is_ok (Np.min row) = true.
Proof. by destruct row. Qed.

Lemma column_total j (m : Np.matrix) n :
  Forall (fun row => length row = n) m -> (j < n)%nat ->
  exists col, Np.column j m = Ok col /\ length col = length m.
Proof.
  intros Hm Hj. destruct (rmap_total
    (fun row => match nth_error row j with
                | Some x => Ok x | None => Raise IndexError end) m)
    as [col Hcol].
  { eapply Forall_impl; [exact Hm|]. cbn. intros row Hrow.
    rewrite NpMore.nth_error_lookup.
    destruct (row !! j) eqn:E; [done|]. apply lookup_ge_None in E. lia. }
  exists col. split; [done | by eapply rmap_length].
Qed.

Lemma max_axis0_total (m : Np.matrix) n :
  m <> [] -> Forall (fun row => length row = n) m ->
  exists cols, Np.max_axis0 m = Ok cols /\ length cols = n.
Proof.
  intros Hne Hm. destruct m as [|row0 m']; [done|]. unfold Np.max_axis0.
  assert (length row0 = n) as Hn by (by inversion Hm).
  destruct (rmap_total
              (fun j => c ← Np.column j (row0 :: m'); Np.max c)
              (seq 0 (length row0))) as [cols Hcols].
  { apply Forall_seq. intros j Hj.
    destruct (column_total j (row0 :: m') n Hm) as (col & -> & Hlen); [lia|].
    cbn. destruct col; [discriminate | done]. }
  exists cols. split; [done|].
  apply rmap_length in Hcols. by rewrite Hcols, length_seq.
Qed.

(** The shape on which every criterion is computed: at least one row and
    one column, a label per row and a probability per column. *)
Lemma well_formed_rows d :
  well_formed d -> prob d <> [] -> Forall (fun row => row <> []) (payoff d).
Proof.
  intros (_ & _ & Hrows) Hp. eapply Forall_impl; [exact Hrows|].
  cbn. intros row Hlen ->. by destruct (prob d).
Qed.

(** On such a table a turn for a known criterion completes, the turn for
    "ev" provided that [mle_pf_] is there. *)
Lemma turn_total c d :
  well_formed d -> prob d <> [] -> supported c = true ->
  (c = "ev" -> is_Some (mle_pf_ d)) ->
  exists d', fit_criterion c d = (d', Ok tt).
Proof.
  intros Hwf Hp Hs Hev. pose proof (well_formed_rows d Hwf Hp) as Hrows.
  destruct Hwf as (Hne & Hlen & Hrect).
  apply supported_cases in Hs. destruct Hs as [-> | [-> | [-> | [-> | ->]]]].
  - destruct (rows_choice_total Np.max Np.argmax (payoff d) (alts d)
                max_ok argmax_ok Hne Hrows Hlen)
      as (vs & i & l & Hvs & Hvne & Hi & Hl).
    destruct (NpMore.max_total vs Hvne) as [v Hv].
    rewrite fit_maxmax. unfold maxmax_choice, maxmax_value, Np.max_axis1, alt_at.
    rewrite Hvs. cbn. rewrite Hi. cbn. rewrite Hl, Hv. eauto.
  - destruct (rows_choice_total Np.min Np.argmax (payoff d) (alts d)
                min_ok argmax_ok Hne Hrows Hlen)
      as (vs & i & l & Hvs & Hvne & Hi & Hl).
    destruct (NpMore.max_total vs Hvne) as [v Hv].
    rewrite fit_maxmin. unfold maxmin_choice, maxmin_value, Np.min_axis1, alt_at.
    rewrite Hvs. cbn. rewrite Hi. cbn. rewrite Hl, Hv. eauto.
  - destruct (max_axis0_total (payoff d) (length (prob d)) Hne Hrect)
      as (cols & Hcols & Hclen).
    set (reg := Np.broadcast_sub cols (payoff d)).
    assert (reg <> []) as Hrne.
    { unfold reg, Np.broadcast_sub. by destruct (payoff d). }
    assert (Forall (fun row => row <> []) reg) as Hrrows.
    { unfold reg, Np.broadcast_sub. apply Forall_forall. intros row Hin.
      apply list_elem_of_In, in_map_iff in Hin as (row0 & <- & Hin0).
      apply list_elem_of_In in Hin0.
      rewrite Forall_forall in Hrect. specialize (Hrect _ Hin0).
      intros E. apply (f_equal length) in E.
      rewrite NpMore.sub_row_length in E by congruence.
      cbn in E. destruct (prob d); [done | cbn in *; lia]. }
    assert (length (alts d) = length reg) as Hrlen.
    { unfold reg, Np.broadcast_sub. by rewrite length_map. }
    destruct (rows_choice_total Np.max Np.argmin reg (alts d)
                max_ok argmin_ok Hrne Hrrows Hrlen)
      as (vs & i & l & Hvs & Hvne & Hi & Hl).
    destruct (NpMore.min_total vs Hvne) as [v Hv].
    rewrite fit_regret. unfold regret_matrix. rewrite Hcols. cbn [mbind result_bind rbind].
    fold reg. cbn zeta.
    assert (regret_choice (set_regret_ reg d) = Ok l) as ->.
    { unfold regret_choice, Np.max_axis1, alt_at. destruct d; cbn in *.
      rewrite Hvs. cbn. rewrite Hi. cbn. by rewrite Hl. }
    assert (regret_value (set_regret_ reg d) = Ok v) as ->.
    { unfold regret_value, Np.max_axis1. destruct d; cbn in *.
      rewrite Hvs. cbn. done. }
    eauto.
  - destruct (argmax_ok (prob d) Hp) as (j & Hj & Hjlt).
    destruct (column_total j (payoff d) (length (prob d)) Hrect Hjlt)
      as (col & Hcol & Hcl).
    assert (col <> []) as Hcne.
    { intros ->. destruct (payoff d); [done | discriminate]. }
    destruct (argmax_ok col Hcne) as (i & Hi & Hilt).
    destruct (NpMore.max_total col Hcne) as [v Hv].
    destruct (alts d !! i) as [l|] eqn:El;
      [|apply lookup_ge_None in El; lia].
    rewrite fit_maxlik. unfold maxlik_choice, maxlik_value, likely_column, alt_at.
    rewrite Hj. cbn. rewrite Hcol. cbn. rewrite Hi. cbn. rewrite El, Hv. eauto.
  - destruct (DecisionEvClaims.ev_ready d) as (dp & dec & pf & E0 & E1 & E2).
    { done. }
    destruct (Hev eq_refl) as [v Hm].
    rewrite fit_ev, E0, E1, E2. cbn zeta. rewrite Hm. eauto.
Qed.

Lemma turn_well_formed c d d' r :
  fit_criterion c d = (d', r) -> well_formed d -> prob d <> [] ->
  well_formed d' /\ prob d' <> [].
Proof.
  intros E Hwf Hp. apply turn_spec in E as ((_ & Ha & _ & Hpr & Hy) & _).
  unfold well_formed. by rewrite Ha, Hpr, Hy.
Qed.

Lemma turn_maxlik_assigns d d' :
  fit_criterion "maxlik" d = (d', Ok tt) -> is_Some (mle_pf_ d').
Proof.
  rewrite fit_maxlik.
  destruct (maxlik_choice d); [destruct (maxlik_value d)|];
    intros [= <-]; destruct d; cbn; eauto.
Qed.

Lemma for_each_total cs :
  forall d,
    well_formed d -> prob d <> [] ->
    Forall (fun c => supported c = true) cs ->
    (mle_pf_ d = None ->
     forall pre post, cs = pre ++ "ev" :: post -> In "maxlik" pre) ->
    exists d', for_each cs d = (d', Ok tt).
Proof.
  induction cs as [|c cs IH]; intros d Hwf Hp Hs Hev.
  - cbn. eauto.
  - inversion Hs as [|? ? Hc Hs']; subst.
    destruct (turn_total c d Hwf Hp Hc) as [d1 E].
    { intros ->. destruct (mle_pf_ d) eqn:Em; [eauto|].
      destruct (Hev eq_refl [] cs eq_refl). }
    destruct (turn_well_formed _ _ _ _ E Hwf Hp) as [Hwf1 Hp1].
    destruct (IH d1 Hwf1 Hp1 Hs') as [d' E'].
    { intros Hm pre post ->.
      assert (c <> "maxlik") as Hne.
      { intros ->. apply turn_maxlik_assigns in E. rewrite Hm in E.
        by destruct E. }
      pose proof (turn_spec _ _ _ _ E) as (_ & Hmle & _).
      destruct (Hev ltac:(by rewrite <- Hmle) (c :: pre) post eq_refl)
        as [?|?]; done. }
    exists d'. cbn [for_each]. unfold act_bind. by rewrite E.
Qed.

(** X8: on a table with at least one alternative and one state, a label
    per row and a probability per column, [fit] completes for every list of
    known criteria in which each "ev" comes after a "maxlik", and then every
    requested criterion has its entry. *)
Theorem fit_completes_on_well_formed_table
    (alts_ states_ : list label) (prob_ : list Q) (payoff_ : Np.matrix)
    (criteria : list string) :
  payoff_ <> [] -> prob_ <> [] ->
  length alts_ = length payoff_ ->
  Forall (fun row => length row = length prob_) payoff_ ->
  Forall (fun c => supported c = true) criteria ->
  (forall pre post, criteria = pre ++ "ev" :: post -> In "maxlik" pre) ->
  exists d',
    fit (init alts_ states_ prob_ payoff_ criteria) = (d', Ok tt)
    /\ forall c, In c criteria -> is_Some (results_ d' !! c).
Proof.
  intros Hne Hp Hlen Hrect Hs Hev.
  destruct (for_each_total criteria
              (init alts_ states_ prob_ payoff_ criteria)) as [d' E].
  - by split.
  - exact Hp.
  - exact Hs.
  - intros _. exact Hev.
  - exists d'. split; [exact E|]. by eapply for_each_stores.
Qed.

Lemma fit_completes_on_well_formed_table_witness :
  exists d',
    fit (Fixture.table ["maxlik"; "ev"; "regret"; "ev"]) = (d', Ok tt)
    /\ forall c, In c ["maxlik"; "ev"; "regret"; "ev"] ->
                 is_Some (results_ d' !! c).
Proof.
  apply (fit_completes_on_well_formed_table
           Fixture.alts Fixture.states Fixture.prob Fixture.payoff
           ["maxlik"; "ev"; "regret"; "ev"]).
  - discriminate.
  - discriminate.
  - reflexivity.
  - repeat constructor.
  - repeat constructor.
  - intros pre post E.
    destruct pre as [|c0 pre]; [discriminate E|].
    injection E as <- E. by left.
Defined.

(** A table without alternatives: every known criterion stops on an empty
    reduction. *)
Lemma turn_on_no_alternative c d :
  payoff d = [] -> supported c = true ->
  exists d' msg,
    fit_criterion c d = (d', Raise (ValueError msg))
    /\ results_ d' = results_ d.
Proof.
  intros Hp Hs. apply supported_cases in Hs.
  destruct Hs as [-> | [-> | [-> | [-> | ->]]]].
  - rewrite fit_maxmax. unfold maxmax_choice. rewrite Hp. cbn. eauto.
  - rewrite fit_maxmin. unfold maxmin_choice. rewrite Hp. cbn. eauto.
  - rewrite fit_regret. unfold regret_matrix. rewrite Hp. cbn. eauto.
  - rewrite fit_maxlik. unfold maxlik_choice, likely_column. rewrite Hp.
    destruct (Np.argmax (prob d)) as [j|e] eqn:Ej; cbn.
    + eauto.
    + destruct (prob d); [|discriminate]. injection Ej as <-. eauto.
  - rewrite fit_ev. unfold dotprod_of. rewrite Hp. cbn. eauto.
Qed.

(** X9: on a table without alternatives [fit] raises [ValueError] at its
    first criterion, if it knows it or not, and stores nothing. *)
Theorem fit_on_no_alternative_raises
    (states_ : list label) (prob_ : list Q) (c : string) (cs : list string) :
  exists d' msg,
    fit (init [] states_ prob_ [] (c :: cs)) = (d', Raise (ValueError msg))
    /\ results_ d' = ∅.
Proof.
  unfold fit. cbn [crit init for_each]. unfold act_bind.
  destruct (supported c) eqn:Hs.
  - destruct (turn_on_no_alternative c
                (init [] states_ prob_ [] (c :: cs)) eq_refl Hs)
      as (d' & msg & -> & Hr).
    exists d', msg. done.
  - rewrite fit_unknown by done. eexists _, _. done.
Qed.

(** X10: [_read_payoff] on a bare array takes the last row for the
    probabilities and the rows before it for the payoffs, with the indices
    as labels; an array without rows raises [IndexError]; and when the rows
    have one length and there is a row of payoffs, the table is
    well-formed. *)
Theorem init_ndarray_splits_last_row
    (payoff_ : Np.matrix) (prob_ : list Q) (criteria : list string) :
  init_ndarray [] criteria = Raise IndexError
  /\ init_ndarray (payoff_ ++ [prob_]) criteria
     = Ok (init (range (length payoff_)) (range (length prob_))
                prob_ payoff_ criteria)
  /\ (payoff_ <> [] ->
      Forall (fun row => length row = length prob_) payoff_ ->
      well_formed (init (range (length payoff_)) (range (length prob_))
                        prob_ payoff_ criteria)).
Proof.
  split; [reflexivity|]. split.
  - unfold init_ndarray. rewrite last_snoc, removelast_last. reflexivity.
  - intros Hne Hrect. split; [done|]. split; [|done].
    cbn [init alts payoff]. unfold range. by rewrite length_map, length_seq.
Qed.

Lemma init_ndarray_splits_last_row_witness :
  init_ndarray (Fixture.payoff ++ [Fixture.prob]) default_criteria
  = Ok (init (range 5) (range 3) Fixture.prob Fixture.payoff default_criteria)
  /\ well_formed (init (range 5) (range 3) Fixture.prob Fixture.payoff
                       default_criteria).
Proof.
  destruct (init_ndarray_splits_last_row Fixture.payoff Fixture.prob
              default_criteria) as (_ & H2 & H3).
  split; [exact H2|]. apply H3; [discriminate | repeat constructor].
Defined.

End DecisionTotal.

(** ** [EnggEcon.py]: the factors and the worths *)

Module EnggEconMore.
Import EnggEcon.
Local Open Scope Q_scope.
Local Open Scope list_scope.

Lemma div_Ok x y : ~ y == 0 -> div x y = Ok (x / y).
Proof.
  intros H. unfold div. destruct (Qeq_bool y 0) eqn:E; [|done].
  by apply Qeq_bool_eq in E.
Qed.

Lemma div_zero x y : y == 0 -> div x y = Raise ZeroDivisionError.
Proof. intros H. unfold div. by rewrite (Qeq_eq_bool _ _ H). Qed.

Lemma pow_int_Ok b z : ~ b == 0 -> pow_int b z = Ok (b ^ z).
Proof.
  intros H. unfold pow_int. destruct (Qeq_bool b 0) eqn:E; [|done].
  by apply Qeq_bool_eq in E.
Qed.

Lemma pow_int_zero b z :
  b == 0 -> (z < 0)%Z -> pow_int b z = Raise ZeroDivisionError.
Proof.
  intros H Hz. unfold pow_int. rewrite (Qeq_eq_bool _ _ H).
  by apply Z.ltb_lt in Hz as ->.
Qed.

Lemma pow_int_nonneg b z : (0 <= z)%Z -> pow_int b z = Ok (b ^ z).
Proof.
  intros Hz. unfold pow_int. apply Z.ltb_ge in Hz as ->.
  by rewrite andb_false_r.
Qed.

Lemma fract_nonzero e : ~ fract e == 0.
Proof. unfold fract. by destruct (fractional e). Qed.

Lemma zero_rate_base e : 1 + 0 / fract e == 1.
Proof. unfold fract. by destruct (fractional e). Qed.

Lemma zero_rate e : 0 / fract e == 0.
Proof. unfold fract. by destruct (fractional e). Qed.



Section Worth.
Variable float_pow : Q -> Q -> result Q.

(** The factor [PgivenF] at the end of period. *)
Lemma PgivenF_end e i n :
  conv e = ConvEnd -> ~ 1 + i / fract e == 0 ->
  PgivenF float_pow e i n = Ok ((1 + i / fract e) ^ (- n)).
Proof. intros Hc Hb. unfold PgivenF. rewrite Hc. by apply pow_int_Ok. Qed.



(** X12: at the rate that makes [1 + i/fract] zero (a loss of 100 %), the
    present worth of a series of two entries or more raises
    [ZeroDivisionError]; a series of one entry is worth that entry, and the
    empty series is worth 0. *)
Theorem npv_at_total_loss_rate (self : compareAlt) (i : Q) :
  conv (eq self) = ConvEnd ->
  1 + i / fract (eq self) == 0 ->
  match cf self with
  | [] => npv float_pow self i = Ok 0
  | [c] => exists pw, npv float_pow self i = Ok pw /\ pw == c
  | _ :: _ :: _ => npv float_pow self i = Raise ZeroDivisionError
  end.
Proof.
  intros Hc Hb. unfold npv, enumerate.
  destruct (cf self) as [|c [|c' rest]]; cbn [enumerate_from npv_loop].
  - done.
  - unfold PgivenF. rewrite Hc. rewrite pow_int_nonneg by done.
    cbn [mbind result_bind rbind]. eexists. split; [done|].
    change ((1 + i / fract (eq self)) ^ (- 0)) with 1. ring.
  - unfold PgivenF. rewrite Hc. rewrite (pow_int_nonneg _ (- 0)) by done.
    cbn [mbind result_bind rbind]. by rewrite pow_int_zero.
Qed.

End Worth.


Lemma npv_at_total_loss_rate_witness :
  npv no_float_pow (compareAlt_init [-1000; 200; 300] ConvEnd true) (-1)
  = Raise ZeroDivisionError.
Proof.
  apply (npv_at_total_loss_rate no_float_pow
           (compareAlt_init [-1000; 200; 300] ConvEnd true) (-1));
    reflexivity.
Defined.

End EnggEconMore.

Module EnggEconFactors.
Import EnggEcon EnggEconMore.
Local Open Scope Q_scope.
Local Open Scope list_scope.

Section Factors.
Variable float_pow : Q -> Q -> result Q.

Lemma zero_rate_base_nonzero e : ~ 1 + 0 / fract e == 0.
Proof. by rewrite zero_rate_base. Qed.

Lemma pow_end e b n :
  conv e = ConvEnd -> pow float_pow b (periods_of e n) = pow_int b n.
Proof. intros Hc. unfold periods_of. by rewrite Hc. Qed.

Lemma count_end e n : conv e = ConvEnd -> count (periods_of e n) = inject_Z n.
Proof. intros Hc. unfold periods_of. by rewrite Hc. Qed.

Lemma AgivenF_zero_rate e n :
  conv e = ConvEnd -> AgivenF float_pow e 0 n = Raise ZeroDivisionError.
Proof.
  intros Hc. unfold AgivenF. rewrite (pow_end _ _ _ Hc).
  rewrite pow_int_Ok by apply zero_rate_base_nonzero.
  cbn [mbind result_bind rbind]. apply div_zero.
  rewrite zero_rate_base, Qpower_1. ring.
Qed.

Lemma PgivenG_zero_rate e n :
  conv e = ConvEnd -> PgivenG float_pow e 0 n = Raise ZeroDivisionError.
Proof.
  intros Hc. unfold PgivenG. cbv zeta. rewrite (pow_end _ _ _ Hc).
  rewrite pow_int_Ok by apply zero_rate_base_nonzero.
  cbn [mbind result_bind rbind]. rewrite pow_int_nonneg by done.
  cbn [mbind result_bind rbind]. rewrite div_zero; [done|].
  rewrite zero_rate. change (0 ^ 2) with (0 * 0). ring.
Qed.

Lemma AgivenP_zero_rate e n :
  conv e = ConvEnd -> AgivenP float_pow e 0 n = Raise ZeroDivisionError.
Proof.
  intros Hc. unfold AgivenP.
  rewrite pow_int_Ok by apply zero_rate_base_nonzero.
  cbn [mbind result_bind rbind]. by rewrite AgivenF_zero_rate.
Qed.

(** [FgivenP] is the reciprocal of [PgivenF]. *)
Lemma FgivenP_end e i n :
  conv e = ConvEnd -> ~ 1 + i / fract e == 0 ->
  FgivenP float_pow e i n = Ok (1 / (1 + i / fract e) ^ (- n))
  /\ 1 / (1 + i / fract e) ^ (- n) == (1 + i / fract e) ^ n.
Proof.
  intros Hc Hb. unfold FgivenP. rewrite PgivenF_end by done.
  cbn [mbind result_bind rbind].
  assert (~ (1 + i / fract e) ^ (- n) == 0) as Hp by by apply Qpower_not_0.
  rewrite div_Ok by done. split; [done|].
  rewrite Qpower_opp. field. by apply Qpower_not_0.
Qed.

(** X13: at a zero rate the single-payment factors are 1, and every annuity
    and arithmetic-gradient factor raises [ZeroDivisionError], whatever the
    number of periods (end-of-period convention). *)
Theorem factors_at_zero_rate (e : equivalence) (n : Z) :
  conv e = ConvEnd ->
  (exists v, PgivenF float_pow e 0 n = Ok v /\ v == 1)
  /\ (exists v, FgivenP float_pow e 0 n = Ok v /\ v == 1)
  /\ AgivenF float_pow e 0 n = Raise ZeroDivisionError
  /\ FgivenA float_pow e 0 n = Raise ZeroDivisionError
  /\ AgivenP float_pow e 0 n = Raise ZeroDivisionError
  /\ PgivenA float_pow e 0 n = Raise ZeroDivisionError
  /\ PgivenG float_pow e 0 n = Raise ZeroDivisionError
  /\ AgivenG float_pow e 0 n = Raise ZeroDivisionError
  /\ FgivenG float_pow e 0 n = Raise ZeroDivisionError.
Proof.
  intros Hc.
  assert (PgivenF float_pow e 0 n = Ok ((1 + 0 / fract e) ^ (- n))) as HP
    by (apply PgivenF_end; [done | apply zero_rate_base_nonzero]).
  assert ((1 + 0 / fract e) ^ (- n) == 1) as H1
    by (by rewrite zero_rate_base, Qpower_1).
  split_and!.
  - eauto.
  - destruct (FgivenP_end e 0 n Hc (zero_rate_base_nonzero e)) as [-> E].
    eexists. split; [done|]. by rewrite E, zero_rate_base, Qpower_1.
  - by apply AgivenF_zero_rate.
  - unfold FgivenA. by rewrite AgivenF_zero_rate.
  - by apply AgivenP_zero_rate.
  - unfold PgivenA. by rewrite AgivenP_zero_rate.
  - by apply PgivenG_zero_rate.
  - unfold AgivenG. cbv zeta. by rewrite (div_zero 1 _ (zero_rate e)).
  - unfold FgivenG. rewrite pow_int_Ok by apply zero_rate_base_nonzero.
    cbn [mbind result_bind rbind]. by rewrite PgivenG_zero_rate.
Qed.


End Factors.

Lemma factors_at_zero_rate_witness :
  AgivenP no_float_pow (equivalence_init ConvEnd true) 0 5
  = Raise ZeroDivisionError.
Proof.
  apply (factors_at_zero_rate no_float_pow (equivalence_init ConvEnd true) 5).
  reflexivity.
Defined.


End EnggEconFactors.

Module EnggEconSingular.
Import EnggEcon EnggEconMore EnggEconFactors.
Local Open Scope Q_scope.
Local Open Scope list_scope.

Section Singular.
Variable float_pow : Q -> Q -> result Q.

Lemma Qpower_0_pos (b : Q) (n : Z) : b == 0 -> (1 <= n)%Z -> b ^ n == 0.
Proof.
  intros Hb Hn. rewrite Hb. destruct n as [|p|p]; try lia.
  apply Qpower_positive_0.
Qed.

Lemma pow_int_pos_zero (b : Q) (n : Z) :
  b == 0 -> (1 <= n)%Z -> exists x, pow_int b n = Ok x /\ x == 0.
Proof.
  intros Hb Hn. rewrite pow_int_nonneg by lia. eexists. split; [done|].
  by apply Qpower_0_pos.
Qed.

(** X15: at the rate that makes [1 + i/fract] zero (a loss of 100 %) and
    for [n >= 1] periods, [PgivenF], [FgivenP], [PgivenA], [PgivenG] and
    [FgivenG] raise [ZeroDivisionError], [AgivenF] and [FgivenA] are 1,
    [AgivenP] is 0 and [AgivenG] is [n - 1] (end-of-period convention; [n]
    within the integers that a double holds exactly). *)
Theorem factors_at_total_loss_rate (e : equivalence) (i : Q) (n : Z) :
  conv e = ConvEnd ->
  1 + i / fract e == 0 ->
  (1 <= n <= 2 ^ 53)%Z ->
  PgivenF float_pow e i n = Raise ZeroDivisionError
  /\ FgivenP float_pow e i n = Raise ZeroDivisionError
  /\ (exists v, AgivenF float_pow e i n = Ok v /\ v == 1)
  /\ (exists v, FgivenA float_pow e i n = Ok v /\ v == 1)
  /\ (exists v, AgivenP float_pow e i n = Ok v /\ v == 0)
  /\ PgivenA float_pow e i n = Raise ZeroDivisionError
  /\ PgivenG float_pow e i n = Raise ZeroDivisionError
  /\ (exists v, AgivenG float_pow e i n = Ok v /\ v == inject_Z n - 1)
  /\ FgivenG float_pow e i n = Raise ZeroDivisionError.
Proof.
  intros Hc Hb [Hn _].
  set (j := i / fract e) in *.
  assert (j == -1) as Hj.
  { transitivity ((1 + j) - 1); [ring|]. by rewrite Hb. }
  assert (~ j == 0) as Hj0 by (rewrite Hj; discriminate).
  assert ((1 + j) ^ n == 0) as HX by by apply Qpower_0_pos.
  assert (~ (1 + j) ^ n - 1 == 0) as HX1 by (rewrite HX; discriminate).
  assert (PgivenF float_pow e i n = Raise ZeroDivisionError) as HPF.
  { unfold PgivenF. rewrite Hc. fold j. apply pow_int_zero; [done | lia]. }
  assert (AgivenF float_pow e i n = Ok (j / ((1 + j) ^ n - 1))) as HAF.
  { unfold AgivenF. fold j. rewrite (pow_end _ _ _ _ Hc).
    rewrite pow_int_nonneg by lia. cbn [mbind result_bind rbind].
    by rewrite div_Ok. }
  assert (j / ((1 + j) ^ n - 1) == 1) as EAF.
  { rewrite HX, Hj. reflexivity. }
  assert (AgivenP float_pow e i n
          = Ok ((1 + j) ^ n * (j / ((1 + j) ^ n - 1)))) as HAP.
  { unfold AgivenP. fold j. rewrite pow_int_nonneg by lia.
    cbn [mbind result_bind rbind]. by rewrite HAF. }
  assert (PgivenG float_pow e i n = Raise ZeroDivisionError) as HPG.
  { unfold PgivenG. cbv zeta. fold j. rewrite (pow_end _ _ _ _ Hc).
    rewrite pow_int_nonneg by lia. cbn [mbind result_bind rbind].
    rewrite pow_int_nonneg by done. cbn [mbind result_bind rbind].
    rewrite (div_zero ((1 + j) ^ n - 1) (j ^ 2 * (1 + j) ^ n)); [done|].
    rewrite HX. ring. }
  split_and!.
  - done.
  - unfold FgivenP. by rewrite HPF.
  - eauto.
  - unfold FgivenA. rewrite HAF. cbn [mbind result_bind rbind].
    rewrite div_Ok by (rewrite EAF; discriminate).
    eexists. split; [done|]. rewrite EAF. reflexivity.
  - rewrite HAP. eexists. split; [done|]. rewrite HX. ring.
  - unfold PgivenA. rewrite HAP. cbn [mbind result_bind rbind].
    apply div_zero. rewrite HX. ring.
  - done.
  - unfold AgivenG. cbv zeta. fold j. rewrite div_Ok by done.
    cbn [mbind result_bind rbind]. rewrite (pow_end _ _ _ _ Hc).
    rewrite pow_int_nonneg by lia. cbn [mbind result_bind rbind].
    rewrite (count_end _ _ Hc). rewrite div_Ok by done.
    cbn [mbind result_bind rbind]. eexists. split; [done|].
    rewrite HX, Hj. field.
  - unfold FgivenG. fold j. rewrite pow_int_nonneg by lia.
    cbn [mbind result_bind rbind]. by rewrite HPG.
Qed.

(** X16: for no period at all ([n = 0]) and whatever the rate, [PgivenF]
    and [FgivenP] are 1, and [AgivenF], [FgivenA], [AgivenP], [PgivenA] and
    [AgivenG] raise [ZeroDivisionError] (end-of-period convention). *)
Theorem factors_for_no_period (e : equivalence) (i : Q) :
  conv e = ConvEnd ->
  (exists v, PgivenF float_pow e i 0 = Ok v /\ v == 1)
  /\ (exists v, FgivenP float_pow e i 0 = Ok v /\ v == 1)
  /\ AgivenF float_pow e i 0 = Raise ZeroDivisionError
  /\ FgivenA float_pow e i 0 = Raise ZeroDivisionError
  /\ AgivenP float_pow e i 0 = Raise ZeroDivisionError
  /\ PgivenA float_pow e i 0 = Raise ZeroDivisionError
  /\ AgivenG float_pow e i 0 = Raise ZeroDivisionError.
Proof.
  intros Hc. set (j := i / fract e).
  assert (PgivenF float_pow e i 0 = Ok ((1 + j) ^ 0)) as HPF.
  { unfold PgivenF. rewrite Hc. fold j. by rewrite (pow_int_nonneg _ (- 0)). }
  assert (AgivenF float_pow e i 0 = Raise ZeroDivisionError) as HAF.
  { unfold AgivenF. fold j. rewrite (pow_end _ _ _ _ Hc).
    rewrite pow_int_nonneg by done. cbn [mbind result_bind rbind].
    by apply div_zero. }
  assert (AgivenP float_pow e i 0 = Raise ZeroDivisionError) as HAP.
  { unfold AgivenP. fold j. rewrite pow_int_nonneg by done.
    cbn [mbind result_bind rbind]. by rewrite HAF. }
  split_and!.
  - eexists. split; [exact HPF | reflexivity].
  - unfold FgivenP. rewrite HPF. cbn [mbind result_bind rbind].
    rewrite div_Ok by discriminate. eexists. split; [done | reflexivity].
  - done.
  - unfold FgivenA. by rewrite HAF.
  - done.
  - unfold PgivenA. by rewrite HAP.
  - unfold AgivenG. cbv zeta. fold j.
    assert (div 1 j = Raise ZeroDivisionError \/ exists t, div 1 j = Ok t)
      as [-> | [t ->]].
    { unfold div. destruct (Qeq_bool j 0); eauto. }
    + done.
    + cbn [mbind result_bind rbind]. rewrite (pow_end _ _ _ _ Hc).
      rewrite pow_int_nonneg by done. cbn [mbind result_bind rbind].
      by rewrite div_zero.
Qed.

End Singular.

Lemma factors_at_total_loss_rate_witness :
  (exists v, AgivenG no_float_pow (equivalence_init ConvEnd false) (-100) 7
             = Ok v /\ v == 6)
  /\ PgivenA no_float_pow (equivalence_init ConvEnd false) (-100) 7
     = Raise ZeroDivisionError.
Proof.
  destruct (factors_at_total_loss_rate no_float_pow
              (equivalence_init ConvEnd false) (-100) 7)
    as (_ & _ & _ & _ & _ & HPA & _ & (v & Hv & E) & _);
    [reflexivity | reflexivity | lia |].
  split; [|exact HPA]. exists v. split; [exact Hv|]. rewrite E. reflexivity.
Defined.

Lemma factors_for_no_period_witness :
  AgivenG no_float_pow (equivalence_init ConvEnd true) (1 # 10) 0
  = Raise ZeroDivisionError.
Proof.
  apply (factors_for_no_period no_float_pow
           (equivalence_init ConvEnd true) (1 # 10)).
  reflexivity.
Defined.

End EnggEconSingular.

(** ** [EnggEcon.py]: the rate of return and the benefit-cost ratio *)

Module EnggEconRates.
Import EnggEcon EnggEconFacts EnggEconMore.
Local Open Scope Q_scope.
Local Open Scope list_scope.

Section Rates.
Variable float_pow : Q -> Q -> result Q.

(** X20: a guess whose present worth is already within the threshold is
    returned as it is, after no turn of the loop, whatever the cap. *)
Theorem irr_returns_a_good_guess
    (self : compareAlt) (g pw max_iter threshold : Q)
    (verbose itr_to_conv : bool) :
  npv float_pow self g = Ok pw ->
  Qabs pw <= threshold ->
  irr float_pow self (Some g) max_iter threshold verbose itr_to_conv
  = Some (if verbose || itr_to_conv then [Converged 0] else [],
          Ok (VFloat g)).
Proof.
  intros Hnpv Hthr. rewrite npv_ppv in Hnpv. unfold irr. cbn [first_rate].
  destruct (_ppv float_pow self (cf self) g) as [ppv|]; [|discriminate].
  injection Hnpv as <-. apply NpFacts.Qgtb_false in Hthr.
  destruct (turns max_iter); cbn [irr_loop]; unfold Qgtb; by rewrite Hthr.
Qed.

(** X21: with a cap below one turn, a starting rate whose present worth
    is beyond the threshold makes [irr] raise [TypeError]: the text and the
    rate do not add, and no value is returned. *)
Theorem irr_with_no_turn_allowed_raises
    (self : compareAlt) (guess : option Q) (r pw max_iter threshold : Q)
    (verbose itr_to_conv : bool) :
  first_rate self guess = Ok r ->
  npv float_pow self r = Ok pw ->
  threshold < Qabs pw ->
  max_iter < 1 ->
  irr float_pow self guess max_iter threshold verbose itr_to_conv
  = Some (if verbose then [FailedToConverge 1] else [], Raise TypeError).
Proof.
  intros Hr Hnpv Hthr Hcap. rewrite npv_ppv in Hnpv. unfold irr. rewrite Hr.
  destruct (_ppv float_pow self (cf self) r) as [ppv|]; [|discriminate].
  injection Hnpv as <-.
  rewrite irr_loop_cap; [by destruct verbose| |];
    by apply NpFacts.Qgtb_true.
Qed.

(** X22: without a guess, [irr] divides the first flow by the sum of the
    later ones: it raises [IndexError] on the empty series and
    [ZeroDivisionError] when the later flows sum to zero, a series of one
    entry included. *)
Theorem irr_default_guess_needs_later_flows
    (self : compareAlt) (max_iter threshold : Q)
    (verbose itr_to_conv : bool) :
  py_sum (tail (cf self)) == 0 ->
  irr float_pow self None max_iter threshold verbose itr_to_conv
  = Some ([], Raise (match cf self with
                     | [] => IndexError
                     | _ :: _ => ZeroDivisionError
                     end)).
Proof.
  intros H. unfold irr, first_rate. destruct (cf self) as [|c0 rest]; [done|].
  cbn [tail] in H. by rewrite (Qeq_eq_bool _ _ H).
Qed.

(** *** [BCRatio] *)

(** X23: [BCRatio] is built exactly when the two stream rates are both
    given or both left out (a rate of 0 counts as left out); with only one
    of them it raises the missing-rate error, whatever the shared rate. *)
Theorem BCRatio_init_needs_both_stream_rates
    (benefit_ cost_ : list Q) (rate br cr : option Q)
    (conv_ : convention) (fr : bool) :
  if Bool.eqb (truthy br) (truthy cr)
  then is_ok (snd (BCRatio_init benefit_ cost_ rate br cr conv_ fr)) = true
  else snd (BCRatio_init benefit_ cost_ rate br cr conv_ fr)
       = Raise missing_rate.
Proof.
  unfold BCRatio_init, resolve_rates.
  by destruct (truthy rate), (truthy br), (truthy cr).
Qed.

(** X24: a shared rate of 0 is taken as no shared rate. *)
Theorem BCRatio_init_drops_zero_shared_rate
    (benefit_ cost_ : list Q) (q : Q) (br cr : option Q)
    (conv_ : convention) (fr : bool) :
  q == 0 ->
  BCRatio_init benefit_ cost_ (Some q) br cr conv_ fr
  = BCRatio_init benefit_ cost_ None br cr conv_ fr.
Proof.
  intros H. unfold BCRatio_init, resolve_rates. cbn [truthy].
  by rewrite (Qeq_eq_bool _ _ H).
Qed.

(** X25: an instance built without any rate is of no use: [bcr] raises
    [TypeError] as soon as one of the two series has an entry. *)
Theorem bcr_without_rates_raises
    (benefit_ cost_ : list Q) (conv_ : convention) (fr : bool) :
  benefit_ <> [] \/ cost_ <> [] ->
  exists inst,
    BCRatio_init benefit_ cost_ None None None conv_ fr = ([], Ok inst)
    /\ bcr float_pow inst = Raise TypeError.
Proof.
  intros H. eexists. split; [done|]. unfold bcr. cbn.
  destruct benefit_ as [|b benefit_]; [|done].
  destruct cost_ as [|c cost_]; [|done]. by destruct H.
Qed.

End Rates.

Lemma irr_returns_a_good_guess_witness :
  irr no_float_pow (compareAlt_init [-4; 4; 8] ConvEnd true) (Some 1)
      default_max_iter default_threshold false true
  = Some ([Converged 0], Ok (VFloat 1)).
Proof.
  eapply (irr_returns_a_good_guess no_float_pow
            (compareAlt_init [-4; 4; 8] ConvEnd true) 1);
    [vm_compute; reflexivity | vm_compute; discriminate].
Defined.

Lemma irr_with_no_turn_allowed_raises_witness :
  irr no_float_pow (compareAlt_init [4; -3; 4] ConvEnd true) (Some 0)
      (1 # 2) default_threshold true false
  = Some ([FailedToConverge 1], Raise TypeError).
Proof.
  apply (irr_with_no_turn_allowed_raises no_float_pow
           (compareAlt_init [4; -3; 4] ConvEnd true) (Some 0) 0 5);
    reflexivity.
Defined.

Lemma irr_default_guess_needs_later_flows_witness :
  irr no_float_pow (compareAlt_init [-100; 50; -50] ConvEnd true) None
      default_max_iter default_threshold false false
  = Some ([], Raise ZeroDivisionError).
Proof.
  apply (irr_default_guess_needs_later_flows no_float_pow
           (compareAlt_init [-100; 50; -50] ConvEnd true)).
  reflexivity.
Defined.

Lemma BCRatio_init_drops_zero_shared_rate_witness :
  BCRatio_init [0; 200] [2000; 0] (Some 0) (Some (1 # 10)) (Some (2 # 10))
               ConvEnd true
  = BCRatio_init [0; 200] [2000; 0] None (Some (1 # 10)) (Some (2 # 10))
                 ConvEnd true.
Proof.
  apply (BCRatio_init_drops_zero_shared_rate [0; 200] [2000; 0] 0).
  reflexivity.
Defined.

Lemma bcr_without_rates_raises_witness :
  exists inst,
    BCRatio_init [0; 200] [2000; 0] None None None ConvEnd true
    = ([], Ok inst)
    /\ bcr no_float_pow inst = Raise TypeError.
Proof.
  apply (bcr_without_rates_raises no_float_pow [0; 200] [2000; 0]).
  left. discriminate.
Defined.

End EnggEconRates.

Module EnggEconLoss.
Import EnggEcon EnggEconFacts EnggEconMore.
Local Open Scope Q_scope.
Local Open Scope list_scope.

Section Loss.
Variable float_pow : Q -> Q -> result Q.

(** X19: a guess of a loss of 100 % ([1 + guess/fract] is zero) makes
    [irr] raise [ZeroDivisionError] before anything is printed: in [_ppv],
    on a series of two entries or more; and in [_dnpv], on a series of one
    entry that exceeds the threshold, when the cap allows a turn
    (end-of-period convention). *)
Theorem irr_at_total_loss_guess_raises
    (self : compareAlt) (g max_iter threshold : Q)
    (verbose itr_to_conv : bool) :
  conv (eq self) = ConvEnd ->
  1 + g / fract (eq self) == 0 ->
  ((2 <= length (cf self))%nat ->
   irr float_pow self (Some g) max_iter threshold verbose itr_to_conv
   = Some ([], Raise ZeroDivisionError))
  /\ (forall c, cf self = [c] -> threshold < Qabs c -> 1 <= max_iter ->
      irr float_pow self (Some g) max_iter threshold verbose itr_to_conv
      = Some ([], Raise ZeroDivisionError)).
Proof.
  intros Hc Hb. unfold irr. cbn [first_rate]. unfold _ppv, enumerate. split.
  - intros Hlen. destruct (cf self) as [|c [|c' rest]]; [cbn in Hlen; lia..|].
    cbn [enumerate_from rmap]. unfold PgivenF. rewrite Hc.
    rewrite (pow_int_nonneg _ (- 0)) by done. cbn [mbind result_bind rbind].
    by rewrite pow_int_zero.
  - intros c Hcf Hthr Hcap. rewrite Hcf. cbn [enumerate_from rmap].
    unfold PgivenF. rewrite Hc. rewrite (pow_int_nonneg _ (- 0)) by done.
    cbn [mbind result_bind rbind].
    assert (1 <= Qfloor max_iter)%Z as Hfl.
    { change 1%Z with (Qfloor 1). by apply Qfloor_resp_le. }
    unfold turns. destruct (Z.to_nat (Qfloor max_iter)) as [|fuel] eqn:Ef;
      [lia|].
    set (x := (1 + g / fract (eq self)) ^ (- 0)).
    assert (py_sum [c * x] == c) as Hsum.
    { unfold py_sum, x. cbn [fold_left].
      change ((1 + g / fract (eq self)) ^ (- 0)) with 1. ring. }
    cbn [irr_loop].
    assert (Qgtb (Qabs (py_sum [c * x])) threshold = true) as ->.
    { apply NpFacts.Qgtb_true. by rewrite Hsum. }
    assert (Qgtb (inject_Z (0 + 1)) max_iter = false) as ->.
    { by apply NpFacts.Qgtb_false. }
    unfold _ppv, enumerate. rewrite Hcf. cbn [enumerate_from rmap].
    unfold PgivenF. rewrite Hc. rewrite (pow_int_nonneg _ (- 0)) by done.
    cbn [mbind result_bind rbind]. unfold _dnpv.
    assert (Qeq_bool (g / fract (eq self) + 1) 0 = true) as ->.
    { apply Qeq_eq_bool. rewrite <- Hb. ring. }
    done.
Qed.

End Loss.

Lemma irr_at_total_loss_guess_raises_witness :
  irr no_float_pow (compareAlt_init [-1000; 200; 300] ConvEnd false)
      (Some (-100)) default_max_iter default_threshold true true
  = Some ([], Raise ZeroDivisionError)
  /\ irr no_float_pow (compareAlt_init [5] ConvEnd true)
         (Some (-1)) default_max_iter default_threshold true true
     = Some ([], Raise ZeroDivisionError).
Proof.
  split.
  - apply (irr_at_total_loss_guess_raises no_float_pow
             (compareAlt_init [-1000; 200; 300] ConvEnd false) (-100));
      [reflexivity | reflexivity | cbn; lia].
  - apply (proj2 (irr_at_total_loss_guess_raises no_float_pow
                    (compareAlt_init [5] ConvEnd true) (-1) default_max_iter
                    default_threshold true true eq_refl eq_refl) 5);
      [reflexivity | reflexivity | discriminate].
Defined.

End EnggEconLoss.

(** ** [utils.py]: the effective rate, and the series of [cfCommon] *)

Module UtilsEffect.
Import Utils EnggEconMore.
Local Open Scope Q_scope.

(** X26: [effect] at its edges.  With no compounding period it divides by
    zero; and a rate of zero has an effective rate of zero, for any number
    of periods other than 0 (within the integers that a double holds
    exactly), on either rate scale. *)
Theorem effect_edges (r : Q) (m : Z) (fractional : bool) :
  effect r 0 fractional = Raise ZeroDivisionError
  /\ (m <> 0%Z -> (Z.abs m <= 2 ^ 53)%Z ->
      exists e, effect 0 m fractional = Ok e /\ e == 0).
Proof.
  split; [by destruct fractional|]. intros Hm _. unfold effect.
  set (fract := if fractional then 1 else 100).
  assert (~ fract == 0) as Hf by (unfold fract; by destruct fractional).
  assert (~ inject_Z m == 0) as HM.
  { change 0 with (inject_Z 0). rewrite inject_Z_injective. done. }
  destruct (Qeq_bool (fract * inject_Z m) 0) eqn:E.
  { apply Qeq_bool_eq, Qmult_integral in E as [?|?]; done. }
  assert (1 + 0 / (fract * inject_Z m) == 1) as Hb.
  { unfold Qdiv. ring. }
  rewrite pow_int_Ok by (rewrite Hb; discriminate).
  cbn [mbind result_bind rbind]. eexists. split; [done|].
  rewrite Hb, Qpower_1. ring.
Qed.

Lemma effect_edges_witness :
  effect (1 # 10) 0 false = Raise ZeroDivisionError
  /\ exists e, effect 0 12 false = Ok e /\ e == 0.
Proof.
  destruct (effect_edges (1 # 10) 12 false) as [H0 H1].
  split; [exact H0|]. apply H1; [discriminate | by vm_compute].
Defined.

End UtilsEffect.

Module UtilsSeries.
Import Utils UtilsFacts.
Local Open Scope list_scope.

(** X27: on a mapping whose keys name distinct lists of two entries or
    more, [cfCommon] returns the mapping in which each key has its series
    widened to the common horizon: the last entry folded, the tail repeated
    [lcm/n - 1] times, the last entry restored.  The turn of one key does
    not touch the series of another. *)
Theorem cfCommon_widens_each_series
    (h : gmap positive obj) (d : positive) (m : list (string * list Q))
    (items : list (string * positive)) :
  view h d = Some m ->
  items_at h d = Some items ->
  NoDup (map fst m) ->
  NoDup (map snd items) ->
  Forall (fun kv => (2 <= length kv.2)%nat) m ->
  exists h',
    cfCommon d h = (h', Ok d)
    /\ view h' d
       = Some (map (fun kv => (kv.1, widen (LCM (horizons m)) kv.2)) m).
Proof.
  intros Hview Hitems Hnd Hnd2 Hlen.
  apply view_Some in Hview as (items0 & Hd & F).
  apply items_at_Some in Hitems.
  assert (items0 = items) as -> by congruence.
  by apply (cfCommon_contents h d items m).
Qed.

Lemma times_succ (v : list Q) (c : Z) :
  (0 <= c)%Z -> times v (c + 1) = times v c ++ v.
Proof.
  intros Hc. unfold times. rewrite Z2Nat.inj_add by lia.
  change (Z.to_nat 1) with 1%nat.
  induction (Z.to_nat c) as [|n IH]; cbn.
  - by rewrite app_nil_r.
  - cbn in IH. by rewrite IH, app_assoc.
Qed.

Lemma times_comm (v : list Q) (c : Z) : v ++ times v c = times v c ++ v.
Proof.
  unfold times. induction (Z.to_nat c) as [|n IH]; cbn.
  - by rewrite app_nil_r.
  - by rewrite <- app_assoc, <- IH.
Qed.

Lemma times_nonpos (v : list Q) (c : Z) : (c <= 0)%Z -> times v c = [].
Proof. intros Hc. unfold times. by replace (Z.to_nat c) with 0%nat by lia. Qed.

Lemma fold_last_snoc (a b : Q) (mid : list Q) :
  fold_last (a :: mid ++ [b]) = a :: mid ++ [(a + b)%Q].
Proof.
  unfold fold_last. change (a :: mid ++ [b]) with ((a :: mid) ++ [b]).
  by rewrite last_snoc, removelast_last.
Qed.

Lemma restore_last_snoc (a b : Q) (mid : list Q) :
  restore_last (a :: mid ++ [b]) = a :: mid ++ [(b - a)%Q].
Proof.
  unfold restore_last. change (a :: mid ++ [b]) with ((a :: mid) ++ [b]).
  by rewrite last_snoc, removelast_last.
Qed.

(** X28: the widened series, entry by entry.  A series [a, mid.., b] of
    horizon [n] comes out as [a], then [lcm/n - 1] cycles [mid.., a + b],
    then [mid..] and a last entry [(a + b) - a]: every cycle but the last
    ends on the sum of the first and last entries, and the last one on the
    original last entry (up to the rounding of the subtraction). *)
Theorem widen_cycles (lcm : Z) (a b : Q) (mid : list Q) :
  widen lcm (a :: mid ++ [b])
  = a :: times (mid ++ [(a + b)%Q]) (lcm / Z.of_nat (S (length mid)) - 1)
      ++ mid ++ [(a + b - a)%Q].
Proof.
  unfold widen. cbv zeta. rewrite fold_last_snoc.
  replace (Z.of_nat (length (a :: mid ++ [b])) - 1)%Z
    with (Z.of_nat (S (length mid))).
  2:{ cbn [length]. rewrite length_app. cbn [length]. lia. }
  set (c := (lcm / Z.of_nat (S (length mid)) - 1)%Z).
  cbn [rest tail].
  destruct (Z_le_gt_dec c 0) as [Hc|Hc].
  - rewrite times_nonpos by done. rewrite app_nil_r.
    rewrite restore_last_snoc. done.
  - set (s := (a + b)%Q). set (cyc := mid ++ [s]).
    replace c with ((c - 1) + 1)%Z by lia. rewrite times_succ by lia.
    set (T := times cyc (c - 1)).
    transitivity (restore_last (a :: (T ++ cyc ++ mid) ++ [s])).
    + f_equal. change ((a :: cyc) ++ T ++ cyc) with (a :: (cyc ++ T ++ cyc)).
      f_equal. rewrite app_assoc. unfold T. rewrite times_comm. unfold cyc.
      by rewrite <- !app_assoc.
    + rewrite restore_last_snoc. f_equal. by rewrite <- !app_assoc.
Qed.

(** X29: a list of the heap that is neither the dict nor one of the
    lists that the dict names is left as it was. *)
Theorem cfCommon_leaves_other_objects
    (h : gmap positive obj) (d : positive) (m : list (string * list Q))
    (items : list (string * positive)) :
  view h d = Some m ->
  items_at h d = Some items ->
  NoDup (map fst m) ->
  Forall (fun kv => (2 <= length kv.2)%nat) m ->
  exists h',
    cfCommon d h = (h', Ok d)
    /\ forall p, p <> d -> (p ∉ map snd items) -> p ∈ dom h ->
                 h' !! p = h !! p.
Proof.
  intros Hview Hitems Hnd Hlen.
  apply view_Some in Hview as (items0 & Hd & F).
  apply items_at_Some in Hitems.
  assert (items0 = items) as -> by congruence.
  destruct (cfCommon_spec h d items m Hd F Hnd Hlen)
    as (h' & Hrun & items' & _ & _ & _ & _ & _ & _ & Hframe & _).
  exists h'. split; done.
Qed.

(** X30: a mapping with a single series of a single entry: [cfCommon]
    raises [ZeroDivisionError], and by then it has doubled the entry in the
    caller's list. *)
Theorem cfCommon_on_one_entry_series
    (h : gmap positive obj) (d l : positive) (k : string) (a : Q) :
  h !! d = Some (ODict [(k, l)]) ->
  h !! l = Some (OList [a]) ->
  cfCommon d h = (<[l := OList [(a + a)%Q]]> h, Raise ZeroDivisionError).
Proof.
  intros Hd Hl. assert (d <> l) as Hdl by congruence.
  assert (assoc k [(k, l)] = Some l) as Hk by (cbn; by rewrite String.eqb_refl).
  unfold cfCommon.
  rewrite (bind_ok _ _ _ _ _ (items_of_ok _ _ _ Hd)).
  rewrite (bind_ok (_horizon _) _ h h [0%Z]).
  2:{ cbn [_horizon]. by rewrite (bind_ok _ _ _ _ _ (load_ok _ _ _ Hl)). }
  rewrite (bind_ok (pure_ _) _ h h 0%Z) by done.
  assert (body d 0 [0%Z] 0 k h
          = (<[l := OList [(a + a)%Q]]> h, Raise ZeroDivisionError)) as Hbody.
  { unfold body.
    rewrite (bind_ok _ _ _ _ _
               (fold_terminal_ok _ _ _ _ _ _ Hd Hk Hl ltac:(done))).
    change (fold_last [a]) with [(a + a)%Q].
    set (h1 := <[l := OList [(a + a)%Q]]> h).
    assert (h1 !! d = Some (ODict [(k, l)])) as Hd1
      by (unfold h1; by rewrite lookup_insert_ne).
    assert (h1 !! l = Some (OList [(a + a)%Q])) as Hl1
      by (unfold h1; by rewrite lookup_insert_eq).
    assert (broadcast d 0 [0%Z] 0 k h1 = (h1, Raise ZeroDivisionError)) as Hb.
    { unfold broadcast.
      rewrite (bind_ok _ _ _ _ _ (subscript_ok _ _ _ _ _ Hd1 Hk)).
      rewrite (bind_ok _ _ _ _ _ (load_ok _ _ _ Hl1)).
      rewrite (bind_ok _ _ _ _ _ (subscript_ok _ _ _ _ _ Hd1 Hk)).
      rewrite (bind_ok _ _ _ _ _ (load_ok _ _ _ Hl1)).
      done. }
    unfold act_bind at 1. by rewrite Hb. }
  cbn [map fst loop]. unfold act_bind at 1. unfold act_bind at 1.
  by rewrite Hbody.
Qed.

Lemma cfCommon_widens_each_series_witness :
  exists h',
    cfCommon 1%positive example_heap = (h', Ok 1%positive)
    /\ view h' 1%positive
       = Some [("cf1", widen 12 [-1000; 300; 400; 500]%Q);
               ("cf2", widen 12 [-2000; 300; 400; 500; 600]%Q)].
Proof.
  apply (cfCommon_widens_each_series example_heap 1%positive
           [("cf1", [-1000; 300; 400; 500]%Q);
            ("cf2", [-2000; 300; 400; 500; 600]%Q)]
           [("cf1", 2%positive); ("cf2", 3%positive)]).
  - vm_compute. reflexivity.
  - reflexivity.
  - by apply (bool_decide_unpack _).
  - by apply (bool_decide_unpack _).
  - repeat constructor.
Defined.

Lemma cfCommon_leaves_other_objects_witness :
  exists h',
    cfCommon 1%positive (<[9%positive := OList [7%Q]]> example_heap)
    = (h', Ok 1%positive)
    /\ h' !! 9%positive = Some (OList [7%Q]).
Proof.
  destruct (cfCommon_leaves_other_objects
              (<[9%positive := OList [7%Q]]> example_heap) 1%positive
              [("cf1", [-1000; 300; 400; 500]%Q);
               ("cf2", [-2000; 300; 400; 500; 600]%Q)]
              [("cf1", 2%positive); ("cf2", 3%positive)])
    as (h' & Hrun & Hframe).
  - vm_compute. reflexivity.
  - reflexivity.
  - by apply (bool_decide_unpack _).
  - repeat constructor.
  - exists h'. split; [done|]. rewrite Hframe; [reflexivity|done| |].
    + by apply (bool_decide_unpack _).
    + by apply (bool_decide_unpack _).
Defined.

Lemma cfCommon_on_one_entry_series_witness :
  cfCommon 1%positive
    {[ 1%positive := ODict [("a", 2%positive)]; 2%positive := OList [5%Q] ]}
  = (<[2%positive := OList [(5 + 5)%Q]]>
       {[ 1%positive := ODict [("a", 2%positive)]; 2%positive := OList [5%Q] ]},
     Raise ZeroDivisionError).
Proof.
  apply (cfCommon_on_one_entry_series _ 1%positive 2%positive "a" 5%Q);
    reflexivity.
Defined.

End UtilsSeries.
